(** * openclawLarkBridge: message pipeline of the Feishu bridge

    A shallow embedding of the pure and event-driven parts of the bridge
    (dedup ledger, group gate, URL extraction, routing, gateway message
    handler, card title detection, card elements and tables, table
    flattening, Markdown chunking, reply format) together with the
    properties stated about them.

    JavaScript strings are sequences of UTF-16 code units; they are
    modelled as [list N].  Integers that the code manipulates as JS
    numbers (timestamps, lengths, thresholds) are modelled as [Z]. *)

From Stdlib Require Import ZArith NArith Ascii String List Bool Lia.
From stdpp Require Import base numbers list gmap pretty.

Local Open Scope Z_scope.

(** ** JavaScript strings *)

Module JS.

Abbreviation char := N (only parsing).
Abbreviation str := (list N) (only parsing).

(** Decoding of the UTF-8 bytes of a Rocq literal into UTF-16 code units
    (one to three byte sequences give one unit, four byte sequences a
    surrogate pair), so that literals can be written as in the source. *)
Fixpoint utf16_of_bytes (fuel : nat) (bs : list N) : str :=
  match fuel with
  | O => []
  | S fuel' =>
    match bs with
    | [] => []
    | b0 :: r0 =>
      if (b0 <? 128)%N then b0 :: utf16_of_bytes fuel' r0
      else if (b0 <? 224)%N then
        match r0 with
        | b1 :: r1 =>
          ((b0 - 192) * 64 + (b1 - 128))%N :: utf16_of_bytes fuel' r1
        | _ => []
        end
      else if (b0 <? 240)%N then
        match r0 with
        | b1 :: b2 :: r2 =>
          ((b0 - 224) * 4096 + (b1 - 128) * 64 + (b2 - 128))%N
            :: utf16_of_bytes fuel' r2
        | _ => []
        end
      else
        match r0 with
        | b1 :: b2 :: b3 :: r3 =>
          let cp := ((b0 - 240) * 262144 + (b1 - 128) * 4096
                     + (b2 - 128) * 64 + (b3 - 128))%N in
          let v := (cp - 65536)%N in
          (55296 + v / 1024)%N :: (56320 + v mod 1024)%N
            :: utf16_of_bytes fuel' r3
        | _ => []
        end
    end
  end.

Definition lit (s : string) : str :=
  let bs := List.map N_of_ascii (list_ascii_of_string s) in
  utf16_of_bytes (List.length bs) bs.

Definition len (s : str) : Z := Z.of_nat (List.length s).

(** The newline character and the text made of the given lines. *)
Definition nl : str := [10%N].

Definition eqb (a b : str) : bool := bool_decide (a = b).

(** [!s] on a string: the empty string is the only falsy one. *)
Definition falsy (s : str) : bool :=
  match s with [] => true | _ => false end.

(** White space and line terminators, the set removed by [trim] and
    matched by [\s] in a regular expression. *)
Definition is_space (c : char) : bool :=
  ((9 <=? c) && (c <=? 13) || (c =? 32) || (c =? 160) || (c =? 5760)
   || (8192 <=? c) && (c <=? 8202) || (c =? 8232) || (c =? 8233)
   || (c =? 8239) || (c =? 8287) || (c =? 12288) || (c =? 65279))%N.

(** Line terminators: the characters that [.] does not match. *)
Definition is_line_terminator (c : char) : bool :=
  ((c =? 10) || (c =? 13) || (c =? 8232) || (c =? 8233))%N.

Fixpoint drop_while {A} (p : A -> bool) (s : list A) : list A :=
  match s with
  | [] => []
  | c :: s' => if p c then drop_while p s' else s
  end.

Fixpoint take_while {A} (p : A -> bool) (s : list A) : list A :=
  match s with
  | [] => []
  | c :: s' => if p c then c :: take_while p s' else []
  end.

Definition trimStart (s : str) : str := drop_while is_space s.
Definition trimEnd (s : str) : str := rev (drop_while is_space (rev s)).
Definition trim (s : str) : str := trimEnd (trimStart s).

(** [s.startsWith(p)]; when it holds, [strip_prefix] gives [s.slice(p.length)]. *)
Fixpoint strip_prefix (p s : str) : option str :=
  match p, s with
  | [], _ => Some s
  | _ :: _, [] => None
  | a :: p', b :: s' => if (a =? b)%N then strip_prefix p' s' else None
  end.

Definition startsWith (s p : str) : bool :=
  match strip_prefix p s with Some _ => true | None => false end.

Definition endsWith (s p : str) : bool := startsWith (rev s) (rev p).

(** [s.includes(p)] *)
Fixpoint includes (s p : str) : bool :=
  startsWith s p ||
  match s with
  | [] => false
  | _ :: s' => includes s' p
  end.

(** [s.split(sep)] for a one-character separator: never the empty list. *)
Fixpoint split (sep : char) (s : str) : list str :=
  match s with
  | [] => [[]]
  | c :: s' =>
    if (c =? sep)%N then [] :: split sep s'
    else match split sep s' with
         | [] => [[c]]
         | l :: ls => (c :: l) :: ls
         end
  end.

(** [ls.join(sep)] *)
Fixpoint join (sep : str) (ls : list str) : str :=
  match ls with
  | [] => []
  | [l] => l
  | l :: ls' => l ++ sep ++ join sep ls'
  end.

(** [s.slice(0, e)]: a negative end counts from the end of the string. *)
Definition slice_to (s : str) (e : Z) : str :=
  if e <? 0 then take (Z.to_nat (len s + e)) s else take (Z.to_nat e) s.

(** [s.slice(b)] for [0 <= b]. *)
Definition slice_from (s : str) (b : nat) : str := drop b s.

(** Lowercasing of one code unit of the Basic Latin and Latin-1 blocks;
    the other code units are left as they are. *)
Definition lower_char (c : char) : char :=
  if ((65 <=? c) && (c <=? 90))%N then (c + 32)%N
  else if ((192 <=? c) && (c <=? 222) && negb (c =? 215))%N then (c + 32)%N
  else c.

(** [String.prototype.toLowerCase] is a built-in of the runtime: the
    definitions that call it take it as a parameter [lower], and the
    properties are stated for every such function.  [toLowerCase_latin1]
    is what the built-in computes on a string whose cased letters all
    lie in the Basic Latin and Latin-1 blocks (the other code units of
    the string being caseless, such as CJK characters, digits and
    punctuation); it stands for the built-in in the examples, whose
    strings are of that kind. *)
Definition toLowerCase_latin1 (s : str) : str := List.map lower_char s.

(** Case-insensitive comparison of one character of a pattern that has
    the [i] flag (no [u] flag) against an input character: both are
    canonicalised through their upper case; the letters used in the
    patterns below are Basic Latin or caseless. *)
Definition ieq_char (p c : char) : bool :=
  ((p =? c) || ((lower_char p =? lower_char c) && (c <? 128) && (p <? 128)))%N.

Fixpoint istrip_prefix (p s : str) : option str :=
  match p, s with
  | [], _ => Some s
  | _ :: _, [] => None
  | a :: p', b :: s' => if ieq_char a b then istrip_prefix p' s' else None
  end.

Definition mem_char (c : char) (set : str) : bool :=
  existsb (N.eqb c) set.

Definition text_of_lines (ls : list string) : str :=
  join nl (List.map lit ls).

End JS.

Import JS.

(** ** Link extraction ([extractUrls]) *)

(** The character class [[^\s<>()\]\}]] of the URL pattern. *)
Definition url_char (c : char) : bool :=
  negb (is_space c || mem_char c (lit "<>()]}")).

(** Anchored match of [/https?:\/\/[^\s<>()\]\}]+/] at the start of [s]:
    the length of the match. *)
Definition url_tail (r : str) (n : nat) : option nat :=
  match strip_prefix (lit "://") r with
  | Some r2 =>
    match take_while url_char r2 with
    | [] => None
    | t => Some (n + 3 + List.length t)%nat
    end
  | None => None
  end.

Definition match_url_at (s : str) : option nat :=
  match strip_prefix (lit "http") s with
  | None => None
  | Some r =>
    match r with
    | 115%N :: r' =>
      match url_tail r' 5 with
      | Some n => Some n
      | None => url_tail r 4
      end
    | _ => url_tail r 4
    end
  end.

(** [u.replace(/[),.。!！?？;；]+$/g, '')]: the maximal run of these
    characters at the end of [u] is removed. *)
Definition trailing_punct (c : char) : bool :=
  mem_char c (lit "),.。!！?？;；").

Definition strip_trailing_punct (u : str) : str :=
  rev (drop_while trailing_punct (rev u)).

(** The [while ((m = re.exec(src)) !== null)] loop: [skip] counts the
    characters of the current match that are still to be passed over. *)
Fixpoint scan_urls (skip : nat) (s : str) : list str :=
  match s with
  | [] => []
  | _ :: s' =>
    match skip with
    | S k => scan_urls k s'
    | O =>
      match match_url_at s with
      | Some n => strip_trailing_punct (take n s) :: scan_urls (n - 1) s'
      | None => scan_urls 0 s'
      end
    end
  end.

(** The dedupe loop: [seen] is the set of URLs already pushed. *)
Fixpoint dedupe_urls (seen : list str) (urls : list str) : list str :=
  match urls with
  | [] => []
  | u :: rest =>
    if falsy u || existsb (JS.eqb u) seen then dedupe_urls seen rest
    else u :: dedupe_urls (u :: seen) rest
  end.

Definition extractUrls (text : str) : list str :=
  dedupe_urls [] (scan_urls 0 text).

(** ** Dedup ledger ([isDuplicate]) *)

Definition SEEN_TTL_MS : Z := 10 * 60 * 1000.
Definition CONTENT_DEDUP_WINDOW_MS : Z := 5000.
Definition PROCESSING_TIMEOUT_MS : Z := 300000.

(** The three module-level collections [seen], [processing] and
    [recentMessages] (whose values are [{ ts, id }]), and the timers
    armed by [setTimeout] that have not fired yet (due time, id). *)
Record ledger := {
  seen : gmap str Z;
  processing : gset str;
  recentMessages : gmap str (Z * str);
  timers : list (Z * str)
}.

Definition empty_ledger : ledger :=
  {| seen := ∅; processing := ∅; recentMessages := ∅; timers := [] |}.

(** The two clean-up loops at the top of [isDuplicate]: an entry is
    deleted when [now - ts > TTL], so it is kept otherwise. *)
Definition purge (now : Z) (st : ledger) : ledger :=
  {| seen := filter (λ kv, ¬ (SEEN_TTL_MS < now - kv.2)) (seen st);
     processing := processing st;
     recentMessages :=
       filter (λ kv, ¬ (CONTENT_DEDUP_WINDOW_MS < now - kv.2.1))
              (recentMessages st);
     timers := timers st |}.

(** [isDuplicate(messageId, content = '')] at time [now = Date.now()].
    [messageId] is [None] when the event carries no id. *)
Definition isDuplicate (messageId : option str) (content : str) (now : Z)
    (st : ledger) : bool * ledger :=
  let st1 := purge now st in
  match messageId with
  | None => (false, st1)
  | Some mid =>
    if falsy mid then (false, st1)
    else if bool_decide (is_Some (seen st1 !! mid))
            || bool_decide (mid ∈ processing st1)
    then (true, st1)
    else
      let contentHash := slice_to content 100 in
      if negb (falsy content)
         && bool_decide (is_Some (recentMessages st1 !! contentHash))
      then (true, st1)
      else
        (false,
         {| seen := <[mid := now]> (seen st1);
            processing := {[mid]} ∪ processing st1;
            recentMessages :=
              if falsy content then recentMessages st1
              else <[contentHash := (now, mid)]> (recentMessages st1);
            timers := timers st1 ++ [(now + PROCESSING_TIMEOUT_MS, mid)] |})
  end.

(** The callback of [setTimeout(() => processing.delete(messageId), 300000)]. *)
Definition timer_fires (mid : str) (st : ledger) : ledger :=
  {| seen := seen st;
     processing := processing st ∖ {[mid]};
     recentMessages := recentMessages st;
     timers := timers st |}.

(** What happens to the ledger over time: calls of [isDuplicate] and
    timer callbacks, in the order the event loop runs them. *)
Inductive event :=
  | Call (messageId : option str) (content : str) (now : Z)
  | TimerFires (mid : str).

Definition step (e : event) (st : ledger) : option bool * ledger :=
  match e with
  | Call mid c now => let r := isDuplicate mid c now st in (Some r.1, r.2)
  | TimerFires mid => (None, timer_fires mid st)
  end.

(** The results of the calls of a trace, in order. *)
Fixpoint outcomes (evs : list event) (st : ledger) : list bool :=
  match evs with
  | [] => []
  | e :: evs' =>
    let r := step e st in
    match r.1 with
    | Some b => b :: outcomes evs' r.2
    | None => outcomes evs' r.2
    end
  end.

(** The ledger after a trace. *)
Definition run (evs : list event) (st : ledger) : ledger :=
  fold_left (λ s e, (step e s).2) evs st.


(** The older bridge ([bridge.mjs]) keeps the [seen] map only. *)
Module Legacy.

Definition purge (now : Z) (seen : gmap str Z) : gmap str Z :=
  filter (λ kv, ¬ (SEEN_TTL_MS < now - kv.2)) seen.

Definition isDuplicate (messageId : option str) (now : Z)
    (seen : gmap str Z) : bool * gmap str Z :=
  let seen1 := purge now seen in
  match messageId with
  | None => (false, seen1)
  | Some mid =>
    if falsy mid then (false, seen1)
    else if bool_decide (is_Some (seen1 !! mid)) then (true, seen1)
    else (false, <[mid := now]> seen1)
  end.

Fixpoint outcomes (calls : list (option str * Z)) (seen : gmap str Z)
    : list bool :=
  match calls with
  | [] => []
  | (mid, now) :: calls' =>
    let r := isDuplicate mid now seen in
    r.1 :: outcomes calls' r.2
  end.

End Legacy.



(** Events that happen while the fingerprint recorded at [t1] is still
    inside the five second window. *)
Definition inside_window (t1 : Z) (e : event) : Prop :=
  match e with
  | Call _ _ now => now - t1 ≤ CONTENT_DEDUP_WINDOW_MS
  | TimerFires _ => True
  end.


(** ** Group gate ([shouldRespondInGroup]) *)

(** The configuration read from the environment, after the
    [split(',').map(trim).filter(Boolean)] processing of the lists. *)
Record config := {
  FEISHU_CODE_PREFIXES : list str;
  FEISHU_SEARCH_PREFIXES : list str;
  FEISHU_LINK_PREFIXES : list str;
  FEISHU_GROUP_MENTION_ONLY : bool;
  FEISHU_BOT_MENTION_NAMES : list str;
  FEISHU_BOT_OPEN_ID : str;
  FEISHU_BOT_USER_ID : str
}.

(** The values used when the environment sets none of the variables. *)
Definition default_config : config := {|
  FEISHU_CODE_PREFIXES :=
    [lit "coding:"; lit "@code"; lit "@coding"; lit "/code"];
  FEISHU_SEARCH_PREFIXES :=
    [lit "search:"; lit "@search"; lit "研究:"; lit "@research"];
  FEISHU_LINK_PREFIXES := [lit "link:"; lit "链接:"; lit "解析:"; lit "url:"];
  FEISHU_GROUP_MENTION_ONLY := false;
  FEISHU_BOT_MENTION_NAMES :=
    [lit "clawdt"; lit "clawdbot"; lit "openclaw"; lit "机器人"; lit "助手";
     lit "智能体"];
  FEISHU_BOT_OPEN_ID := [];
  FEISHU_BOT_USER_ID := []
|}.

(** One entry of the [mentions] array of an event.  The payload shapes
    the code looks at: a bare string, or an object with optional string
    fields [name], [text], [key] and an [id] that is a string or an
    object (whose values are kept in order, [None] for a value that is
    not a string). *)
Inductive mention_id :=
  | IdAbsent
  | IdString (s : str)
  | IdObject (values : list (option str)).

Inductive mention :=
  | MFalsy
  | MString (s : str)
  | MObject (name text key : option str) (id : mention_id).

Definition opt_list (o : option str) : list str :=
  match o with Some s => [s] | None => [] end.

Definition mention_candidates (m : mention) : list str :=
  match m with
  | MFalsy => []
  | MString s => [s]
  | MObject name text key id =>
    opt_list name ++ opt_list text ++ opt_list key ++
    match id with
    | IdAbsent => []
    | IdString s => [s]
    | IdObject values => flat_map opt_list values
    end
  end.

Definition mention_is_falsy (m : mention) : bool :=
  match m with
  | MFalsy => true
  | MString s => falsy s
  | MObject _ _ _ _ => false
  end.

Section Lowercasing.

(** [String.prototype.toLowerCase] of the runtime. *)
Variable lower : str → str.

(** [String(raw || '').trim().toLowerCase().replace(/^@+/, '')] *)
Definition normalize_candidate (raw : str) : str :=
  drop_while (N.eqb 64) (lower (trim raw)).

Definition candidate_is_bot (cfg : config) (raw : str) : bool :=
  let s := normalize_candidate raw in
  if falsy s then false
  else
    (negb (falsy (FEISHU_BOT_OPEN_ID cfg))
       && JS.eqb s (lower (FEISHU_BOT_OPEN_ID cfg)))
    || (negb (falsy (FEISHU_BOT_USER_ID cfg))
          && JS.eqb s (lower (FEISHU_BOT_USER_ID cfg)))
    || existsb (λ n, JS.eqb s n || includes s n)
               (FEISHU_BOT_MENTION_NAMES cfg).

Definition isMentioningBot (cfg : config) (mentions : list mention) : bool :=
  existsb (λ m, negb (mention_is_falsy m)
                && existsb (candidate_is_bot cfg) (mention_candidates m))
          mentions.

(** The prefix loop shared by [detectCodeRoute], [detectSearchRoute] and
    [detectLinkRoute]: the first non-empty prefix that the trimmed text
    starts with, case-insensitively, gives [trimmed.slice(prefix.length).trim()]. *)
Fixpoint match_prefix (prefixes : list str) (trimmed : str) : option str :=
  match prefixes with
  | [] => None
  | prefix :: rest =>
    if falsy prefix then match_prefix rest trimmed
    else if startsWith (lower trimmed) (lower prefix)
    then Some (trim (slice_from trimmed (List.length prefix)))
    else match_prefix rest trimmed
  end.

(** Whether one configured prefix matches the trimmed text. *)
Definition prefix_hits (trimmed prefix : str) : bool :=
  negb (falsy prefix) && startsWith (lower trimmed) (lower prefix).

(** [detectCodeRoute(text)] and [detectSearchRoute(text)]: [{ matched, text }]. *)
Definition detectRoute (prefixes : list str) (text : str) : bool * str :=
  let trimmed := trim text in
  if falsy trimmed then (false, trimmed)
  else match match_prefix prefixes trimmed with
       | Some rest => (true, rest)
       | None => (false, trimmed)
       end.

Definition detectCodeRoute (cfg : config) (text : str) : bool * str :=
  detectRoute (FEISHU_CODE_PREFIXES cfg) text.

Definition detectSearchRoute (cfg : config) (text : str) : bool * str :=
  detectRoute (FEISHU_SEARCH_PREFIXES cfg) text.

(** [detectLinkRoute(text)]: [{ matched, urls }]. *)
Definition detectLinkRoute (cfg : config) (text : str) : bool * list str :=
  let trimmed := trim text in
  if falsy trimmed then (false, [])
  else match match_prefix (FEISHU_LINK_PREFIXES cfg) trimmed with
       | Some rest => (true, extractUrls rest)
       | None => (false, extractUrls trimmed)
       end.

(** [/^(clawdt|clawdbot|openclaw|bot|机器人|助手|智能体)[\s,:，：]/i] *)
Definition wake_words : list str :=
  [lit "clawdt"; lit "clawdbot"; lit "openclaw"; lit "bot"; lit "机器人";
   lit "助手"; lit "智能体"].

Definition wake_separator (c : char) : bool :=
  is_space c || mem_char c (lit ",:，：").

Definition matches_wake_word (trimmed : str) : bool :=
  existsb (λ w, match istrip_prefix w trimmed with
                | Some (c :: _) => wake_separator c
                | _ => false
                end) wake_words.

Definition shouldRespondInGroup (cfg : config) (text : str)
    (mentions : list mention) : bool :=
  let trimmed := trim text in
  if falsy trimmed then false
  else if FEISHU_GROUP_MENTION_ONLY cfg then isMentioningBot cfg mentions
  else if isMentioningBot cfg mentions then true
  else if (detectCodeRoute cfg trimmed).1 then true
  else if (detectSearchRoute cfg trimmed).1 then true
  else if (detectLinkRoute cfg trimmed).1 then true
  else if matches_wake_word trimmed then true
  else false.

(** [text.replace(/@_user_\d+\s*/g, '')] in the event handler. *)
Definition is_digit (c : char) : bool := ((48 <=? c) && (c <=? 57))%N.

Definition match_user_token (s : str) : option nat :=
  match strip_prefix (lit "@_user_") s with
  | None => None
  | Some r =>
    match take_while is_digit r with
    | [] => None
    | ds =>
      Some (7 + List.length ds
            + List.length (take_while is_space (drop (List.length ds) r)))%nat
    end
  end.

Fixpoint strip_user_tokens (skip : nat) (s : str) : str :=
  match s with
  | [] => []
  | c :: s' =>
    match skip with
    | S k => strip_user_tokens k s'
    | O =>
      match match_user_token s with
      | Some n => strip_user_tokens (n - 1) s'
      | None => c :: strip_user_tokens 0 s'
      end
    end
  end.

(** The group branch of the event handler: [true] when the handler goes
    on with the message, [false] when it returns at once (the message is
    ignored). *)
Definition group_gate (cfg : config) (text : str) (mentions : list mention)
    : bool :=
  let text' := trim (strip_user_tokens 0 text) in
  if falsy text' then false else shouldRespondInGroup cfg text' mentions.

End Lowercasing.

(** The older bridge ([bridge.mjs]) answers questions, requests and
    direct address instead. *)
Module LegacyGate.

(** [/[？?]|吗$|呢$|什么|怎么|如何|为什么|哪|多少|是否|能不能|可以吗/] *)
Definition looks_like_question (text : str) : bool :=
  existsb (λ c, mem_char c (lit "？?")) text
  || endsWith text (lit "吗") || endsWith text (lit "呢")
  || existsb (includes text)
       [lit "什么"; lit "怎么"; lit "如何"; lit "为什么"; lit "哪"; lit "多少";
        lit "是否"; lit "能不能"; lit "可以吗"].

(** [/^(请|帮|麻烦|能否|可以|想要|需要|希望)/] *)
Definition looks_like_request (text : str) : bool :=
  existsb (startsWith text)
    [lit "请"; lit "帮"; lit "麻烦"; lit "能否"; lit "可以"; lit "想要";
     lit "需要"; lit "希望"].

(** [/^(小C|助手|AI|机器人|bot)/i] *)
Definition addresses_bot (text : str) : bool :=
  existsb (λ w, match istrip_prefix w text with
                | Some _ => true
                | None => false
                end)
    [lit "小C"; lit "助手"; lit "AI"; lit "机器人"; lit "bot"].

Definition shouldRespondInGroup (text : str) (mentions : list mention)
    : bool :=
  if (0 <? List.length mentions)%nat then true
  else if looks_like_question text then true
  else if looks_like_request text then true
  else if addresses_bot text then true
  else false.

Definition group_gate (text : str) (mentions : list mention) : bool :=
  let text' := trim (strip_user_tokens 0 text) in
  if falsy text' then false else shouldRespondInGroup text' mentions.

End LegacyGate.

(** ** Gateway protocol client ([askClawdbot]) *)

Module Gateway.

(** A parsed frame, with the fields that the message handler reads.
    [None] stands for a field that is absent (or not a string). *)
Record data := {
  d_text : option str;
  d_delta : option str;
  d_phase : option str;
  d_message : option str
}.

Record payload := {
  p_runId : option str;
  p_stream : option str;
  p_data : option data
}.

Record msg := {
  m_type : option str;
  m_event : option str;
  m_id : option str;
  m_ok : bool;
  m_error_message : option str;
  m_payload : option payload
}.

(** What the socket delivers to the two listeners: a raw message
    ([None] when [JSON.parse] throws) or an [error] event. *)
Inductive input :=
  | Message (raw : option msg)
  | SocketError (e : str).

(** Requests written to the socket (the idempotency key, a fresh random
    UUID, is left out). *)
Inductive request :=
  | ReqConnect
  | ReqAgent (message agentId sessionKey : str).

Inductive settled :=
  | Resolved (finalText : str)
  | Rejected (message : str).

(** The arguments of one invocation. *)
Record invocation := {
  text : str;
  sessionKey : str;
  agentId : str;
  has_onDelta : bool
}.

(** The closure variables [runId] and [buf], and the observable effects:
    the state of the promise, the number of [ws.close()] calls, the
    requests sent and the arguments of the [onDelta] calls. *)
Record state := {
  runId : option str;
  buf : str;
  outcome : option settled;
  closes : nat;
  sent : list request;
  deltas : list str
}.

Definition init : state :=
  {| runId := None; buf := []; outcome := None; closes := 0;
     sent := []; deltas := [] |}.

Definition CLAWDBOT_AGENT_ID : str := lit "main".

Definition is_str (o : option str) (s : str) : bool :=
  match o with Some v => JS.eqb v s | None => false end.

(** [o || dflt] for an optional string. *)
Definition or_default (o : option str) (dflt : str) : str :=
  match o with
  | Some v => if falsy v then dflt else v
  | None => dflt
  end.

(** [close()] followed by [resolve]/[reject]: a promise that is already
    settled keeps its first outcome. *)
Definition close_and_settle (r : settled) (st : state) : state :=
  {| runId := runId st; buf := buf st;
     outcome := match outcome st with Some o => Some o | None => Some r end;
     closes := S (closes st);
     sent := sent st; deltas := deltas st |}.

Definition send (r : request) (st : state) : state :=
  {| runId := runId st; buf := buf st; outcome := outcome st;
     closes := closes st; sent := sent st ++ [r]; deltas := deltas st |}.

(** [runId && p.runId !== runId]: the event belongs to another run. *)
Definition other_run (st : state) (p : payload) : bool :=
  match runId st with
  | None => false
  | Some r =>
    negb (falsy r) &&
    negb (match p_runId p with Some r' => JS.eqb r' r | None => false end)
  end.

Definition on_assistant (inv : invocation) (p : payload) (st : state)
    : state :=
  let buf' :=
    match p_data p with
    | None => buf st
    | Some d =>
      match d_text d with
      | Some t => t
      | None =>
        match d_delta d with
        | Some dl => buf st ++ dl
        | None => buf st
        end
      end
    end in
  {| runId := runId st; buf := buf'; outcome := outcome st;
     closes := closes st; sent := sent st;
     deltas := if has_onDelta inv then deltas st ++ [buf'] else deltas st |}.

Definition phase_of (p : payload) : option str :=
  match p_data p with Some d => d_phase d | None => None end.

Definition message_of (p : payload) : option str :=
  match p_data p with Some d => d_message d | None => None end.

Definition on_lifecycle (p : payload) (st : state) : state :=
  let st1 :=
    if is_str (phase_of p) (lit "end")
    then close_and_settle (Resolved (trim (buf st))) st
    else st in
  if is_str (phase_of p) (lit "error")
  then close_and_settle
         (Rejected (or_default (message_of p) (lit "agent error"))) st1
  else st1.

(** The [message] listener. *)
Definition on_message (inv : invocation) (raw : option msg) (st : state)
    : state :=
  match raw with
  | None => st
  | Some m =>
    if is_str (m_type m) (lit "event") && is_str (m_event m) (lit "connect.challenge")
    then send ReqConnect st
    else if is_str (m_type m) (lit "res") && is_str (m_id m) (lit "connect") then
      if negb (m_ok m)
      then close_and_settle
             (Rejected (or_default (m_error_message m) (lit "connect failed")))
             st
      else send (ReqAgent (text inv)
                          (if falsy (agentId inv) then CLAWDBOT_AGENT_ID
                           else agentId inv)
                          (sessionKey inv)) st
    else if is_str (m_type m) (lit "res") && is_str (m_id m) (lit "agent") then
      if negb (m_ok m)
      then close_and_settle
             (Rejected (or_default (m_error_message m) (lit "agent error")))
             st
      else
        match m_payload m with
        | Some p =>
          match p_runId p with
          | Some r =>
            if falsy r then st
            else {| runId := Some r; buf := buf st; outcome := outcome st;
                    closes := closes st; sent := sent st;
                    deltas := deltas st |}
          | None => st
          end
        | None => st
        end
    else if is_str (m_type m) (lit "event") && is_str (m_event m) (lit "agent") then
      match m_payload m with
      | None => st
      | Some p =>
        if other_run st p then st
        else if is_str (p_stream p) (lit "assistant") then on_assistant inv p st
        else if is_str (p_stream p) (lit "lifecycle") then on_lifecycle p st
        else st
      end
    else st
  end.

(** The [error] listener: [close(); reject(e)]. *)
Definition on_error (e : str) (st : state) : state :=
  close_and_settle (Rejected e) st.

Definition handle (inv : invocation) (st : state) (i : input) : state :=
  match i with
  | Message raw => on_message inv raw st
  | SocketError e => on_error e st
  end.

(** The invocation after the socket has delivered [ins], in order. *)
Definition run (inv : invocation) (ins : list input) : state :=
  fold_left (handle inv) ins init.

(** The frames of the protocol, as the server sends them. *)
Definition no_msg : msg :=
  {| m_type := None; m_event := None; m_id := None; m_ok := false;
     m_error_message := None; m_payload := None |}.

Definition agent_event (p : payload) : msg :=
  {| m_type := Some (lit "event"); m_event := Some (lit "agent");
     m_id := None; m_ok := false; m_error_message := None;
     m_payload := Some p |}.

Definition lifecycle_end (rid : option str) : payload :=
  {| p_runId := rid; p_stream := Some (lit "lifecycle");
     p_data := Some {| d_text := None; d_delta := None;
                       d_phase := Some (lit "end"); d_message := None |} |}.

Definition lifecycle_error (rid : option str) (message : option str)
    : payload :=
  {| p_runId := rid; p_stream := Some (lit "lifecycle");
     p_data := Some {| d_text := None; d_delta := None;
                       d_phase := Some (lit "error");
                       d_message := message |} |}.

Definition assistant_delta (rid : option str) (dl : str) : payload :=
  {| p_runId := rid; p_stream := Some (lit "assistant");
     p_data := Some {| d_text := None; d_delta := Some dl;
                       d_phase := None; d_message := None |} |}.

Definition connect_challenge : msg :=
  {| m_type := Some (lit "event"); m_event := Some (lit "connect.challenge");
     m_id := None; m_ok := false; m_error_message := None;
     m_payload := None |}.

Definition res_connect_ok : msg :=
  {| m_type := Some (lit "res"); m_event := None;
     m_id := Some (lit "connect"); m_ok := true; m_error_message := None;
     m_payload := None |}.

Definition res_agent_ok (rid : str) : msg :=
  {| m_type := Some (lit "res"); m_event := None;
     m_id := Some (lit "agent"); m_ok := true; m_error_message := None;
     m_payload := Some {| p_runId := Some rid; p_stream := None;
                          p_data := None |} |}.

(** The promise is settled exactly when [ws.close()] has been called. *)
Definition settled_iff_closed (st : state) : Prop :=
  outcome st = None ↔ closes st = 0%nat.

Definition delta_input (rid : str) (dl : str) : input :=
  Message (Some (agent_event (assistant_delta (Some rid) dl))).

End Gateway.

(** ** Card construction ([extractHeaderAndBody], [buildCardElements]) *)

(** The patterns of [extractHeaderAndBody] are written in the source
    with doubled backslashes.  Inside a regular expression literal [\\]
    matches one backslash character (code unit 92), so [\\s+] reads
    "a backslash, then one or more letters s", [\\d+] "a backslash, then
    one or more letters d", [\\.] "a backslash, then any character but a
    line terminator", and [\\*] "any number of backslashes".  The
    matchers below follow the patterns as they are written. *)

Definition backslash : char := 92%N.

(** [/^[-*]\\s+/.test(first)] *)
Definition test_bullet (first : str) : bool :=
  match first with
  | c :: 92%N :: 115%N :: _ => mem_char c (lit "-*")
  | _ => false
  end.

(** [/^\\d+\\.\\s+/.test(first)] *)
Definition test_numbered (first : str) : bool :=
  match first with
  | 92%N :: r =>
    match take_while (N.eqb 100) r with
    | [] => false
    | ds =>
      match drop (List.length ds) r with
      | 92%N :: c :: 92%N :: 115%N :: _ => negb (is_line_terminator c)
      | _ => false
      end
    end
  | _ => false
  end.

(** [first.match(/^#{1,6}\\s+(.+)$/)]: the first capture group.  After
    one to six [#] and a backslash, the greedy [s+] takes the whole run
    of letters s and gives one back only when nothing else is left for
    [(.+)]. *)
Definition match_heading (first : str) : option str :=
  let hashes := take_while (N.eqb 35) first in
  let k := List.length hashes in
  if ((1 <=? k) && (k <=? 6))%nat then
    match drop k first with
    | 92%N :: r =>
      let ss := take_while (N.eqb 115) r in
      let j := List.length ss in
      let rest := drop j r in
      if (j =? 0)%nat then None
      else if existsb is_line_terminator rest then None
      else match rest with
           | _ :: _ => Some rest
           | [] => if (2 <=? j)%nat then Some (lit "s") else None
           end
    | _ => None
    end
  else None.

(** [first.match(/^\\*\\*(.+)\\*\\*$/)]: the first capture group.  The
    leading [\\*\\*] takes the backslashes the line starts with, [(.+)]
    takes the rest up to the end of the line (and takes the last
    backslash back when the line is nothing but backslashes); the
    trailing [\\*\\*] matches empty. *)
Definition match_bold_stars (first : str) : option str :=
  match first with
  | [] => None
  | _ :: _ =>
    if existsb is_line_terminator first then None
    else match drop_while (N.eqb 92) first with
         | [] => Some [backslash]
         | r => Some r
         end
  end.

(** [first.match(/^__(.+)__$/)]: the first capture group. *)
Definition match_bold_underscores (first : str) : option str :=
  match first with
  | 95%N :: 95%N :: r =>
    match rev r with
    | 95%N :: 95%N :: m =>
      match m with
      | [] => None
      | _ :: _ => if existsb is_line_terminator m then None else Some (rev m)
      end
    | _ => None
    end
  | _ => None
  end.

Definition blank (line : str) : bool := falsy (trim line).

(** The index of the first line with [lines[i].trim()] non-empty. *)
Fixpoint first_nonblank (lines : list str) : option nat :=
  match lines with
  | [] => None
  | l :: ls =>
    if blank l then option_map S (first_nonblank ls) else Some O
  end.

Definition title_of (first : str) : str :=
  match match_heading first with
  | Some h1 => trim h1
  | None =>
    match match_bold_stars first with
    | Some b1 => trim b1
    | None =>
      match match_bold_underscores first with
      | Some b1 => trim b1
      | None => if (len first <=? 80) then first else []
      end
    end
  end.

(** [extractHeaderAndBody(text)]: [(title, body)]. *)
Definition extractHeaderAndBody (text : str) : str * str :=
  if falsy text then ([], [])
  else
    let lines := split 10 text in
    match first_nonblank lines with
    | None => ([], text)
    | Some idx =>
      let first := trim (nth idx lines []) in
      if falsy first then ([], text)
      else if startsWith first (lit "```") then ([], text)
      else if test_bullet first || test_numbered first then ([], text)
      else if startsWith first (lit "|") then ([], text)
      else
        let title := title_of first in
        if falsy title then ([], text)
        else
          let bodyLines := take idx lines ++ drop (S idx) lines in
          (title, join nl (drop_while blank bodyLines))
    end.

(** [trimmed.startsWith('|') && trimmed.endsWith('|')] *)
Definition pipe : char := 124%N.

Definition piped (trimmed : str) : bool :=
  startsWith trimmed [pipe] && endsWith trimmed [pipe].

(** [/^[-:]+$/.test(c)] *)
Definition dashes_or_colons (c : str) : bool :=
  negb (falsy c) && forallb (λ x, mem_char x (lit "-:")) c.

(** [convertTablesToList(text)]: the loop over the lines, with the
    current [headers] ([None] for [null]). *)
Definition bullet_parts (headers cells : list str) : list str :=
  concat
    (imap (λ idx cell,
             match headers !! idx with
             | Some key =>
               if negb (falsy key) && negb (falsy cell)
               then [key ++ lit ": " ++ cell]
               else if negb (falsy cell) then [cell] else []
             | None => if negb (falsy cell) then [cell] else []
             end)
          cells).

Fixpoint convert_lines (headers : option (list str)) (lines : list str)
    : list str :=
  match lines with
  | [] => []
  | line :: rest =>
    let trimmed := trim line in
    if piped trimmed then
      let cells :=
        List.map trim
          (List.filter (λ c, negb (falsy (trim c))) (split pipe trimmed)) in
      if forallb dashes_or_colons cells then convert_lines headers rest
      else
        match headers with
        | None => convert_lines (Some cells) rest
        | Some hs =>
          match bullet_parts hs cells with
          | [] => convert_lines headers rest
          | parts =>
            (lit "• " ++ join (lit " | ") parts) :: convert_lines headers rest
          end
        end
    else line :: convert_lines None rest
  end.

Definition convertTablesToList (text : str) : str :=
  if falsy text then []
  else join nl (convert_lines None (split 10 text)).

(** [isTableRow(line)] *)
Definition isTableRow (line : str) : bool :=
  let trimmed := trim line in
  if negb (piped trimmed) then false
  else
    (2 <=? List.length
             (List.filter (λ c, negb (falsy (trim c))) (split pipe trimmed)))%nat.

(** [/^:?-{3,}:?$/.test(c)] *)
Definition separator_cell (c : str) : bool :=
  let c1 := match c with 58%N :: r => r | _ => c end in
  let ds := take_while (N.eqb 45) c1 in
  (3 <=? List.length ds)%nat &&
  match drop (List.length ds) c1 with
  | [] => true
  | [58%N] => true
  | _ => false
  end.

(** [isTableSeparator(line)] *)
Definition isTableSeparator (line : str) : bool :=
  let trimmed := trim line in
  if negb (piped trimmed) then false
  else
    let cells :=
      List.map trim
        (List.filter (λ c, negb (falsy (trim c))) (split pipe trimmed)) in
    (2 <=? List.length cells)%nat && forallb separator_cell cells.

(** [splitTableRow(line)]: [trimmed.slice(1, -1).split('|').map(trim)] *)
Definition splitTableRow (line : str) : list str :=
  let trimmed := trim line in
  if negb (piped trimmed) then []
  else List.map trim (split pipe (removelast (drop 1 trimmed))).

(** The elements of a card body.  Of a table element the model keeps
    the header cells and the rows it is built from; the column
    descriptors (sanitised names, alignment, styling) are derived from
    them and no property below reads them. *)
Inductive element :=
  | Markdown (content : str)
  | Table (headers : list str) (rows : list (list str)).

(** [buildTableElement(headers, rows)]: [None] for [null]. *)
Definition buildTableElement (headers : list str) (rows : list (list str))
    : option element :=
  match headers, rows with
  | [], _ => None
  | _, [] => None
  | _, _ => Some (Table headers rows)
  end.

Record card_state := {
  elements : list element;
  buffer : list str;
  tableCount : nat;
  inCodeFence : bool
}.

Definition push_line (line : str) (st : card_state) : card_state :=
  {| elements := elements st; buffer := buffer st ++ [line];
     tableCount := tableCount st; inCodeFence := inCodeFence st |}.

(** The local function [flush]. *)
Definition flush (st : card_state) : card_state :=
  let content := trim (join nl (buffer st)) in
  {| elements := if falsy content then elements st
                 else elements st ++ [Markdown content];
     buffer := []; tableCount := tableCount st;
     inCodeFence := inCodeFence st |}.

(** [lines[i]] for an index that may be past the end: [undefined] is
    turned into the empty string by [(line || '')] and by [join]. *)
Definition line_at (lines : list str) (i : nat) : str :=
  match lines !! i with Some l => l | None => [] end.

Definition TABLE_CAP : nat := 5.

(** The [for] loop of [buildCardElements] over the index [i].  Each
    iteration moves [i] forward, so [length lines] iterations suffice;
    [fuel] bounds them. *)
Fixpoint card_loop (fuel : nat) (lines : list str) (i : nat)
    (st : card_state) : card_state :=
  match fuel with
  | O => st
  | S fuel' =>
    match lines !! i with
    | None => st
    | Some line =>
      if startsWith (trim line) (lit "```") then
        card_loop fuel' lines (S i)
          {| elements := elements st; buffer := buffer st ++ [line];
             tableCount := tableCount st;
             inCodeFence := negb (inCodeFence st) |}
      else if inCodeFence st then
        card_loop fuel' lines (S i) (push_line line st)
      else if isTableRow line && isTableSeparator (line_at lines (i + 1)) then
        let headers := splitTableRow line in
        let row_lines := take_while isTableRow (drop (i + 2) lines) in
        let rows := List.map splitTableRow row_lines in
        let j := (i + 2 + List.length row_lines)%nat in
        (* i = j - 1 *)
        let i1 := (j - 1)%nat in
        match headers, rows with
        | _ :: _, _ :: _ =>
          if (tableCount st <? TABLE_CAP)%nat then
            let st1 := flush st in
            match buildTableElement headers rows with
            | Some tableEl =>
              card_loop fuel' lines (S i1)
                {| elements := elements st1 ++ [tableEl];
                   buffer := buffer st1;
                   tableCount := (tableCount st1 + 1)%nat;
                   inCodeFence := inCodeFence st1 |}
            | None => card_loop fuel' lines (S i1) (push_line line st1)
            end
          else
            (* [line, lines[i + 1], ...rows] with the new value of i *)
            let tableBlock :=
              join nl
                ([line; line_at lines (i1 + 1)]
                 ++ List.map (λ r, lit "| " ++ join (lit " | ") r ++ lit " |")
                             rows) in
            card_loop fuel' lines (S i1)
              (push_line (convertTablesToList tableBlock) st)
        | _, _ => card_loop fuel' lines (S i1) (push_line line st)
        end
      else card_loop fuel' lines (S i) (push_line line st)
    end
  end.

(** [a || ' '] *)
Definition or_space (a : str) : str := if falsy a then lit " " else a.

(** [buildCardElements(text)]; [table_enabled] is [FEISHU_TABLE_ENABLED]. *)
Definition buildCardElements (table_enabled : bool) (text : str)
    : list element :=
  if falsy text then []
  else if negb table_enabled
  then [Markdown (or_space (convertTablesToList text))]
  else
    let lines := split 10 text in
    let st := card_loop (List.length lines) lines 0
                {| elements := []; buffer := []; tableCount := 0;
                   inCodeFence := false |} in
    match elements (flush st) with
    | [] => [Markdown (or_space (convertTablesToList text))]
    | els => els
    end.

(** The card built by [buildMarkdownCard(text)]: its optional header
    title and the elements of its body. *)
Record card := {
  header : option str;
  body_elements : list element
}.

Definition buildMarkdownCard (table_enabled : bool) (text : str) : card :=
  let '(title, body) := extractHeaderAndBody text in
  let processed := body in
  let els := buildCardElements table_enabled processed in
  {| header := if falsy title then None else Some title;
     body_elements :=
       match els with
       | [] => [Markdown (or_space processed)]
       | _ => els
       end |}.

(** ** Chunking ([splitMarkdownIntoChunks]) *)

(** [text.replace(/\r\n/g, '\n')] *)
Fixpoint normalize_newlines (s : str) : str :=
  match s with
  | 13%N :: ((10%N :: r) as t) => 10%N :: normalize_newlines r
  | c :: t => c :: normalize_newlines t
  | [] => []
  end.

(** A buffer handed to [pushChunk], with two ghost flags that do not
    exist in the source: whether its first line is the fence line that
    the splitter put back after a split inside a fence, and whether its
    last line is the closing fence that the splitter appended. *)
Record flushed := {
  f_lines : list str;
  f_opened : bool;
  f_closed : bool
}.

(** The local variables of [splitMarkdownIntoChunks].  [trace] and
    [opened] are ghost state: [trace] lists the buffers handed to
    [pushChunk] so far and [opened] tells whether the current buffer
    starts with a fence line put back by the splitter.  Nothing reads
    them in the function itself. *)
Record chunk_state := {
  chunks : list str;
  buf : list str;
  bufLen : Z;
  inFence : bool;
  fenceLine : str;
  trace : list flushed;
  opened : bool
}.

Definition fence : str := lit "```".

(** The local function [pushChunk]; [closed] is the ghost flag of the
    buffer being pushed. *)
Definition pushChunk (closed : bool) (st : chunk_state) : chunk_state :=
  let out := trimEnd (join nl (buf st)) in
  {| chunks := if falsy out then chunks st else chunks st ++ [out];
     buf := []; bufLen := 0;
     inFence := inFence st; fenceLine := fenceLine st;
     trace := trace st ++ [{| f_lines := buf st; f_opened := opened st;
                              f_closed := closed |}];
     opened := false |}.

(** [Math.floor(maxChars * 0.75)], exact for the integers that can be
    given as a threshold. *)
Definition paragraph_threshold (maxChars : Z) : Z := 3 * maxChars / 4.

(** One iteration of the loop over the lines, in the four stages of its
    body.  First the fence state is updated from the line. *)
Definition track_fence (line : str) (st : chunk_state) : chunk_state :=
  let trimmed := trim line in
  if startsWith trimmed fence then
    if negb (inFence st)
    then {| chunks := chunks st; buf := buf st; bufLen := bufLen st;
            inFence := true; fenceLine := trimmed;
            trace := trace st; opened := opened st |}
    else {| chunks := chunks st; buf := buf st; bufLen := bufLen st;
            inFence := false; fenceLine := fenceLine st;
            trace := trace st; opened := opened st |}
  else st.

(** [if (wouldExceed && buf.length > 0) { ... }] *)
Definition make_room (maxChars : Z) (line : str) (st : chunk_state)
    : chunk_state :=
  let extra := len line + 1 in
  let wouldExceed := maxChars <? bufLen st + extra in
  if wouldExceed && (0 <? List.length (buf st))%nat then
    if inFence st then
      let st' :=
        pushChunk true
          {| chunks := chunks st; buf := buf st ++ [fence];
             bufLen := bufLen st; inFence := inFence st;
             fenceLine := fenceLine st; trace := trace st;
             opened := opened st |} in
      {| chunks := chunks st'; buf := buf st' ++ [fenceLine st'];
         bufLen := len (fenceLine st') + 1;
         inFence := inFence st'; fenceLine := fenceLine st';
         trace := trace st'; opened := true |}
    else pushChunk false st
  else st.

(** [buf.push(line); bufLen += extra;] *)
Definition append_line (line : str) (st : chunk_state) : chunk_state :=
  {| chunks := chunks st; buf := buf st ++ [line];
     bufLen := bufLen st + (len line + 1);
     inFence := inFence st; fenceLine := fenceLine st;
     trace := trace st; opened := opened st |}.

(** The split at a paragraph boundary; [next] is [lines[i + 1]]
    ([None] past the end). *)
Definition paragraph_break (maxChars : Z) (next : option str)
    (st : chunk_state) : chunk_state :=
  if negb (inFence st)
     && (paragraph_threshold maxChars <=? bufLen st)
     && match next with None => true | Some n => falsy (trim n) end
  then pushChunk false st
  else st.

Definition chunk_step (maxChars : Z) (line : str) (next : option str)
    (st : chunk_state) : chunk_state :=
  paragraph_break maxChars next
    (append_line line (make_room maxChars line (track_fence line st))).

Fixpoint chunk_loop (maxChars : Z) (lines : list str) (st : chunk_state)
    : chunk_state :=
  match lines with
  | [] => st
  | line :: rest =>
    chunk_loop maxChars rest (chunk_step maxChars line (head rest) st)
  end.

Definition chunk_init : chunk_state :=
  {| chunks := []; buf := []; bufLen := 0; inFence := false;
     fenceLine := fence; trace := []; opened := false |}.

(** The state after the loop and the final [if (buf.length) pushChunk()]. *)
Definition chunk_run (maxChars : Z) (src : str) : chunk_state :=
  let st := chunk_loop maxChars (split 10 src) chunk_init in
  if (0 <? List.length (buf st))%nat then pushChunk false st else st.

Definition splitMarkdownIntoChunks (text : str) (maxChars : Z) : list str :=
  let src := normalize_newlines text in
  if falsy src then []
  else if len src <=? maxChars then [src]
  else
    match chunks (chunk_run maxChars src) with
    | [] => [slice_to src maxChars]
    | cs => cs
    end.

(** What the ghost trace says about the chunks: the chunk a buffer is
    turned into, the buffers that give a chunk, and the lines of the
    input that a buffer carries (its lines without the fence lines the
    splitter added). *)
Definition rendered (f : flushed) : str := trimEnd (join nl (f_lines f)).

Definition emitted (tr : list flushed) : list flushed :=
  List.filter (λ f, negb (falsy (rendered f))) tr.

Definition strip_synthetic (opened closed : bool) (ls : list str)
    : list str :=
  let ls1 := if opened then drop 1 ls else ls in
  if closed then removelast ls1 else ls1.

Definition original_lines (f : flushed) : list str :=
  strip_synthetic (f_opened f) (f_closed f) (f_lines f).

(** The lines of the input that the splitter has placed so far: those of
    the buffers already pushed and those of the current buffer. *)
Definition pending_lines (st : chunk_state) : list str :=
  if opened st then drop 1 (buf st) else buf st.

Definition covered (st : chunk_state) : list str :=
  flat_map original_lines (trace st) ++ pending_lines st.

(** The ghost state agrees with the real one. *)
Definition ghost_ok (st : chunk_state) : Prop :=
  (opened st = true → buf st ≠ []) ∧
  chunks st = List.map rendered (emitted (trace st)).

(** A chunk with the synthetic fence lines removed. *)
Definition desynthesized (f : flushed) : str :=
  join nl (strip_synthetic (f_opened f) (f_closed f) (split 10 (rendered f))).

(** ** Sample inputs *)

Definition weather_question : str := lit "today's weather?".

Definition list_item_reply : str :=
  text_of_lines ["- item one"; "more"]%string.

Definition numbered_item_reply : str :=
  text_of_lines ["1. first"; "more"]%string.

(** A first line of 81 letters, followed by a second line. *)
Definition long_line_reply : str :=
  repeat 97%N 81 ++ nl ++ lit "more".

Definition sample_table : list string :=
  ["| a | b |"; "| --- | --- |"; "| 1 | 2 |"; "| 3 | 4 |"]%string.

(** Six copies of the same two-row table, separated by blank lines. *)
Definition six_tables : str :=
  text_of_lines
    (sample_table ++ [""%string] ++ sample_table ++ [""%string]
     ++ sample_table ++ [""%string] ++ sample_table ++ [""%string]
     ++ sample_table ++ [""%string] ++ sample_table).

Definition sample_table_element : element :=
  Table [lit "a"; lit "b"] [[lit "1"; lit "2"]; [lit "3"; lit "4"]].


Definition build_notes : str :=
  text_of_lines
    ["Steps"; ""; "Run the build:"; "```sh"; "make clean"; "make all";
     "```"]%string.

(** A pushed buffer is made of the lines of the input it carries,
    preceded by a fence line when the ghost flag [f_opened] is set and
    followed by the closing fence when [f_closed] is set. *)
Definition buffer_shape (f : flushed) : Prop :=
  ∃ fl : str,
    startsWith fl fence = true ∧
    f_lines f
    = (if f_opened f then [fl] else []) ++ original_lines f
      ++ (if f_closed f then [fence] else []).

Definition fence_inv (st : chunk_state) : Prop :=
  startsWith (fenceLine st) fence = true ∧
  (opened st = true →
   ∃ fl : str, startsWith fl fence = true ∧ head (buf st) = Some fl) ∧
  Forall buffer_shape (trace st).

(** The value that [bufLen] tracks: every line of the buffer with its
    newline. *)
Fixpoint lines_len (ls : list str) : Z :=
  match ls with
  | [] => 0
  | l :: r => len l + 1 + lines_len r
  end.

(** A line that fits in a chunk and that does not open or close a fence. *)
Definition plain_line (maxChars : Z) (l : str) : Prop :=
  len l ≤ maxChars ∧ startsWith (trim l) fence = false.

Definition within_limit (maxChars : Z) (st : chunk_state) : Prop :=
  inFence st = false ∧ bufLen st = lines_len (buf st) ∧
  bufLen st ≤ maxChars + 1 ∧
  Forall (λ c, len c ≤ maxChars) (chunks st).






(** * Further definitions *)

(** ** Dedup ledger: traces *)

(** An event that leaves the in-flight mark of [m] in place: any call,
    and any timer callback but the one of [m]. *)
Definition keeps_in_flight (m : str) (e : event) : Prop :=
  match e with
  | Call _ _ _ => True
  | TimerFires m' => m' ≠ m
  end.

(** ** Link extraction: the shape of an extracted URL *)

(** Starts with the scheme, holds no character that ends a URL, and
    does not end with sentence punctuation. *)
Definition url_shaped (u : str) : Prop :=
  (startsWith u (lit "http://") = true ∨ startsWith u (lit "https://") = true) ∧
  forallb url_char u = true ∧
  ∀ c : char, last u = Some c → trailing_punct c = false.

(** ** Routing in the event handler *)

(** [s.toLowerCase().includes(k)] as done by a pattern with the [i]
    flag: [k] occurs in [s] up to the case of Basic Latin letters. *)
Fixpoint iincludes (s k : str) : bool :=
  match istrip_prefix k s with
  | Some _ => true
  | None =>
    match s with
    | [] => false
    | _ :: s' => iincludes s' k
    end
  end.

(** [isSearchIntent(text)]:
    [/(搜索|查找|查一下|查询|检索|资料|来源|链接|研究|调研|哪里有|怎么找|search|lookup|sources|reference)/i] *)
Definition search_keywords : list str :=
  [lit "搜索"; lit "查找"; lit "查一下"; lit "查询"; lit "检索"; lit "资料";
   lit "来源"; lit "链接"; lit "研究"; lit "调研"; lit "哪里有"; lit "怎么找";
   lit "search"; lit "lookup"; lit "sources"; lit "reference"].

Definition isSearchIntent (text : str) : bool :=
  if falsy text then false
  else existsb (iincludes text) search_keywords.

(** The settings that the routing part of the handler reads, besides
    the prefixes of [config]. *)
Record routing := {
  CLAWDBOT_AGENT_ID : str;
  CLAWDBOT_CODE_AGENT_ID : str;
  FEISHU_FORCE_EXA_ON_SEARCH : bool;
  FEISHU_EXA_DIRECTIVE : str;
  FEISHU_SESSION_VERSION : str;
  FEISHU_LINK_AUTO_P2P : bool
}.

Definition default_routing : routing := {|
  CLAWDBOT_AGENT_ID := lit "main";
  CLAWDBOT_CODE_AGENT_ID := lit "coding";
  FEISHU_FORCE_EXA_ON_SEARCH := true;
  FEISHU_EXA_DIRECTIVE := lit "【请使用 exa_search 工具进行联网搜索；给出来源】";
  FEISHU_SESSION_VERSION := [];
  FEISHU_LINK_AUTO_P2P := true
|}.

(** [baseSessionKey] and [sessionKey]; [code] tells whether the code
    route matched. *)
Definition session_key (rt : routing) (code : bool) (chatId : str) : str :=
  let baseSessionKey :=
    if code
    then lit "agent:" ++ CLAWDBOT_CODE_AGENT_ID rt ++ lit ":feishu:" ++ chatId
    else lit "feishu:" ++ chatId in
  if falsy (FEISHU_SESSION_VERSION rt) then baseSessionKey
  else baseSessionKey ++ lit ":v" ++ FEISHU_SESSION_VERSION rt.

(** [rest.split(u).join(' ')] for a non-empty [u]: every occurrence of
    [u], taken from left to right without overlap, becomes one space;
    [skip] counts the characters of an occurrence still to be passed. *)
Fixpoint replace_occurrences (u : str) (skip : nat) (s : str) : str :=
  match s with
  | [] => []
  | c :: r =>
    match skip with
    | S k => replace_occurrences u k r
    | O =>
      if startsWith s u
      then 32%N :: replace_occurrences u (List.length u - 1) r
      else c :: replace_occurrences u 0 r
    end
  end.

(** [rest.split(u).join(' ')]; the empty separator splits between all
    the characters. *)
Definition split_join_space (u rest : str) : str :=
  match u with
  | [] => join (lit " ") (List.map (λ c, [c]) rest)
  | _ :: _ => replace_occurrences u 0 rest
  end.

(** [[\s,，;；|]] *)
Definition url_separator (c : char) : bool :=
  is_space c || mem_char c (lit ",，;；|").

(** [looksLikeOnlyUrls(text)] *)
Definition looksLikeOnlyUrls (text : str) : bool :=
  let t := trim text in
  if falsy t then false
  else
    let urls := extractUrls t in
    match urls with
    | [] => false
    | _ :: _ =>
      let rest := fold_left (λ rest u, split_join_space u rest) urls t in
      let rest := trim (List.filter (λ c, negb (url_separator c)) rest) in
      (List.length rest =? 0)%nat
    end.

(** What the end of the handler does with a text that passed the group
    gate: it answers with the parsed links and returns, it asks for a
    task (the code prefix stands alone), or it schedules
    [processMessage] with a text, an agent id and a session key. *)
Inductive routed :=
  | ReplyWithLinks (md : str)
  | AskForTask
  | Process (text agentId sessionKey : str).

Section Handler.

(** [String.prototype.toLowerCase] of the runtime. *)
Variable lower : str → str.

(** [parseLinksToMarkdown], which runs the link parser on the URLs: the
    Markdown it returns. *)
Variable parseLinksToMarkdown : list str → str.

(** The link branch of the handler: the Markdown that it sends, or the
    empty string when the branch is not entered or the parser returns
    nothing; [group] is [message?.chat_type === 'group']. *)
Definition link_markdown (cfg : config) (rt : routing) (group : bool)
    (text : str) : str :=
  let linkRoute := detectLinkRoute lower cfg text in
  let shouldAutoLink :=
    negb group && FEISHU_LINK_AUTO_P2P rt && looksLikeOnlyUrls text in
  if (fst linkRoute || shouldAutoLink)
     && (0 <? List.length (snd linkRoute))%nat
  then parseLinksToMarkdown (snd linkRoute)
  else [].

(** The end of the handler, from [const linkRoute = detectLinkRoute(text)]
    to the call of [processMessage].  How the Markdown of the links is
    sent, the project path (looked up in the file system) and the voice
    flag are left out. *)
Definition route_message (cfg : config) (rt : routing) (group : bool)
    (chatId text : str) : routed :=
  let md := link_markdown cfg rt group text in
  if negb (falsy md) then ReplyWithLinks md
  else
    let route := detectCodeRoute lower cfg text in
    let text1 := snd route in
    if falsy text1 then AskForTask
    else
      let searchRoute :=
        if fst route then (false, text1)
        else detectSearchRoute lower cfg text1 in
      let text2 := if fst searchRoute then snd searchRoute else text1 in
      let shouldForceExa :=
        negb (fst route)
        && (fst searchRoute
            || (FEISHU_FORCE_EXA_ON_SEARCH rt && isSearchIntent text2)) in
      let text3 :=
        if shouldForceExa then FEISHU_EXA_DIRECTIVE rt ++ nl ++ text2
        else text2 in
      let agentId :=
        if fst route then CLAWDBOT_CODE_AGENT_ID rt
        else CLAWDBOT_AGENT_ID rt in
      Process text3 agentId (session_key rt (fst route) chatId).

End Handler.

(** ** Gateway protocol client: further frames *)

Module GatewayFrames.
Import Gateway.

Definition res_connect_fail (message : option str) : msg :=
  {| m_type := Some (lit "res"); m_event := None;
     m_id := Some (lit "connect"); m_ok := false;
     m_error_message := message; m_payload := None |}.

Definition res_agent_fail (message : option str) : msg :=
  {| m_type := Some (lit "res"); m_event := None;
     m_id := Some (lit "agent"); m_ok := false;
     m_error_message := message; m_payload := None |}.

(** An assistant event that carries a full-text snapshot. *)
Definition assistant_snapshot (rid : option str) (t : str) : payload :=
  {| p_runId := rid; p_stream := Some (lit "assistant");
     p_data := Some {| d_text := Some t; d_delta := None;
                       d_phase := None; d_message := None |} |}.

Definition snapshot_input (rid : str) (t : str) : input :=
  Message (Some (agent_event (assistant_snapshot (Some rid) t))).

Definition handshake (rid : str) : list input :=
  [Message (Some connect_challenge); Message (Some res_connect_ok);
   Message (Some (res_agent_ok rid))].

Definition agent_request (inv : invocation) : request :=
  ReqAgent (text inv)
           (if falsy (agentId inv) then Gateway.CLAWDBOT_AGENT_ID
            else agentId inv)
           (sessionKey inv).

End GatewayFrames.

(** ** Card elements: shape of the output *)

Definition is_table (e : element) : bool :=
  match e with
  | Table _ _ => true
  | Markdown _ => false
  end.

Definition count_tables (els : list element) : nat :=
  List.length (List.filter is_table els).

(** An element that Feishu can render: a markdown element has content,
    a table has columns and rows. *)
Definition element_ok (e : element) : Prop :=
  match e with
  | Markdown content => content ≠ []
  | Table headers rows => headers ≠ [] ∧ rows ≠ []
  end.

(** Every table row of the lines lies inside a code fence; [inside]
    tells whether the first line does.  A line that starts with the
    fence marker toggles the fence, as in [buildCardElements]. *)
Fixpoint rows_fenced (inside : bool) (lines : list str) : Prop :=
  match lines with
  | [] => True
  | l :: rest =>
    if startsWith (trim l) (lit "```") then rows_fenced (negb inside) rest
    else (inside = true ∨ isTableRow l = false) ∧ rows_fenced inside rest
  end.

(** ** Column names of a table ([sanitizeColumnName], [buildTableElement]) *)

(** [String(n)] for a non-negative integer: its decimal digits. *)
Definition dec (n : N) : str :=
  List.map N_of_ascii (list_ascii_of_string (pretty n)).

(** [[a-z0-9_]] *)
Definition name_char (c : char) : bool :=
  ((97 <=? c) && (c <=? 122) || (48 <=? c) && (c <=? 57) || (c =? 95))%N.

(** [s.replace(/[^a-z0-9_]+/g, '_')]: every maximal run of other
    characters becomes one underscore; [in_run] tells whether the
    previous character belonged to such a run. *)
Fixpoint squash (in_run : bool) (s : str) : str :=
  match s with
  | [] => []
  | c :: r =>
    if name_char c then c :: squash false r
    else if in_run then squash true r
    else 95%N :: squash true r
  end.

(** [/^[a-z]/.test(base)] *)
Definition starts_with_letter (base : str) : bool :=
  match base with
  | c :: _ => ((97 <=? c) && (c <=? 122))%N
  | [] => false
  end.

Section ColumnNames.

(** [String.prototype.toLowerCase] of the runtime; nothing below
    depends on what it does to a string. *)
Variable lower : str → str.

Definition column_base (name : str) (index : nat) : str :=
  let base := squash false (lower name) in
  if falsy base || negb (starts_with_letter base)
  then lit "col_" ++ dec (N.of_nat index + 1)
  else base.

(** The [while (used.has(candidate))] loop with its [counter].  The
    candidates are pairwise different, so the loop ends within
    [size used] iterations; [fuel] bounds them. *)
Fixpoint free_name (fuel : nat) (base : str) (used : gset str)
    (candidate : str) (counter : N) : str :=
  if bool_decide (candidate ∈ used) then
    match fuel with
    | O => candidate
    | S fuel' =>
      free_name fuel' base used (base ++ lit "_" ++ dec counter) (counter + 1)
    end
  else candidate.

(** [sanitizeColumnName(name, index, used)]: the name returned and the
    set [used] as the call leaves it. *)
Definition sanitizeColumnName (name : str) (index : nat) (used : gset str)
    : str * gset str :=
  let base := column_base name index in
  let candidate := free_name (size used) base used base 2 in
  (candidate, used ∪ {[candidate]}).

(** The [name] fields of [headers.map((h, idx) => ...)] in
    [buildTableElement], from the index [index] on. *)
Fixpoint column_names_from (index : nat) (used : gset str)
    (headers : list str) : list str :=
  match headers with
  | [] => []
  | h :: hs =>
    let '(name, used') := sanitizeColumnName h index used in
    name :: column_names_from (S index) used' hs
  end.

Definition column_names (headers : list str) : list str :=
  column_names_from 0 ∅ headers.

End ColumnNames.

(** [(cells[idx] ?? '')] *)
Definition cell_at (cells : list str) (idx : nat) : str :=
  default [] (cells !! idx).

(** A row object of [buildTableElement]:
    [columns.forEach((col, idx) => { row[col.name] = cells[idx] ?? '' })],
    from the column index [idx] on. *)
Fixpoint fill_row (idx : nat) (names : list str) (cells : list str)
    (row : gmap str str) : gmap str str :=
  match names with
  | [] => row
  | name :: rest => fill_row (S idx) rest cells (<[name := cell_at cells idx]> row)
  end.

Definition row_object (names : list str) (cells : list str) : gmap str str :=
  fill_row 0 names cells ∅.

(** ** Chunking: lines that are kept as they are *)

(** A line that is not empty, does not end in white space and does not
    open or close a fence. *)
Definition clean_line (l : str) : Prop :=
  l ≠ [] ∧ trimEnd l = l ∧ startsWith (trim l) fence = false.

(** A reply without fences, blank lines or white space at a line end. *)
Definition plain_notes : str :=
  text_of_lines ["alpha beta"; "gamma"; "delta eps"; "zeta"]%string.

(** ** Reply format ([needsMarkdownCard], [buildPostMessage], [buildMessage]) *)

(** [/`[^`]+`/] somewhere in the text: a backtick, one or more other
    characters, a backtick. *)
Fixpoint inline_code (s : str) : bool :=
  match s with
  | [] => false
  | c :: r =>
    ((c =? 96)%N &&
     match r with
     | d :: r' => negb (d =? 96)%N && mem_char 96 r'
     | [] => false
     end)
    || inline_code r
  end.

(** [/\]\(.*\)/] somewhere in a run of characters without a line
    terminator. *)
Fixpoint link_target (seg : str) : bool :=
  match seg with
  | [] => false
  | c :: t =>
    ((c =? 93)%N &&
     match t with
     | d :: r => (d =? 40)%N && mem_char 41 r
     | [] => false
     end)
    || link_target t
  end.

(** [/\[.*\]\(.*\)/] somewhere in the text; [.] matches no line
    terminator. *)
Fixpoint md_link (s : str) : bool :=
  match s with
  | [] => false
  | c :: r =>
    ((c =? 91)%N
     && link_target (take_while (λ x, negb (is_line_terminator x)) r))
    || md_link r
  end.

(** [#+\s] at the start of [s]. *)
Definition heading_mark (s : str) : bool :=
  let hashes := take_while (N.eqb 35) s in
  (1 <=? List.length hashes)%nat &&
  match drop (List.length hashes) s with
  | c :: _ => is_space c
  | [] => false
  end.

(** [[-*]\s] at the start of [s]. *)
Definition list_mark (s : str) : bool :=
  match s with
  | c :: d :: _ => mem_char c (lit "-*") && is_space d
  | _ => false
  end.

(** A pattern anchored by [^] under the [m] flag is tried at the start
    of the text and after every line terminator; [start] tells whether
    [s] begins at such a place. *)
Fixpoint at_line_start (test : str → bool) (start : bool) (s : str) : bool :=
  (start && test s) ||
  match s with
  | [] => false
  | c :: r => at_line_start test (is_line_terminator c) r
  end.

(** [needsMarkdownCard(text)]:
    [/```|`[^`]+`|\*\*|__|\[.*\]\(.*\)|^#+\s|^[-*]\s/m.test(text)] *)
Definition needsMarkdownCard (text : str) : bool :=
  includes text (lit "```") || inline_code text
  || includes text (lit "**") || includes text (lit "__")
  || md_link text
  || at_line_start heading_mark true text
  || at_line_start list_mark true text.

(** [s.replace(/^...$/gm, ...)] for a pattern that matches whole lines:
    [f] is applied to every run of characters between line terminators;
    [acc] holds the run read so far. *)
Fixpoint on_lines (f : str → str) (acc : str) (s : str) : str :=
  match s with
  | [] => f acc
  | c :: r =>
    if is_line_terminator c then f acc ++ c :: on_lines f [] r
    else on_lines f (acc ++ [c]) r
  end.

(** The replacement of [/^#### (.+)$/] and the like on one line. *)
Definition bracket_heading (marker : str) (line : str) : str :=
  match strip_prefix marker line with
  | Some (c :: r) => lit "【" ++ c :: r ++ lit "】"
  | _ => line
  end.

(** The replacement of [/^---$/] on one line. *)
Definition rule_line (line : str) : str :=
  if eqb line (lit "---") then lit "——————————" else line.

(** [normalizeMarkdownForPost(text)] *)
Definition normalizeMarkdownForPost (text : str) : str :=
  if falsy text then []
  else
    let p1 := on_lines (bracket_heading (lit "#### ")) [] text in
    let p2 := on_lines (bracket_heading (lit "### ")) [] p1 in
    let p3 := on_lines (bracket_heading (lit "## ")) [] p2 in
    let p4 := on_lines (bracket_heading (lit "# ")) [] p3 in
    let p5 := on_lines rule_line [] p4 in
    convertTablesToList p5.

(** The rows of the post built by [buildPostMessage(text)]; every row
    holds one text node, of which the model keeps the text. *)
Definition buildPostMessage (text : str) : list str :=
  let processed := normalizeMarkdownForPost text in
  let content :=
    List.map (λ line, if falsy line then lit " " else line)
             (split 10 processed) in
  match content with
  | [] => [lit " "]
  | _ => content
  end.

(** The switches read by [buildMessage] and by the card builder. *)
Record reply_config := {
  FORCE_TEXT_REPLY : bool;
  FORCE_CARD_REPLY : bool;
  FORCE_POST_REPLY : bool;
  FEISHU_TABLE_ENABLED : bool
}.

(** The message handed to the Feishu client, before its content is
    serialised. *)
Inductive message :=
  | TextMessage (text : str)
  | InteractiveMessage (c : card)
  | PostMessage (rows : list str).

(** [buildMessage(text)] *)
Definition buildMessage (rc : reply_config) (text : str) : message :=
  if FORCE_TEXT_REPLY rc then TextMessage text
  else if FORCE_CARD_REPLY rc
  then InteractiveMessage (buildMarkdownCard (FEISHU_TABLE_ENABLED rc) text)
  else if FORCE_POST_REPLY rc then PostMessage (buildPostMessage text)
  else if needsMarkdownCard text
  then InteractiveMessage (buildMarkdownCard (FEISHU_TABLE_ENABLED rc) text)
  else TextMessage text.

(** The characters that one of the patterns of [needsMarkdownCard]
    starts with. *)
Definition markdown_triggers : str := lit "`*_[#-".

(** * Properties *)

(** ** Link extraction *)

Example lit_cjk : lit "。！" = [12290%N; 65281%N].
Proof. reflexivity. Qed.

(** The dedupe loop never pushes a URL twice, nor one that is already
    in [seen]. *)
Lemma dedupe_urls_fresh (urls : list str) : ∀ (seen : list str),
  NoDup (dedupe_urls seen urls) ∧
  ∀ u, u ∈ dedupe_urls seen urls → u ∉ seen.
Proof.
  induction urls as [|u rest IH]; intros seen; cbn [dedupe_urls].
  - split; [constructor | intros u Hu; by apply elem_of_nil in Hu].
  - destruct (falsy u || existsb (JS.eqb u) seen) eqn:Hskip; [apply IH |].
    apply orb_false_iff in Hskip as [_ Hnew].
    destruct (IH (u :: seen)) as [Hnd Hfresh]. split.
    + constructor; [| done]. intros Hin. apply (Hfresh u Hin). by left.
    + intros v Hv Hseen. apply elem_of_cons in Hv as [-> | Hv].
      * apply list_elem_of_In in Hseen.
        assert (existsb (JS.eqb u) seen = true) as Hex; [| congruence].
        apply existsb_exists. exists u. split; [done |].
        unfold JS.eqb. by apply bool_decide_eq_true_2.
      * apply (Hfresh v Hv). by right.
Qed.

Lemma extractUrls_NoDup (text : str) : NoDup (extractUrls text).
Proof. apply dedupe_urls_fresh. Qed.

(** C6. For the text ["see https://a.com/1 and https://a.com/1 again,
    also https://b.com/x."] the extraction yields exactly the two URLs
    [https://a.com/1] and [https://b.com/x]: the period after the last
    URL is stripped, the repeated URL is kept once, and the order is that
    of first occurrence. *)
Theorem extractUrls_example :
  extractUrls
    (lit "see https://a.com/1 and https://a.com/1 again, also https://b.com/x.")
  = [lit "https://a.com/1"; lit "https://b.com/x"].
Proof. vm_compute. reflexivity. Qed.

(** ** Dedup ledger *)

Section LedgerFacts.

Implicit Types (st : ledger) (m c : str) (now : Z).

Lemma purge_seen_lookup st now m (t0 : Z) :
  seen st !! m = Some t0 → now - t0 ≤ SEEN_TTL_MS →
  seen (purge now st) !! m = Some t0.
Proof.
  intros Hm Ht. unfold purge; simpl.
  apply map_lookup_filter_Some. split; [done | simpl; lia].
Qed.

Lemma purge_recent_lookup st now (h : str) v :
  recentMessages st !! h = Some v → now - v.1 ≤ CONTENT_DEDUP_WINDOW_MS →
  recentMessages (purge now st) !! h = Some v.
Proof.
  intros Hm Ht. unfold purge; simpl.
  apply map_lookup_filter_Some. split; [done | simpl; lia].
Qed.

(** A call whose id is on record (and not expired) is a duplicate and
    changes nothing but the purge. *)
Lemma isDuplicate_seen st now m c (t0 : Z) :
  m ≠ [] → seen st !! m = Some t0 → now - t0 ≤ SEEN_TTL_MS →
  isDuplicate (Some m) c now st = (true, purge now st).
Proof.
  intros Hne Hm Ht. unfold isDuplicate.
  destruct m as [|a m']; [done | simpl falsy; cbv iota zeta].
  rewrite (purge_seen_lookup _ _ _ _ Hm Ht).
  rewrite bool_decide_eq_true_2 by eauto. done.
Qed.

(** An admitted call records its id with the time of the call. *)
Lemma isDuplicate_admitted_seen st now m c :
  m ≠ [] → (isDuplicate (Some m) c now st).1 = false →
  seen (isDuplicate (Some m) c now st).2 !! m = Some now.
Proof.
  intros Hne. unfold isDuplicate.
  destruct m as [|a m']; [done | simpl falsy; cbv iota zeta].
  destruct (_ || _); [done |].
  destruct (_ && _); [done |].
  intros _. simpl. apply lookup_insert_eq.
Qed.

(** An admitted call with content records the fingerprint of the content. *)
Lemma isDuplicate_admitted_recent st now m c :
  m ≠ [] → c ≠ [] → (isDuplicate (Some m) c now st).1 = false →
  recentMessages (isDuplicate (Some m) c now st).2 !! slice_to c 100
  = Some (now, m).
Proof.
  intros Hne Hc. unfold isDuplicate.
  destruct m as [|a m']; [done | simpl falsy; cbv iota zeta].
  destruct (_ || _); [done |].
  destruct (_ && _); [done |].
  intros _. destruct c; [done |]. simpl. apply lookup_insert_eq.
Qed.

Lemma isDuplicate_empty_ledger m c now :
  m ≠ [] → (isDuplicate (Some m) c now empty_ledger).1 = false.
Proof.
  intros Hne. unfold isDuplicate.
  destruct m as [|a m']; [done | simpl falsy; cbv iota zeta].
  unfold purge, empty_ledger; simpl.
  rewrite !map_filter_empty, !lookup_empty.
  rewrite !bool_decide_eq_false_2.
  - by rewrite andb_false_r.
  - intros [? ?]; done.
  - set_solver.
  - intros [? ?]; done.
Qed.

End LedgerFacts.

Section LedgerExpiry.

Implicit Types (st : ledger) (m c : str) (now : Z).

Lemma purge_seen_expired st now m (t0 : Z) :
  seen st !! m = Some t0 → SEEN_TTL_MS < now - t0 →
  seen (purge now st) !! m = None.
Proof.
  intros Hm Ht. unfold purge; cbn [seen].
  apply map_lookup_filter_None. right. intros x Hx.
  rewrite Hm in Hx. injection Hx as <-. simpl. lia.
Qed.

Lemma isDuplicate_true_purges (mid : option str) c now st :
  (isDuplicate mid c now st).1 = true →
  (isDuplicate mid c now st).2 = purge now st.
Proof.
  unfold isDuplicate. cbv zeta.
  destruct mid as [m |]; [| done].
  destruct (falsy m); [done |].
  destruct (_ || _); [done |].
  destruct (_ && _); done.
Qed.

Lemma in_flight_survives m evs : ∀ st,
  m ∈ processing st → Forall (keeps_in_flight m) evs →
  m ∈ processing (run evs st).
Proof.
  induction evs as [|e evs IH]; intros st Hin Hall; [done |].
  inversion Hall as [|? ? He Hall']; subst.
  unfold run; cbn [fold_left]. apply IH; [| done].
  destruct e as [mid c now | m']; cbn [step snd].
  - unfold isDuplicate. cbv zeta.
    destruct mid as [mid |]; [| done].
    destruct (falsy mid); [done |].
    destruct (_ || _); [done |].
    destruct (_ && _); [done |].
    cbn [snd processing]. set_solver.
  - cbn [timer_fires processing]. simpl in He. set_solver.
Qed.

Lemma isDuplicate_admitted_in_flight st now m c :
  m ≠ [] → (isDuplicate (Some m) c now st).1 = false →
  m ∈ processing (isDuplicate (Some m) c now st).2.
Proof.
  intros Hne. unfold isDuplicate.
  destruct m as [|a m']; [done | simpl falsy; cbv iota zeta].
  destruct (_ || _); [done |].
  destruct (_ && _); [done |].
  intros _. cbn [snd processing]. set_solver.
Qed.

(** The ledger after the first call on a ledger that has seen nothing. *)
Lemma first_call_state m c (t : Z) :
  m ≠ [] →
  isDuplicate (Some m) c t empty_ledger
  = (false,
     {| seen := {[m := t]}; processing := {[m]};
        recentMessages :=
          if falsy c then ∅ else {[slice_to c 100 := (t, m)]};
        timers := [(t + PROCESSING_TIMEOUT_MS, m)] |}).
Proof.
  intros Hne. unfold isDuplicate.
  destruct m as [|a m']; [done | simpl falsy; cbv iota zeta].
  unfold purge, empty_ledger; cbn [seen processing recentMessages timers].
  rewrite !map_filter_empty, !lookup_empty.
  repeat rewrite (bool_decide_eq_false_2 (is_Some None))
    by (intros [? Hx]; discriminate Hx).
  rewrite (bool_decide_eq_false_2 (_ ∈ ∅)) by set_solver.
  rewrite andb_false_r. cbn [orb app].
  by rewrite !insert_empty, union_empty_r_L.
Qed.

Lemma first_call_fingerprints m c (t : Z) (h : str) (v : Z * str) :
  (if falsy c then (∅ : gmap str (Z * str))
   else {[slice_to c 100 := (t, m)]}) !! h = Some v →
  v.1 = t.
Proof.
  destruct (falsy c); [by rewrite lookup_empty |].
  intros Hl. apply lookup_singleton_Some in Hl as [_ <-]. done.
Qed.

(** A call with an id that the ledger does not know, whose content has
    no live fingerprint, is admitted. *)
Lemma isDuplicate_unknown st now m c :
  m ≠ [] → seen (purge now st) !! m = None → m ∉ processing st →
  recentMessages (purge now st) !! slice_to c 100 = None →
  (isDuplicate (Some m) c now st).1 = false.
Proof.
  intros Hne Hs Hp Hr. unfold isDuplicate.
  destruct m as [|a m']; [done | simpl falsy; cbv iota zeta].
  rewrite Hs, Hr. cbn [purge processing].
  repeat rewrite (bool_decide_eq_false_2 (is_Some None))
    by (intros [? Hx]; discriminate Hx).
  rewrite (bool_decide_eq_false_2 (_ ∈ _)) by done.
  by rewrite andb_false_r.
Qed.

End LedgerExpiry.







Lemma fingerprint_survives (h : str) (t1 : Z) (m1 : str) evs : ∀ st,
  recentMessages st !! h = Some (t1, m1) →
  Forall (inside_window t1) evs →
  recentMessages (run evs st) !! h = Some (t1, m1).
Proof.
  induction evs as [|e evs IH]; intros st Hh Hall; [done |].
  inversion Hall as [|? ? He Hall']; subst.
  unfold run; cbn [fold_left]. apply IH; [| done].
  destruct e as [mid c now | mid]; cbn [step snd]; [| done].
  simpl in He.
  pose proof (purge_recent_lookup st now h (t1, m1) Hh He) as Hp.
  unfold isDuplicate. cbv zeta.
  destruct mid as [mid |]; [| done].
  destruct (falsy mid); [done |].
  destruct (_ || _); [done |].
  destruct (falsy c) eqn:Hc; cbn [negb andb]; [done |].
  case_bool_decide as Hk; [done |]. cbn [snd recentMessages].
  rewrite lookup_insert_ne; [done |].
  intros <-. apply Hk. by rewrite Hp.
Qed.

(** C4 does not hold when the first call of the pair was itself
    dropped.  A dropped call leaves no fingerprint and does not renew
    the one it was dropped for: [om_2] and [om_3] carry the same content
    and are 1001 ms apart, yet [om_3] is admitted, because the
    fingerprint dates from [om_1], more than five seconds earlier. *)
Lemma dropped_call_leaves_no_fingerprint :
  outcomes [Call (Some (lit "om_1")) (lit "hi") 0;
            Call (Some (lit "om_2")) (lit "hi") 4000;
            Call (Some (lit "om_3")) (lit "hi") 5001] empty_ledger
  = [false; true; false].
Proof. vm_compute. reflexivity. Qed.

(** C4, as the code has it.  Take two calls with different non-empty
    ids, the first with non-empty content.  When the two contents have
    the same first hundred characters: on a ledger that has seen
    nothing the first call is admitted and the second one, made within
    five seconds ([t2 - t1 <= 5000], with any calls and timers in
    between that also fall inside the window), returns [true]; on any
    ledger the second returns [true] once the first call has been
    admitted.  When the first hundred characters differ, the second
    call on the fresh ledger is admitted as well, at any time: the
    fingerprint is the first hundred characters, no more and no less. *)
Theorem content_fingerprint_suppression (m1 m2 c1 c2 : str) :
  m1 ≠ [] → m2 ≠ [] → m1 ≠ m2 → c1 ≠ [] →
  (take 100 c1 = take 100 c2 →
   (∀ t1 t2 evs,
       Forall (inside_window t1) evs →
       t2 - t1 ≤ 5000 →
       (isDuplicate (Some m1) c1 t1 empty_ledger).1 = false ∧
       (isDuplicate (Some m2) c2 t2
          (run evs (isDuplicate (Some m1) c1 t1 empty_ledger).2)).1 = true) ∧
   (∀ st t1 t2 evs,
       (isDuplicate (Some m1) c1 t1 st).1 = false →
       Forall (inside_window t1) evs →
       t2 - t1 ≤ 5000 →
       (isDuplicate (Some m2) c2 t2
          (run evs (isDuplicate (Some m1) c1 t1 st).2)).1 = true)) ∧
  (take 100 c1 ≠ take 100 c2 →
   ∀ t1 t2,
     outcomes [Call (Some m1) c1 t1; Call (Some m2) c2 t2] empty_ledger
     = [false; false]).
Proof.
  intros Hm1 Hm2 Hne Hc1. split.
  - intros Htake.
    assert (slice_to c1 100 = slice_to c2 100) as Hslice by exact Htake.
    assert (∀ st t1 t2 evs,
        (isDuplicate (Some m1) c1 t1 st).1 = false →
        Forall (inside_window t1) evs →
        t2 - t1 ≤ 5000 →
        (isDuplicate (Some m2) c2 t2
           (run evs (isDuplicate (Some m1) c1 t1 st).2)).1 = true) as Hgen.
    { intros st t1 t2 evs Hadm Hall Ht.
      pose proof (isDuplicate_admitted_recent st t1 m1 c1 Hm1 Hc1 Hadm) as Hrec.
      pose proof (fingerprint_survives _ _ _ evs _ Hrec Hall) as Hrun.
      pose proof (purge_recent_lookup _ t2 _ _ Hrun Ht) as Hp.
      set (st2 := run evs _) in *.
      unfold isDuplicate. cbv zeta.
      destruct m2 as [|a m2']; [done | simpl falsy; cbv iota].
      destruct (_ || _); [done |].
      assert (c2 ≠ []) as Hc2.
      { intros ->. destruct c1; [done | discriminate Htake]. }
      destruct c2 as [|b c2']; [done |]. cbn [falsy negb andb].
      rewrite <- Hslice, Hp. by rewrite bool_decide_eq_true_2 by eauto. }
    split; [| exact Hgen].
    intros t1 t2 evs Hall Ht.
    pose proof (isDuplicate_empty_ledger m1 c1 t1 Hm1) as Hadm.
    split; [done |]. by apply Hgen.
  - intros Htake t1 t2.
    assert (slice_to c1 100 ≠ slice_to c2 100) as Hslice by exact Htake.
    cbn [outcomes step fst snd].
    rewrite (first_call_state m1 c1 t1 Hm1). cbn [fst snd]. f_equal.
    rewrite isDuplicate_unknown; [done | done | | | ].
    + unfold purge; cbn [seen]. apply map_lookup_filter_None. left.
      by apply lookup_singleton_ne.
    + cbn [processing]. set_solver.
    + unfold purge; cbn [recentMessages].
      apply map_lookup_filter_None. left.
      destruct c1; [done |]. cbn [falsy].
      by apply lookup_singleton_ne.
Qed.

Lemma content_fingerprint_suppression_witness :
  (isDuplicate (Some (lit "om_2")) (lit "hello") 4000
     (run [TimerFires (lit "om_1")]
        (isDuplicate (Some (lit "om_1")) (lit "hello") 1000
           empty_ledger).2)).1 = true.
Proof.
  destruct (content_fingerprint_suppression
              (lit "om_1") (lit "om_2") (lit "hello") (lit "hello"))
    as [H1 _]; [done | done | vm_compute; congruence | done |].
  destruct (H1 eq_refl) as [H2 _].
  destruct (H2 1000 4000 [TimerFires (lit "om_1")]) as [_ H].
  - repeat constructor.
  - lia.
  - exact H.
Defined.

(** C10. A call with an empty or absent message id returns [false]
    whatever the content and the ledger, and leaves the ledger as the
    purge alone leaves it: nothing is added to the seen map, the
    in-flight set, the fingerprints or the timers (entries can only
    disappear).  The same holds for the older bridge. *)
Theorem empty_id_never_duplicate (c : str) (now : Z) (st : ledger)
    (sn : gmap str Z) :
  isDuplicate None c now st = (false, purge now st) ∧
  isDuplicate (Some []) c now st = (false, purge now st) ∧
  seen (purge now st) ⊆ seen st ∧
  processing (purge now st) = processing st ∧
  recentMessages (purge now st) ⊆ recentMessages st ∧
  timers (purge now st) = timers st ∧
  Legacy.isDuplicate None now sn = (false, Legacy.purge now sn) ∧
  Legacy.isDuplicate (Some []) now sn = (false, Legacy.purge now sn) ∧
  Legacy.purge now sn ⊆ sn.
Proof.
  repeat split; try reflexivity; apply map_filter_subseteq.
Qed.

(** ** Group gate *)

Lemma match_prefix_none (lower : str → str) (prefixes : list str)
    (trimmed : str) :
  Forall (λ p, prefix_hits lower trimmed p = false) prefixes →
  match_prefix lower prefixes trimmed = None.
Proof.
  induction 1 as [|p ps Hp _ IH]; [done |].
  unfold prefix_hits in Hp. cbn [match_prefix].
  destruct (falsy p); [done |]. cbn [negb andb] in Hp. by rewrite Hp.
Qed.

Lemma match_prefix_some (lower : str → str) (prefixes : list str)
    (trimmed : str) :
  Exists (λ p, prefix_hits lower trimmed p = true) prefixes →
  is_Some (match_prefix lower prefixes trimmed).
Proof.
  induction 1 as [p ps Hp | p ps _ IH]; cbn [match_prefix].
  - unfold prefix_hits in Hp. destruct (falsy p); [done |].
    cbn [negb andb] in Hp. rewrite Hp. eauto.
  - destruct (falsy p); [done |]. destruct (startsWith _ _); eauto.
Qed.

(** The older gate answers the message because of its question mark. *)
Lemma legacy_gate_admits_question :
  LegacyGate.shouldRespondInGroup weather_question [] = true ∧
  LegacyGate.group_gate weather_question [] = true.
Proof. split; vm_compute; reflexivity. Qed.

(** C5. In the current bridge a group message ["today's weather?"] with
    an empty mentions list is refused under every configuration whose
    code, search and link prefixes do not match the text: the question
    mark does not admit it, no mention is present and the text does not
    start with a wake word.  This holds whatever the lowercasing of the
    runtime does. *)
Theorem group_gate_refuses_question (lower : str → str) (cfg : config) :
  Forall (λ p, prefix_hits lower weather_question p = false)
         (FEISHU_CODE_PREFIXES cfg ++ FEISHU_SEARCH_PREFIXES cfg
          ++ FEISHU_LINK_PREFIXES cfg) →
  shouldRespondInGroup lower cfg weather_question [] = false ∧
  group_gate lower cfg weather_question [] = false.
Proof.
  intros Hall.
  apply Forall_app in Hall as [Hcode Hall].
  apply Forall_app in Hall as [Hsearch Hlink].
  assert (trim weather_question = weather_question) as Htrim
    by (vm_compute; reflexivity).
  assert (trim (strip_user_tokens 0 weather_question) = weather_question)
    as Hstrip by (vm_compute; reflexivity).
  assert (falsy weather_question = false) as Hfalsy
    by (vm_compute; reflexivity).
  assert (matches_wake_word weather_question = false) as Hwake
    by (vm_compute; reflexivity).
  assert (shouldRespondInGroup lower cfg weather_question [] = false)
    as Hgate.
  { unfold shouldRespondInGroup, detectCodeRoute, detectSearchRoute,
      detectLinkRoute, detectRoute. cbv zeta.
    rewrite !Htrim, Hfalsy, Hwake.
    rewrite !match_prefix_none by done.
    cbn [isMentioningBot existsb fst]. by destruct (FEISHU_GROUP_MENTION_ONLY cfg). }
  split; [done |].
  unfold group_gate. cbv zeta. by rewrite Hstrip, Hfalsy.
Qed.

Lemma group_gate_refuses_question_witness :
  shouldRespondInGroup toLowerCase_latin1 default_config weather_question []
  = false ∧
  group_gate toLowerCase_latin1 default_config weather_question [] = false.
Proof.
  apply (group_gate_refuses_question toLowerCase_latin1 default_config).
  vm_compute. repeat constructor.
Defined.

(** ** Gateway protocol client *)

Module GatewayFacts.
Import Gateway.

(** Evaluates the comparisons of closed strings in the goal. *)
Ltac eval_is_str :=
  repeat match goal with
  | |- context [is_str (Some ?a) ?b] =>
    let v := eval vm_compute in (is_str (Some a) b) in
    change (is_str (Some a) b) with v
  end.

Lemma close_and_settle_inv r st :
  settled_iff_closed (close_and_settle r st).
Proof.
  unfold settled_iff_closed, close_and_settle; simpl.
  split; [destruct (outcome st) |]; done.
Qed.

Lemma handle_inv inv st i :
  settled_iff_closed st → settled_iff_closed (handle inv st i).
Proof.
  intros Hst. destruct i as [[m |] | e]; simpl; try done.
  - unfold on_message.
    repeat (case_match; try done; try apply close_and_settle_inv).
    unfold on_lifecycle.
    repeat (case_match; try done; try apply close_and_settle_inv).
  - apply close_and_settle_inv.
Qed.

Lemma fold_handle_inv inv ins : ∀ st,
  settled_iff_closed st → settled_iff_closed (fold_left (handle inv) ins st).
Proof.
  induction ins as [|i ins IH]; intros st Hst; [done |].
  simpl. apply IH. by apply handle_inv.
Qed.

Lemma run_inv inv ins : settled_iff_closed (run inv ins).
Proof. apply fold_handle_inv. done. Qed.

Lemma run_snoc inv ins i :
  run inv (ins ++ [i]) = handle inv (run inv ins) i.
Proof. unfold run. by rewrite fold_left_app. Qed.

(** A lifecycle event that reaches the lifecycle branch of the handler. *)
Lemma on_message_lifecycle inv st m p :
  m_type m = Some (lit "event") → m_event m = Some (lit "agent") →
  m_payload m = Some p → other_run st p = false →
  p_stream p = Some (lit "lifecycle") →
  on_message inv (Some m) st = on_lifecycle p st.
Proof.
  intros Ht He Hp Hrun Hs. unfold on_message.
  rewrite Ht, He, Hp, Hrun, Hs. eval_is_str. done.
Qed.

End GatewayFacts.

(** C7. While the promise of an invocation is pending, a lifecycle event
    of the invocation's run (an [event]/[agent] frame that passes the run
    id filter) with phase [end] resolves the promise with the accumulated
    buffer trimmed, and one with phase [error] rejects it with the
    message the event provides; in both cases the socket is closed (this
    is the first and only [close()] of the invocation). *)
Theorem lifecycle_settles_and_closes
    (inv : Gateway.invocation) (ins : list Gateway.input)
    (m : Gateway.msg) (p : Gateway.payload) :
  let st := Gateway.run inv ins in
  let st' := Gateway.run inv (ins ++ [Gateway.Message (Some m)]) in
  Gateway.outcome st = None →
  Gateway.m_type m = Some (lit "event") →
  Gateway.m_event m = Some (lit "agent") →
  Gateway.m_payload m = Some p →
  Gateway.other_run st p = false →
  Gateway.p_stream p = Some (lit "lifecycle") →
  (Gateway.phase_of p = Some (lit "end") →
     Gateway.outcome st' = Some (Gateway.Resolved (trim (Gateway.buf st)))
     ∧ Gateway.closes st' = 1%nat) ∧
  (∀ e, Gateway.phase_of p = Some (lit "error") →
     Gateway.message_of p = Some e → e ≠ [] →
     Gateway.outcome st' = Some (Gateway.Rejected e)
     ∧ Gateway.closes st' = 1%nat).
Proof.
  intros st st' Hpending Ht He Hp Hrun Hs.
  assert (Gateway.closes st = 0%nat) as Hopen
    by (by apply (GatewayFacts.run_inv inv ins)).
  subst st'. rewrite GatewayFacts.run_snoc. fold st. cbn [Gateway.handle].
  rewrite (GatewayFacts.on_message_lifecycle inv st m p Ht He Hp Hrun Hs).
  unfold Gateway.on_lifecycle. split.
  - intros Hend. rewrite Hend. GatewayFacts.eval_is_str. cbv iota.
    unfold Gateway.close_and_settle; simpl. by rewrite Hpending, Hopen.
  - intros e Herr Hmsg Hne. rewrite Herr, Hmsg. GatewayFacts.eval_is_str.
    cbv iota. unfold Gateway.close_and_settle, Gateway.or_default; simpl.
    rewrite Hpending, Hopen. by destruct e.
Qed.

Lemma lifecycle_settles_and_closes_witness :
  let inv := {| Gateway.text := lit "hi"; Gateway.sessionKey := lit "s";
                Gateway.agentId := []; Gateway.has_onDelta := true |} in
  let handshake :=
    [Gateway.Message (Some Gateway.connect_challenge);
     Gateway.Message (Some Gateway.res_connect_ok);
     Gateway.Message (Some (Gateway.res_agent_ok (lit "r1")));
     Gateway.Message (Some (Gateway.agent_event
       (Gateway.assistant_delta (Some (lit "r1")) (lit " Hel"))));
     Gateway.Message (Some (Gateway.agent_event
       (Gateway.assistant_delta (Some (lit "r1")) (lit "lo  "))))] in
  (Gateway.outcome (Gateway.run inv (handshake ++
      [Gateway.Message (Some (Gateway.agent_event
         (Gateway.lifecycle_end (Some (lit "r1")))))]))
   = Some (Gateway.Resolved (lit "Hello"))) ∧
  (Gateway.outcome (Gateway.run inv (handshake ++
      [Gateway.Message (Some (Gateway.agent_event
         (Gateway.lifecycle_error (Some (lit "r1")) (Some (lit "boom")))))]))
   = Some (Gateway.Rejected (lit "boom"))).
Proof.
  intros inv handshake. split.
  - pose proof (lifecycle_settles_and_closes inv handshake
      (Gateway.agent_event (Gateway.lifecycle_end (Some (lit "r1"))))
      (Gateway.lifecycle_end (Some (lit "r1")))) as H.
    cbv zeta in H.
    destruct H as [Hend _]; [reflexivity .. |].
    destruct Hend as [Hout _]; [reflexivity |].
    exact Hout.
  - pose proof (lifecycle_settles_and_closes inv handshake
      (Gateway.agent_event
         (Gateway.lifecycle_error (Some (lit "r1")) (Some (lit "boom"))))
      (Gateway.lifecycle_error (Some (lit "r1")) (Some (lit "boom")))) as H.
    cbv zeta in H.
    destruct H as [_ Herr]; [reflexivity .. |].
    destruct (Herr (lit "boom")) as [Hout _];
      [reflexivity | reflexivity | vm_compute; congruence |].
    exact Hout.
Defined.

Module GatewayRun.
Import Gateway GatewayFacts.

(** The assistant deltas of the run are appended to the buffer, and each
    of them calls [onDelta] once. *)
Lemma deltas_accumulate inv rid ds : ∀ st,
  rid ≠ [] → runId st = Some rid →
  let st' := fold_left (handle inv) (List.map (delta_input rid) ds) st in
  runId st' = Some rid ∧ buf st' = buf st ++ concat ds ∧
  outcome st' = outcome st ∧ closes st' = closes st ∧ sent st' = sent st ∧
  length (deltas st')
  = (length (deltas st) + if has_onDelta inv then length ds else 0)%nat.
Proof.
  induction ds as [|d ds IH]; intros st Hne Hrid; cbn zeta.
  - cbn [List.map fold_left concat]. rewrite app_nil_r.
    repeat split; try done. destruct (has_onDelta inv); cbn; lia.
  - cbn [List.map fold_left].
    assert (handle inv st (delta_input rid d)
            = on_assistant inv (assistant_delta (Some rid) d) st) as ->.
    { unfold delta_input, handle, on_message, agent_event.
      cbn [m_type m_event m_id m_payload]. eval_is_str. cbn [andb].
      unfold other_run. rewrite Hrid. cbn [assistant_delta p_runId p_stream].
      unfold JS.eqb. rewrite bool_decide_eq_true_2 by done.
      destruct rid; [done |]. cbn [falsy negb andb]. eval_is_str. done. }
    destruct (IH (on_assistant inv (assistant_delta (Some rid) d) st) Hne Hrid)
      as (H1 & H2 & H3 & H4 & H5 & H6).
    repeat split; try done.
    + rewrite H2. cbn. by rewrite <- app_assoc.
    + rewrite H6. cbn. destruct (has_onDelta inv); [| done].
      rewrite length_app. cbn. lia.
Qed.

(** X19. The happy path of the protocol: challenge, accepted connect,
    acknowledged agent request with a run id, any number of assistant
    deltas, then the lifecycle end.  The promise resolves with the
    deltas concatenated and trimmed, the socket is closed once, every
    delta has been handed to [onDelta], and the two requests sent are
    the connect and the agent request. *)
Lemma happy_path inv rid ds :
  rid ≠ [] →
  let st := run inv ([Message (Some connect_challenge);
                      Message (Some res_connect_ok);
                      Message (Some (res_agent_ok rid))]
                     ++ List.map (delta_input rid) ds
                     ++ [Message (Some (agent_event
                                          (lifecycle_end (Some rid))))]) in
  outcome st = Some (Resolved (trim (concat ds))) ∧ closes st = 1%nat ∧
  (has_onDelta inv = true → length (deltas st) = length ds) ∧
  sent st = [ReqConnect;
             ReqAgent (text inv)
                      (if falsy (agentId inv) then CLAWDBOT_AGENT_ID
                       else agentId inv)
                      (sessionKey inv)].
Proof.
  intros Hne st. subst st. unfold run.
  rewrite fold_left_app, fold_left_app.
  set (st3 := fold_left (handle inv) [_; _; _] init).
  assert (st3 = {| runId := Some rid; buf := []; outcome := None;
                   closes := 0;
                   sent := [ReqConnect;
                            ReqAgent (text inv)
                              (if falsy (agentId inv) then CLAWDBOT_AGENT_ID
                               else agentId inv) (sessionKey inv)];
                   deltas := [] |}) as Hst3.
  { subst st3. cbn [fold_left handle on_message connect_challenge
      res_connect_ok res_agent_ok m_type m_event m_id m_ok m_payload
      p_runId]. eval_is_str. cbn [andb negb].
    destruct rid; [done |]. reflexivity. }
  destruct (deltas_accumulate inv rid ds st3 Hne) as (H1 & H2 & H3 & H4 & H5 & H6).
  { by rewrite Hst3. }
  set (st4 := fold_left (handle inv) (List.map (delta_input rid) ds) st3) in *.
  cbn [fold_left handle].
  rewrite (on_message_lifecycle inv st4 _ (lifecycle_end (Some rid)));
    try reflexivity.
  2:{ unfold other_run. rewrite H1. cbn [lifecycle_end p_runId].
      unfold JS.eqb. rewrite bool_decide_eq_true_2 by done.
      by destruct rid. }
  unfold on_lifecycle. cbn [phase_of lifecycle_end p_data d_phase].
  eval_is_str. cbv iota. unfold close_and_settle. cbn.
  rewrite H2, H3, H4, H5, H6, Hst3. cbn.
  repeat split; try done. intros ->. done.
Qed.

End GatewayRun.

(** ** Card title *)

(** The list item guards look for a backslash after the marker, so no
    line written as a list item triggers them. *)
Lemma bullet_guard_misses (marker : N) (rest : str) :
  test_bullet (marker :: 32%N :: rest) = false.
Proof. reflexivity. Qed.

Lemma numbered_guard_misses (c : N) (rest : str) :
  c ≠ 92%N → test_numbered (c :: rest) = false.
Proof.
  intros Hc. unfold test_numbered.
  destruct c as [|p]; [done |].
  do 7 (destruct p as [p|p|]; try done).
Qed.

(** The bold pattern accepts every non-empty line. *)
Lemma bold_pattern_accepts (first : str) :
  first ≠ [] → existsb is_line_terminator first = false →
  is_Some (match_bold_stars first).
Proof.
  intros Hne Hlt. unfold match_bold_stars.
  destruct first; [done |]. rewrite Hlt.
  destruct (drop_while _ _); eauto.
Qed.

(** C8. A leading list item is taken as the card title: the list item
    guards of [extractHeaderAndBody] are written with doubled backslashes
    and do not recognise ["- item one"] or ["1. first"], and the bold
    pattern, written the same way, accepts the whole line, so that even
    a first line of more than 80 characters becomes the title. *)
Theorem list_item_taken_as_title :
  test_bullet (lit "- item one") = false ∧
  extractHeaderAndBody list_item_reply = (lit "- item one", lit "more") ∧
  header (buildMarkdownCard true list_item_reply) = Some (lit "- item one") ∧
  extractHeaderAndBody numbered_item_reply = (lit "1. first", lit "more") ∧
  extractHeaderAndBody long_line_reply = (repeat 97%N 81, lit "more").
Proof. repeat split; vm_compute; reflexivity. Qed.

(** ** Tables beyond the cap *)

(** The loop of [buildCardElements] ends within [length lines]
    iterations: more fuel does not change its result. *)
Lemma card_loop_fuel (fuel : nat) : ∀ (k : nat) (lines : list str) (i : nat)
    (st : card_state),
  (length lines - i ≤ fuel)%nat →
  card_loop (fuel + k) lines i st = card_loop fuel lines i st.
Proof.
  induction fuel as [|f IH]; intros k lines i st Hf.
  - cbn [Nat.add card_loop]. destruct k; [done |].
    cbn [card_loop]. by rewrite lookup_ge_None_2 by lia.
  - cbn [Nat.add card_loop]. destruct (lines !! i) eqn:Hl; [| done].
    apply lookup_lt_Some in Hl. cbv zeta.
    repeat case_match; try done; apply IH; lia.
Qed.

(** C9. In a reply with six tables the sixth one is flattened against
    the wrong lines: the block handed to [convertTablesToList] holds the
    line after the table in place of the separator row, so the header is
    forgotten, the first data row yields no bullet and the second one is
    keyed by the cells of the first.  [convertTablesToList] on the table
    itself gives one bullet per data row. *)
Theorem excess_table_loses_header :
  buildCardElements true six_tables
  = [sample_table_element; sample_table_element; sample_table_element;
     sample_table_element; sample_table_element;
     Markdown (lit "• 1: 3 | 2: 4")] ∧
  convertTablesToList (text_of_lines sample_table)
  = text_of_lines ["• a: 1 | b: 2"; "• a: 3 | b: 4"]%string.
Proof. split; vm_compute; reflexivity. Qed.

(** ** Chunking *)


(** The chunks of [build_notes] for a limit of sixteen characters, put
    back together after the removal of the fence lines that the splitter
    added, are not the input: the blank line after the first paragraph is
    gone, whether the pieces are joined by newlines or not. *)
Lemma chunk_roundtrip_not_exact :
  let tr := emitted (trace (chunk_run 16 build_notes)) in
  splitMarkdownIntoChunks build_notes 16 = List.map rendered tr ∧
  List.map desynthesized tr
  = [lit "Steps"; lit "Run the build:"; lit "```sh"; lit "make clean";
     lit "make all"; lit "```"] ∧
  join nl (List.map desynthesized tr) ≠ build_notes ∧
  concat (List.map desynthesized tr) ≠ build_notes.
Proof.
  repeat split; try (vm_compute; reflexivity); vm_compute; discriminate.
Qed.

Section SplitJoin.

Lemma split_not_nil (sep : N) (s : str) : split sep s ≠ [].
Proof.
  destruct s as [|c s']; simpl; [done |].
  destruct (c =? sep)%N; [done |]. by destruct (split sep s').
Qed.

Lemma split_no_sep (sep : char) (s : str) :
  Forall (Forall (λ c, c ≠ sep)) (split sep s).
Proof.
  induction s as [|c s IH]; [by repeat constructor |].
  cbn. destruct (N.eqb_spec c sep) as [-> | Hne]; [by repeat constructor |].
  destruct (split sep s) as [|l ls]; [by repeat constructor |].
  inversion IH; subst. by repeat constructor.
Qed.

Lemma join_cons_cons (sep l : str) (l' : str) (ls : list str) :
  join sep (l :: l' :: ls) = l ++ sep ++ join sep (l' :: ls).
Proof. reflexivity. Qed.

(** Joining the lines of a text with newlines gives the text back. *)
Lemma join_split (s : str) : join nl (split 10 s) = s.
Proof.
  induction s as [|c s IH]; [done |].
  cbn [split]. pose proof (split_not_nil 10 s) as Hne.
  destruct (split 10 s) as [|l ls] eqn:Hs; [done |].
  destruct (c =? 10)%N eqn:Hc.
  - apply N.eqb_eq in Hc as ->. rewrite join_cons_cons. by rewrite IH.
  - rewrite <- IH. destruct ls; reflexivity.
Qed.

End SplitJoin.

Section ChunkGhost.

Implicit Types (st : chunk_state) (line : str).

Lemma emitted_snoc (tr : list flushed) (f : flushed) :
  emitted (tr ++ [f])
  = emitted tr ++ (if falsy (rendered f) then [] else [f]).
Proof.
  unfold emitted. rewrite List.filter_app. cbn [List.filter].
  by destruct (falsy (rendered f)).
Qed.

Lemma drop_one_snoc {A} (l : list A) (x : A) :
  l ≠ [] → drop 1 (l ++ [x]) = drop 1 l ++ [x].
Proof. by destruct l. Qed.

Lemma pending_snoc st line :
  ghost_ok st → pending_lines (append_line line st) = pending_lines st ++ [line].
Proof.
  intros [Hop _]. unfold pending_lines, append_line; simpl.
  destruct (opened st); [| done]. by apply drop_one_snoc, Hop.
Qed.

Lemma pushChunk_ghost closed st : ghost_ok st → ghost_ok (pushChunk closed st).
Proof.
  intros [_ Hch]. split; [done |].
  unfold pushChunk; cbn [chunks trace].
  rewrite emitted_snoc, map_app, Hch.
  change (rendered {| f_lines := buf st; f_opened := opened st;
                      f_closed := closed |})
    with (trimEnd (join nl (buf st))).
  destruct (falsy (trimEnd (join nl (buf st)))) eqn:Hout; cbn [List.map].
  - by rewrite app_nil_r.
  - done.
Qed.

Lemma pushChunk_covered st :
  covered (pushChunk false st) = covered st.
Proof.
  unfold covered, pushChunk, pending_lines; simpl.
  rewrite flat_map_app; simpl. unfold original_lines, strip_synthetic; simpl.
  by rewrite !app_nil_r.
Qed.

Lemma track_fence_ghost line st :
  ghost_ok st → ghost_ok (track_fence line st) ∧
  covered (track_fence line st) = covered st.
Proof.
  intros Hg. unfold track_fence.
  destruct (startsWith _ _); [| done].
  destruct (negb _); done.
Qed.

Lemma make_room_ghost maxChars line st :
  ghost_ok st → ghost_ok (make_room maxChars line st) ∧
  covered (make_room maxChars line st) = covered st.
Proof.
  intros Hg. unfold make_room. cbv zeta.
  destruct (_ && _); [| done].
  destruct (inFence st); [| by split; [apply pushChunk_ghost | apply pushChunk_covered]].
  destruct Hg as [Hop Hch]. split.
  - split; [done |]. cbn [chunks trace].
    match goal with
    | |- context [pushChunk true ?s] =>
      assert (ghost_ok s) as Hs by (split; [by destruct (buf st) | done]);
      apply (pushChunk_ghost true) in Hs as [_ Hs]; exact Hs
    end.
  - unfold covered, pushChunk, pending_lines; simpl.
    rewrite flat_map_app; simpl. unfold original_lines, strip_synthetic; simpl.
    rewrite !app_nil_r. f_equal.
    destruct (opened st).
    + rewrite drop_one_snoc by auto. apply removelast_last.
    + apply removelast_last.
Qed.

Lemma append_line_ghost line st :
  ghost_ok st → ghost_ok (append_line line st) ∧
  covered (append_line line st) = covered st ++ [line].
Proof.
  intros Hg. split.
  - destruct Hg as [Hop Hch]. split; [| done].
    intros _. simpl. by destruct (buf st).
  - unfold covered. rewrite pending_snoc by done.
    by rewrite app_assoc.
Qed.

Lemma paragraph_break_ghost maxChars next st :
  ghost_ok st → ghost_ok (paragraph_break maxChars next st) ∧
  covered (paragraph_break maxChars next st) = covered st.
Proof.
  intros Hg. unfold paragraph_break.
  destruct (_ && _); [| done].
  split; [by apply pushChunk_ghost | apply pushChunk_covered].
Qed.

Lemma chunk_step_ghost maxChars line next st :
  ghost_ok st → ghost_ok (chunk_step maxChars line next st) ∧
  covered (chunk_step maxChars line next st) = covered st ++ [line].
Proof.
  intros Hg. unfold chunk_step.
  destruct (track_fence_ghost line st Hg) as [H1 E1].
  destruct (make_room_ghost maxChars line _ H1) as [H2 E2].
  destruct (append_line_ghost line _ H2) as [H3 E3].
  destruct (paragraph_break_ghost maxChars next _ H3) as [H4 E4].
  split; [done |]. by rewrite E4, E3, E2, E1.
Qed.

Lemma chunk_loop_ghost maxChars lines : ∀ st,
  ghost_ok st → ghost_ok (chunk_loop maxChars lines st) ∧
  covered (chunk_loop maxChars lines st) = covered st ++ lines.
Proof.
  induction lines as [|line rest IH]; intros st Hg.
  - by rewrite app_nil_r.
  - cbn [chunk_loop].
    destruct (chunk_step_ghost maxChars line (head rest) st Hg) as [H1 E1].
    destruct (IH _ H1) as [H2 E2]. split; [done |].
    by rewrite E2, E1, <- app_assoc.
Qed.

Lemma chunk_run_ghost maxChars (src : str) :
  ghost_ok (chunk_run maxChars src) ∧
  flat_map original_lines (trace (chunk_run maxChars src)) = split 10 src.
Proof.
  unfold chunk_run. cbv zeta.
  destruct (chunk_loop_ghost maxChars (split 10 src) chunk_init) as [Hg Hc];
    [done |].
  set (st := chunk_loop _ _ _) in *. change (covered chunk_init) with (@nil str) in Hc.
  cbn [app] in Hc.
  destruct (0 <? length (buf st))%nat eqn:Hb.
  - split; [by apply pushChunk_ghost |].
    rewrite <- Hc, <- (pushChunk_covered st).
    unfold covered at 1, pending_lines; simpl. by rewrite app_nil_r.
  - split; [done |]. rewrite <- Hc. unfold covered, pending_lines.
    destruct (buf st); [| done]. simpl.
    destruct (opened st); by rewrite app_nil_r.
Qed.

Lemma shape_of_open_buffer (b : list str) (op : bool) :
  (op = true → ∃ fl : str, startsWith fl fence = true ∧ head b = Some fl) →
  buffer_shape {| f_lines := b; f_opened := op; f_closed := false |}.
Proof.
  intros Hop. destruct op.
  - destruct Hop as (fl & Hfl & Hhd); [done |]. exists fl. split; [done |].
    destruct b as [|x b']; [done |]. injection Hhd as ->.
    unfold original_lines, strip_synthetic; simpl. by rewrite app_nil_r.
  - exists fence. split; [done |].
    unfold original_lines, strip_synthetic; simpl. by rewrite app_nil_r.
Qed.

Lemma shape_of_closed_buffer (b : list str) (op : bool) :
  (op = true → ∃ fl : str, startsWith fl fence = true ∧ head b = Some fl) →
  buffer_shape {| f_lines := b ++ [fence]; f_opened := op; f_closed := true |}.
Proof.
  intros Hop. destruct op.
  - destruct Hop as (fl & Hfl & Hhd); [done |]. exists fl. split; [done |].
    destruct b as [|x b']; [done |]. injection Hhd as ->.
    unfold original_lines, strip_synthetic; cbn [f_lines f_opened f_closed].
    cbn [app drop]. rewrite drop_0, removelast_last. done.
  - exists fence. split; [done |].
    unfold original_lines, strip_synthetic; cbn [f_lines f_opened f_closed].
    by rewrite removelast_last.
Qed.

Lemma pushChunk_fence_inv st :
  fence_inv st → fence_inv (pushChunk false st).
Proof.
  intros (Hfl & Hop & Htr). split; [done |]. split; [done |].
  unfold pushChunk; cbn [trace]. apply Forall_app. split; [done |].
  constructor; [| constructor]. by apply shape_of_open_buffer.
Qed.

Lemma track_fence_fence_inv line st :
  fence_inv st → fence_inv (track_fence line st).
Proof.
  intros (Hfl & Hop & Htr). unfold track_fence.
  destruct (startsWith (trim line) fence) eqn:Hs; [| done].
  destruct (negb (inFence st)); done.
Qed.

Lemma make_room_fence_inv maxChars line st :
  fence_inv st → fence_inv (make_room maxChars line st).
Proof.
  intros Hinv. unfold make_room. cbv zeta.
  destruct (_ && _); [| done].
  destruct (inFence st); [| by apply pushChunk_fence_inv].
  destruct Hinv as (Hfl & Hop & Htr).
  split; [done |]. split.
  - intros _. exists (fenceLine st). done.
  - unfold pushChunk; cbn [trace buf opened]. apply Forall_app. split; [done |].
    constructor; [| constructor]. by apply shape_of_closed_buffer.
Qed.

Lemma append_line_fence_inv line st :
  fence_inv st → fence_inv (append_line line st).
Proof.
  intros (Hfl & Hop & Htr). split; [done |]. split; [| done].
  intros Ho. destruct (Hop Ho) as (fl & H1 & H2). exists fl. split; [done |].
  unfold append_line; cbn [buf]. by destruct (buf st).
Qed.

Lemma paragraph_break_fence_inv maxChars next st :
  fence_inv st → fence_inv (paragraph_break maxChars next st).
Proof.
  intros Hinv. unfold paragraph_break.
  destruct (_ && _); [by apply pushChunk_fence_inv | done].
Qed.

Lemma chunk_loop_fence_inv maxChars lines : ∀ st,
  fence_inv st → fence_inv (chunk_loop maxChars lines st).
Proof.
  induction lines as [|line rest IH]; intros st Hinv; [done |].
  cbn [chunk_loop]. apply IH. unfold chunk_step.
  by apply paragraph_break_fence_inv, append_line_fence_inv,
    make_room_fence_inv, track_fence_fence_inv.
Qed.

Lemma chunk_run_shapes maxChars (src : str) :
  Forall buffer_shape (trace (chunk_run maxChars src)).
Proof.
  assert (fence_inv (chunk_run maxChars src)) as (_ & _ & H); [| done].
  unfold chunk_run. cbv zeta.
  assert (fence_inv chunk_init) as Hinit.
  { split; [done |]. split; [done | constructor]. }
  pose proof (chunk_loop_fence_inv maxChars (split 10 src) _ Hinit) as Hl.
  destruct (0 <? _)%nat; [by apply pushChunk_fence_inv | done].
Qed.

End ChunkGhost.

(** C2, as the code has it.  For a text longer than [maxChars], the
    buffers that the splitter hands to [pushChunk], once the closing
    fence appended at a split inside a fence and the fence line put back
    at the start of the following buffer are removed (every buffer is
    its share of the lines between these two optional fence lines), hold
    exactly the lines of the text (line ends normalised), in order, so joining them
    with newlines gives the text back.  The returned chunks are these
    buffers joined by newlines with the white space at their end trimmed,
    without the buffers that trim to nothing: the chunks reproduce the
    text up to that white space, not exactly. *)
Theorem chunks_cover_input (text : str) (maxChars : Z) :
  let src := normalize_newlines text in
  let fin := chunk_run maxChars src in
  0 ≤ maxChars → maxChars < len src →
  Forall buffer_shape (trace fin) ∧
  flat_map original_lines (trace fin) = split 10 src ∧
  join nl (flat_map original_lines (trace fin)) = src ∧
  chunks fin = List.map rendered (emitted (trace fin)) ∧
  splitMarkdownIntoChunks text maxChars
  = match chunks fin with
    | [] => [slice_to src maxChars]
    | cs => cs
    end.
Proof.
  intros src fin Hpos Hlong.
  destruct (chunk_run_ghost maxChars src) as [[_ Hch] Hcov].
  split; [apply chunk_run_shapes |].
  repeat split; [done | | done |].
  - fold fin in Hcov. rewrite Hcov. apply join_split.
  - unfold splitMarkdownIntoChunks. fold src. fold fin.
    destruct (falsy src) eqn:Hf.
    { destruct src; [unfold len in Hlong; simpl in Hlong; lia | done]. }
    destruct (len src <=? maxChars) eqn:Hle; [| done].
    apply Z.leb_le in Hle. lia.
Qed.

Lemma chunks_cover_input_witness :
  join nl (flat_map original_lines
             (trace (chunk_run 16 (normalize_newlines build_notes))))
  = normalize_newlines build_notes.
Proof.
  pose proof (chunks_cover_input build_notes 16) as H. cbv zeta in H.
  destruct H as (_ & _ & H & _); [lia | vm_compute; reflexivity |].
  exact H.
Defined.

Section ChunkLimit.

Variable maxChars : Z.

Implicit Types (st : chunk_state) (line : str).

Lemma len_nonneg (s : str) : 0 ≤ len s.
Proof. unfold len. lia. Qed.

Lemma length_drop_while {A} (p : A → bool) (l : list A) :
  (length (drop_while p l) ≤ length l)%nat.
Proof.
  induction l as [|x l IH]; simpl; [lia |].
  destruct (p x); simpl; lia.
Qed.

Lemma len_trimEnd (s : str) : len (trimEnd s) ≤ len s.
Proof.
  unfold len, trimEnd. rewrite length_rev.
  pose proof (length_drop_while is_space (rev s)) as H.
  rewrite length_rev in H. lia.
Qed.

Lemma lines_len_nonneg (ls : list str) : 0 ≤ lines_len ls.
Proof.
  induction ls as [|l ls IH]; simpl; [lia |].
  pose proof (len_nonneg l). lia.
Qed.

Lemma lines_len_snoc (ls : list str) (l : str) :
  lines_len (ls ++ [l]) = lines_len ls + (len l + 1).
Proof. induction ls as [|x ls IH]; simpl; lia. Qed.

Lemma len_app (a b : str) : len (a ++ b) = len a + len b.
Proof. unfold len. rewrite length_app. lia. Qed.

Lemma len_join (ls : list str) :
  ls ≠ [] → len (join nl ls) = lines_len ls - 1.
Proof.
  induction ls as [|l ls IH]; [done |]. intros _.
  destruct ls as [|l' ls'].
  - simpl. lia.
  - rewrite join_cons_cons, !len_app, IH by done.
    cbn [lines_len]. unfold nl, len at 2. simpl. lia.
Qed.

Lemma pushChunk_within st :
  within_limit maxChars st → within_limit maxChars (pushChunk false st).
Proof.
  intros (Hf & Hlen & Hle & Hch). repeat split; try done.
  - simpl. pose proof (lines_len_nonneg (buf st)). lia.
  - unfold pushChunk; cbn [chunks].
    destruct (falsy _) eqn:Hout; [done |].
    apply Forall_app. split; [done |]. constructor; [| constructor].
    pose proof (len_trimEnd (join nl (buf st))) as Ht.
    destruct (buf st) as [|l r] eqn:Hb; [done |].
    rewrite len_join in Ht by done. lia.
Qed.

Lemma chunk_step_within line next st :
  plain_line maxChars line → within_limit maxChars st →
  within_limit maxChars (chunk_step maxChars line next st).
Proof.
  intros [Hline Hplain] Hst. unfold chunk_step.
  assert (track_fence line st = st) as -> by (unfold track_fence; by rewrite Hplain).
  assert (within_limit maxChars
            (append_line line (make_room maxChars line st))) as Happ.
  { unfold make_room. cbv zeta.
    destruct Hst as (Hf & Hlen & Hle & Hch).
    destruct (maxChars <? bufLen st + (len line + 1)) eqn:Hex; cbn [andb].
    - destruct (0 <? length (buf st))%nat eqn:Hb.
      + rewrite Hf.
        destruct (pushChunk_within st) as (Hf' & Hlen' & Hle' & Hch'); [done |].
        repeat split; try done; cbn [append_line buf bufLen pushChunk app].
        * simpl. lia.
        * lia.
      + destruct (buf st) eqn:Hbuf; [| done]. simpl in Hlen.
        repeat split; try done; cbn [append_line buf bufLen].
        * rewrite Hbuf. simpl. lia.
        * lia.
    - apply Z.ltb_ge in Hex.
      repeat split; try done; cbn [append_line buf bufLen].
      + rewrite lines_len_snoc. lia.
      + lia. }
  unfold paragraph_break.
  destruct (_ && _); [by apply pushChunk_within | done].
Qed.

Lemma chunk_loop_within lines : ∀ st,
  Forall (plain_line maxChars) lines → within_limit maxChars st →
  within_limit maxChars (chunk_loop maxChars lines st).
Proof.
  induction lines as [|line rest IH]; intros st Hall Hst; [done |].
  inversion Hall; subst. cbn [chunk_loop].
  apply IH; [done |]. by apply chunk_step_within.
Qed.

End ChunkLimit.

(** X27. The length bound where no fence is involved: when no line of
    the text opens or closes a fence and every line is at most
    [maxChars] long, every chunk is at most [maxChars] long. *)
Lemma chunks_within_limit_without_fences (text : str) (maxChars : Z) :
  Forall (plain_line maxChars) (split 10 (normalize_newlines text)) →
  Forall (λ c, len c ≤ maxChars) (splitMarkdownIntoChunks text maxChars).
Proof.
  intros Hall. unfold splitMarkdownIntoChunks. cbv zeta.
  set (src := normalize_newlines text) in *.
  assert (0 ≤ maxChars) as Hpos.
  { pose proof (split_not_nil 10 src) as Hne.
    destruct (split 10 src) as [|l ls]; [done |].
    inversion Hall as [|? ? [Hl _] _]; subst.
    pose proof (len_nonneg l). lia. }
  destruct (falsy src); [constructor |].
  destruct (len src <=? maxChars) eqn:Hle.
  { apply Z.leb_le in Hle. by repeat constructor. }
  assert (within_limit maxChars (chunk_run maxChars src)) as (_ & _ & _ & Hch).
  { unfold chunk_run. cbv zeta.
    assert (within_limit maxChars chunk_init) as Hinit.
    { repeat split; try done; simpl; try lia; try constructor. }
    pose proof (chunk_loop_within maxChars _ _ Hall Hinit) as Hl.
    destruct (0 <? _)%nat; [by apply pushChunk_within | done]. }
  destruct (chunks (chunk_run maxChars src)) eqn:Hcs; [| done].
  repeat constructor. unfold slice_to, len.
  destruct (maxChars <? 0) eqn:Hneg; [apply Z.ltb_lt in Hneg; lia |].
  rewrite length_take. lia.
Qed.

Section ChunkContent.

Variable maxChars : Z.
Hypothesis maxChars_nonneg : 0 ≤ maxChars.

Implicit Types (st : chunk_state) (line : str).













End ChunkContent.



(** * Further properties *)

(** ** Dedup ledger: expiry and in-flight protection *)


(** X1. Once the ten minutes have passed and the in-flight timer has
    fired, the same message id is admitted again: the record is evicted
    by the purge of the later call.  The older bridge, which has no
    in-flight set, behaves the same without the timer. *)
Theorem readmitted_after_ttl (m c0 c : str) (t0 t : Z) :
  m ≠ [] → SEEN_TTL_MS < t - t0 →
  outcomes [Call (Some m) c0 t0; TimerFires m; Call (Some m) c t]
           empty_ledger
  = [false; false] ∧
  Legacy.outcomes [(Some m, t0); (Some m, t)] ∅ = [false; false].
Proof.
  intros Hne Ht. split.
  - cbn [outcomes step fst snd].
    rewrite (first_call_state m c0 t0 Hne). cbn [fst snd]. f_equal.
    rewrite isDuplicate_unknown; [done | done | | | ].
    + unfold purge, timer_fires; cbn [seen].
      apply map_lookup_filter_None. right. intros x Hx.
      rewrite lookup_singleton_eq in Hx. injection Hx as <-. simpl. lia.
    + cbn [timer_fires processing]. set_solver.
    + unfold purge, timer_fires; cbn [recentMessages].
      apply map_lookup_filter_None. right. intros v Hv.
      apply first_call_fingerprints in Hv. simpl. rewrite Hv.
      unfold CONTENT_DEDUP_WINDOW_MS, SEEN_TTL_MS in *. lia.
  - cbn [Legacy.outcomes].
    assert (Legacy.isDuplicate (Some m) t0 ∅ = (false, {[m := t0]})) as ->.
    { unfold Legacy.isDuplicate, Legacy.purge.
      destruct m as [|a m']; [done | simpl falsy; cbv iota zeta].
      rewrite map_filter_empty, lookup_empty.
      rewrite bool_decide_eq_false_2 by (intros [? Hx]; discriminate Hx).
      by rewrite insert_empty. }
    cbn [fst snd]. f_equal.
    unfold Legacy.isDuplicate.
    destruct m as [|a m']; [done | simpl falsy; cbv iota zeta].
    assert (Legacy.purge t {[a :: m' := t0]} !! (a :: m') = None) as ->.
    { apply map_lookup_filter_None. right. intros x Hx.
      rewrite lookup_singleton_eq in Hx. injection Hx as <-. simpl. lia. }
    rewrite bool_decide_eq_false_2; [done | intros [? Hx]; discriminate Hx].
Qed.

Lemma readmitted_after_ttl_witness :
  outcomes [Call (Some (lit "om_1")) (lit "hi") 0;
            TimerFires (lit "om_1");
            Call (Some (lit "om_1")) (lit "hi") 600001] empty_ledger
  = [false; false].
Proof.
  destruct (readmitted_after_ttl (lit "om_1") (lit "hi") (lit "hi") 0 600001)
    as [H _]; [done | unfold SEEN_TTL_MS; lia |].
  exact H.
Defined.

(** X2. As long as the in-flight timer of an admitted message has not
    fired, every call with its id is a duplicate, at any time: the
    in-flight mark does not expire with the seen record. *)
Theorem in_flight_is_duplicate (m c0 c : str) (t0 t : Z) (st : ledger)
    (evs : list event) :
  m ≠ [] →
  (isDuplicate (Some m) c0 t0 st).1 = false →
  Forall (keeps_in_flight m) evs →
  (isDuplicate (Some m) c t
     (run evs (isDuplicate (Some m) c0 t0 st).2)).1 = true.
Proof.
  intros Hne Hadm Hall.
  pose proof (isDuplicate_admitted_in_flight st t0 m c0 Hne Hadm) as Hin.
  pose proof (in_flight_survives m evs _ Hin Hall) as Hrun.
  set (st2 := run evs _) in *.
  unfold isDuplicate.
  destruct m as [|a m']; [done | simpl falsy; cbv iota zeta].
  cbn [purge processing].
  rewrite (bool_decide_eq_true_2 (_ ∈ _)) by done.
  by rewrite orb_true_r.
Qed.

Lemma in_flight_is_duplicate_witness :
  (isDuplicate (Some (lit "om_1")) [] 9000000
     (run [Call (Some (lit "om_2")) (lit "x") 5; TimerFires (lit "om_2")]
        (isDuplicate (Some (lit "om_1")) (lit "hi") 0 empty_ledger).2)).1
  = true.
Proof.
  apply in_flight_is_duplicate.
  - done.
  - by apply isDuplicate_empty_ledger.
  - repeat constructor. vm_compute. congruence.
Defined.

(** X3. The content fingerprint expires: on a fresh ledger, a message
    under another id that arrives more than five seconds after the first
    one is admitted, even with the very same content. *)
Theorem fingerprint_expires (m1 m2 c1 c2 : str) (t1 t2 : Z) :
  m1 ≠ [] → m2 ≠ [] → m1 ≠ m2 →
  CONTENT_DEDUP_WINDOW_MS < t2 - t1 → t2 - t1 ≤ SEEN_TTL_MS →
  outcomes [Call (Some m1) c1 t1; Call (Some m2) c2 t2] empty_ledger
  = [false; false].
Proof.
  intros Hm1 Hm2 Hne Ht _.
  cbn [outcomes step fst snd].
  rewrite (first_call_state m1 c1 t1 Hm1). cbn [fst snd]. f_equal.
  rewrite isDuplicate_unknown; [done | done | | | ].
  - unfold purge; cbn [seen]. apply map_lookup_filter_None. left.
    by apply lookup_singleton_ne.
  - cbn [processing]. set_solver.
  - unfold purge; cbn [recentMessages].
    apply map_lookup_filter_None. right. intros v Hv.
    apply first_call_fingerprints in Hv. simpl. rewrite Hv. lia.
Qed.

Lemma fingerprint_expires_witness :
  outcomes [Call (Some (lit "om_1")) (lit "hello") 0;
            Call (Some (lit "om_2")) (lit "hello") 5001] empty_ledger
  = [false; false].
Proof.
  apply fingerprint_expires;
    [done | done | vm_compute; congruence | | ];
    unfold CONTENT_DEDUP_WINDOW_MS, SEEN_TTL_MS; lia.
Defined.

(** X4. A call that is dropped as a duplicate records nothing: it leaves
    the ledger as the purge alone leaves it, so it neither renews the
    retention of the id nor the fingerprint of the content. *)
Theorem duplicate_records_nothing (mid : option str) (c : str) (now : Z)
    (st : ledger) :
  (isDuplicate mid c now st).1 = true →
  (isDuplicate mid c now st).2 = purge now st ∧
  seen (isDuplicate mid c now st).2 ⊆ seen st ∧
  recentMessages (isDuplicate mid c now st).2 ⊆ recentMessages st ∧
  processing (isDuplicate mid c now st).2 = processing st ∧
  timers (isDuplicate mid c now st).2 = timers st.
Proof.
  intros Hdup. rewrite (isDuplicate_true_purges _ _ _ _ Hdup).
  repeat split; try reflexivity; apply map_filter_subseteq.
Qed.

Lemma duplicate_records_nothing_witness :
  let st := (isDuplicate (Some (lit "om_1")) (lit "hi") 0 empty_ledger).2 in
  (isDuplicate (Some (lit "om_1")) (lit "hi") 10 st).2 = purge 10 st.
Proof.
  intros st.
  destruct (duplicate_records_nothing (Some (lit "om_1")) (lit "hi") 10 st)
    as [H _]; [| exact H].
  rewrite (isDuplicate_seen st 10 (lit "om_1") (lit "hi") 0); [done | done | | ].
  - by apply isDuplicate_admitted_seen, isDuplicate_empty_ledger.
  - unfold SEEN_TTL_MS. lia.
Defined.

(** ** Link extraction: general facts *)

Section UrlFacts.

Lemma strip_prefix_Some (p s r : str) :
  strip_prefix p s = Some r → s = p ++ r.
Proof.
  revert s. induction p as [|a p IH]; intros s; cbn [strip_prefix].
  - by intros [= ->].
  - destruct s as [|b s]; [done |].
    destruct (a =? b)%N eqn:Hab; [| done].
    apply N.eqb_eq in Hab as ->. intros H. by rewrite (IH _ H).
Qed.

Lemma startsWith_app (p r : str) : startsWith (p ++ r) p = true.
Proof.
  unfold startsWith.
  assert (strip_prefix p (p ++ r) = Some r) as ->; [| done].
  induction p as [|a p IH]; [done |]. cbn. by rewrite N.eqb_refl.
Qed.

Lemma startsWith_app_l (p q r : str) :
  startsWith q p = true → startsWith (q ++ r) p = true.
Proof.
  unfold startsWith. destruct (strip_prefix p q) as [t |] eqn:Hq; [| done].
  intros _. apply strip_prefix_Some in Hq as ->.
  rewrite <- app_assoc. apply startsWith_app.
Qed.

Lemma take_drop_while {A} (p : A → bool) (l : list A) :
  take_while p l ++ drop_while p l = l.
Proof.
  induction l as [|x l IH]; [done |]. cbn.
  destruct (p x); [| done]. cbn. by rewrite IH.
Qed.

Lemma forallb_take_while {A} (p : A → bool) (l : list A) :
  forallb p (take_while p l) = true.
Proof.
  induction l as [|x l IH]; [done |]. cbn.
  destruct (p x) eqn:Hx; [| done]. cbn. by rewrite Hx, IH.
Qed.

Lemma drop_while_app {A} (p : A → bool) (l1 l2 : list A) :
  drop_while p (l1 ++ l2)
  = match drop_while p l1 with
    | [] => drop_while p l2
    | r => r ++ l2
    end.
Proof.
  induction l1 as [|x l1 IH]; cbn; [by destruct (drop_while p l2) |].
  destruct (p x); [apply IH | done].
Qed.

Lemma drop_while_head {A} (p : A → bool) (l : list A) (x : A) :
  head (drop_while p l) = Some x → p x = false.
Proof.
  induction l as [|y l IH]; [done |]. cbn.
  destruct (p y) eqn:Hy; [apply IH |]. by intros [= <-].
Qed.

(** What [strip_trailing_punct] keeps is a prefix of its argument that
    does not end with punctuation. *)
Lemma strip_trailing_punct_prefix (u : str) :
  ∃ tl, u = strip_trailing_punct u ++ tl.
Proof.
  unfold strip_trailing_punct.
  exists (rev (take_while trailing_punct (rev u))).
  rewrite <- rev_app_distr, take_drop_while. by rewrite rev_involutive.
Qed.

Lemma last_rev_head {A} (l : list A) : last (rev l) = head l.
Proof. destruct l as [|x l]; [done |]. cbn [rev]. apply last_snoc. Qed.

Lemma strip_trailing_punct_last (u : str) (c : char) :
  last (strip_trailing_punct u) = Some c → trailing_punct c = false.
Proof.
  unfold strip_trailing_punct. rewrite last_rev_head.
  apply drop_while_head.
Qed.

Lemma strip_trailing_punct_app (a b : str) (x : char) :
  trailing_punct x = false →
  strip_trailing_punct (a ++ x :: b) = a ++ x :: strip_trailing_punct b.
Proof.
  intros Hx. unfold strip_trailing_punct.
  rewrite rev_app_distr. cbn [rev]. rewrite <- app_assoc. cbn [app].
  rewrite drop_while_app.
  destruct (drop_while trailing_punct (rev b)) as [|y r] eqn:Hb.
  - cbn [drop_while]. rewrite Hx. cbn [rev]. by rewrite rev_involutive.
  - rewrite rev_app_distr. cbn [rev]. rewrite rev_involutive.
    by rewrite <- app_assoc.
Qed.

Lemma forallb_prefix {A} (p : A → bool) (l1 l2 : list A) :
  forallb p (l1 ++ l2) = true → forallb p l1 = true.
Proof. rewrite forallb_app. by intros [? ?]%andb_true_iff. Qed.

Lemma url_tail_Some (r : str) (k n : nat) :
  url_tail r k = Some n →
  ∃ body tl, r = lit "://" ++ body ++ tl ∧ body ≠ [] ∧
             forallb url_char body = true ∧
             n = (k + 3 + length body)%nat.
Proof.
  unfold url_tail.
  destruct (strip_prefix (lit "://") r) as [r2 |] eqn:Hr; [| done].
  apply strip_prefix_Some in Hr.
  destruct (take_while url_char r2) as [|c t] eqn:Ht; [done |].
  intros [= <-]. exists (c :: t), (drop_while url_char r2).
  rewrite <- Ht. split; [by rewrite take_drop_while |].
  split; [by rewrite Ht |]. split; [apply forallb_take_while | by rewrite Ht].
Qed.

(** A match of the URL pattern is the scheme followed by a non-empty
    run of URL characters. *)
Lemma match_url_at_Some (s : str) (n : nat) :
  match_url_at s = Some n →
  ∃ scheme body,
    (scheme = lit "http://" ∨ scheme = lit "https://") ∧
    take n s = scheme ++ body ∧ body ≠ [] ∧ forallb url_char body = true.
Proof.
  unfold match_url_at.
  destruct (strip_prefix (lit "http") s) as [r |] eqn:Hs; [| done].
  apply strip_prefix_Some in Hs as ->.
  assert (∀ n, url_tail r 4 = Some n →
    ∃ scheme body,
      (scheme = lit "http://" ∨ scheme = lit "https://") ∧
      take n (lit "http" ++ r) = scheme ++ body ∧ body ≠ [] ∧
      forallb url_char body = true) as Hplain.
  { intros k Hk. apply url_tail_Some in Hk as (body & tl & -> & Hne & Hall & ->).
    exists (lit "http://"), body. split; [by left |]. split; [| done].
    change (lit "http" ++ lit "://" ++ body ++ tl)
      with (lit "http://" ++ body ++ tl).
    rewrite app_assoc. apply take_app_length'.
    rewrite length_app. reflexivity. }
  destruct r as [|c r']; [apply Hplain |].
  destruct (N.eq_dec c 115%N) as [-> | Hc].
  - destruct (url_tail r' 5) as [k |] eqn:Hk; [| apply Hplain].
    intros [= <-].
    apply url_tail_Some in Hk as (body & tl & -> & Hne & Hall & ->).
    exists (lit "https://"), body. split; [by right |]. split; [| done].
    change (lit "http" ++ 115%N :: lit "://" ++ body ++ tl)
      with (lit "https://" ++ body ++ tl).
    rewrite app_assoc. apply take_app_length'.
    rewrite length_app. reflexivity.
  - revert Hc. destruct c as [|p]; [intros _; apply Hplain |].
    do 7 (destruct p as [p|p|]; try (intros _; apply Hplain)).
    intros Hc. done.
Qed.

Lemma matched_url_shaped (s : str) (n : nat) :
  match_url_at s = Some n → url_shaped (strip_trailing_punct (take n s)).
Proof.
  intros (scheme & body & Hscheme & -> & Hne & Hall)%match_url_at_Some.
  assert (∃ pre, scheme = pre ++ [47%N] ∧ forallb url_char scheme = true)
    as (pre & Hpre & Hsch).
  { destruct Hscheme as [-> | ->].
    - by exists (lit "http:/").
    - by exists (lit "https:/"). }
  assert (strip_trailing_punct (scheme ++ body)
          = scheme ++ strip_trailing_punct body) as ->.
  { rewrite Hpre, <- !app_assoc. cbn [app].
    by rewrite strip_trailing_punct_app. }
  split; [| split].
  - destruct Hscheme as [-> | ->]; [left | right]; apply startsWith_app.
  - rewrite forallb_app, Hsch. cbn [andb].
    destruct (strip_trailing_punct_prefix body) as [tl Htl].
    rewrite Htl in Hall. by apply forallb_prefix in Hall.
  - intros c Hc. destruct (strip_trailing_punct body) as [|b bs] eqn:Hb.
    + rewrite app_nil_r, Hpre, last_snoc in Hc. by injection Hc as <-.
    + apply (strip_trailing_punct_last body). rewrite Hb.
      rewrite last_app in Hc.
      destruct (last (b :: bs)) eqn:Hl; [done | by apply last_None in Hl].
Qed.

Lemma scan_urls_shaped (s : str) : ∀ skip,
  Forall url_shaped (scan_urls skip s).
Proof.
  induction s as [|c s IH]; intros skip; [constructor |].
  cbn [scan_urls]. destruct skip as [|k]; [| apply IH].
  destruct (match_url_at (c :: s)) as [n |] eqn:Hm; [| apply IH].
  constructor; [by apply matched_url_shaped | apply IH].
Qed.

Lemma dedupe_urls_Forall (P : str → Prop) (urls : list str) : ∀ seen,
  Forall P urls → Forall P (dedupe_urls seen urls).
Proof.
  induction urls as [|u rest IH]; intros seen Hall; [constructor |].
  inversion Hall; subst. cbn [dedupe_urls].
  destruct (_ || _); [by apply IH |]. constructor; [done | by apply IH].
Qed.

Lemma scan_urls_no_http (s : str) : ∀ skip,
  includes s (lit "http") = false → scan_urls skip s = [].
Proof.
  induction s as [|c s IH]; intros skip Hno; [done |].
  cbn [includes] in Hno. apply orb_false_iff in Hno as [Hhere Hrest].
  cbn [scan_urls]. destruct skip as [|k]; [| by apply IH].
  unfold match_url_at. unfold startsWith in Hhere.
  destruct (strip_prefix (lit "http") (c :: s)); [done |]. by apply IH.
Qed.

End UrlFacts.

(** X5. Every URL that [extractUrls] returns starts with [http://] or
    [https://], holds no white space and none of the characters
    [< > ( ) ] }], and does not end with sentence punctuation; and no
    URL is returned twice. *)
Theorem extractUrls_well_formed (text : str) :
  Forall url_shaped (extractUrls text) ∧ NoDup (extractUrls text).
Proof.
  split; [| apply dedupe_urls_fresh].
  apply dedupe_urls_Forall, scan_urls_shaped.
Qed.

(** X6. A text that does not contain [http] yields no URL. *)
Theorem extractUrls_without_scheme (text : str) :
  includes text (lit "http") = false → extractUrls text = [].
Proof.
  intros Hno. unfold extractUrls. by rewrite scan_urls_no_http.
Qed.

Lemma extractUrls_without_scheme_witness :
  extractUrls (lit "see www.example.com, or ftp://files.example.com") = [].
Proof. apply extractUrls_without_scheme. vm_compute. reflexivity. Defined.

(** ** Trimming *)

Section TrimFacts.

Lemma drop_while_id {A} (p : A → bool) (l : list A) :
  (∀ x, head l = Some x → p x = false) → drop_while p l = l.
Proof.
  destruct l as [|x l]; [done |]. intros H. cbn.
  by rewrite (H x eq_refl).
Qed.

Lemma drop_while_idemp {A} (p : A → bool) (l : list A) :
  drop_while p (drop_while p l) = drop_while p l.
Proof. apply drop_while_id. intros x. apply drop_while_head. Qed.

Lemma trimEnd_prefix (u : str) : ∃ tl, u = trimEnd u ++ tl.
Proof.
  unfold trimEnd. exists (rev (take_while is_space (rev u))).
  rewrite <- rev_app_distr, take_drop_while. by rewrite rev_involutive.
Qed.

Lemma trimEnd_idemp (u : str) : trimEnd (trimEnd u) = trimEnd u.
Proof.
  unfold trimEnd. by rewrite rev_involutive, drop_while_idemp.
Qed.

(** Trimming the end keeps a first character that is not white space. *)
Lemma trimEnd_head (u : str) (x : char) :
  head (trimEnd u) = Some x → head u = Some x.
Proof.
  destruct (trimEnd_prefix u) as [tl Hu]. intros Hx.
  rewrite Hu. destruct (trimEnd u); [done |]. done.
Qed.

Lemma trim_head (s : str) (x : char) :
  head (trim s) = Some x → is_space x = false.
Proof.
  unfold trim, trimStart. intros H%trimEnd_head.
  by apply drop_while_head in H.
Qed.

Lemma trimStart_trim (s : str) : trimStart (trim s) = trim s.
Proof. apply drop_while_id. intros x. apply trim_head. Qed.

(** [trim] is idempotent: a trimmed string has no white space left at
    either end. *)
Lemma trim_idemp (s : str) : trim (trim s) = trim s.
Proof.
  unfold trim at 1. rewrite trimStart_trim.
  unfold trim. apply trimEnd_idemp.
Qed.

End TrimFacts.

(** ** Prefix routes *)

Section PrefixRoutes.

Variable lower : str → str.

Lemma match_prefix_is_Some (prefixes : list str) (trimmed : str) :
  is_Some (match_prefix lower prefixes trimmed) ↔
  Exists (λ p, prefix_hits lower trimmed p = true) prefixes.
Proof.
  induction prefixes as [|p ps IH]; cbn [match_prefix].
  - split; [intros [? Hx]; discriminate Hx | intros H; inversion H].
  - rewrite Exists_cons, <- IH. unfold prefix_hits.
    destruct (falsy p); cbn [negb andb].
    + split; [by right | by intros [? | ?]].
    + destruct (startsWith _ _) eqn:Hs.
      * split; [intros _; by left | eauto].
      * split; [by right | by intros [? | ?]].
Qed.

Lemma match_prefix_trimmed (prefixes : list str) (trimmed r : str) :
  match_prefix lower prefixes trimmed = Some r → trim r = r.
Proof.
  induction prefixes as [|p ps IH]; cbn [match_prefix]; [done |].
  destruct (falsy p); [done |].
  destruct (startsWith _ _); [| done].
  intros [= <-]. apply trim_idemp.
Qed.

(** The first configured prefix whose lowercased form the lowercased
    text starts with is taken: as many characters as the prefix has are
    cut off and the rest is trimmed. *)
Lemma match_prefix_hit (before after : list str) (p q r : str) :
  Forall (λ p', prefix_hits lower (q ++ r) p' = false) before →
  p ≠ [] → length q = length p →
  startsWith (lower (q ++ r)) (lower p) = true →
  match_prefix lower (before ++ p :: after) (q ++ r) = Some (trim r).
Proof.
  intros Hbefore Hp Hlen Hq. induction Hbefore as [|p' ps Hp' _ IH].
  - cbn [app match_prefix]. destruct p as [|a p]; [done |]. cbn [falsy].
    rewrite Hq. unfold slice_from. rewrite <- Hlen.
    by rewrite drop_app_length.
  - cbn [app match_prefix]. unfold prefix_hits in Hp'.
    destruct (falsy p'); [done |]. cbn [negb andb] in Hp'. by rewrite Hp'.
Qed.

Lemma detectRoute_matched (prefixes : list str) (t : str) :
  trim t = t → falsy t = false →
  (detectRoute lower prefixes t).1
  = match match_prefix lower prefixes t with
    | Some _ => true
    | None => false
    end.
Proof.
  intros Ht Hf. unfold detectRoute. cbv zeta. rewrite Ht, Hf.
  by destruct (match_prefix lower prefixes t).
Qed.

Lemma detectLinkRoute_matched (cfg : config) (t : str) :
  trim t = t → falsy t = false →
  (detectLinkRoute lower cfg t).1
  = match match_prefix lower (FEISHU_LINK_PREFIXES cfg) t with
    | Some _ => true
    | None => false
    end.
Proof.
  intros Ht Hf. unfold detectLinkRoute. cbv zeta. rewrite Ht, Hf.
  by destruct (match_prefix _ _ t).
Qed.

Lemma detectRoute_hit (before after : list str) (p q r text : str) :
  trim text = q ++ r →
  Forall (λ p', prefix_hits lower (q ++ r) p' = false) before →
  p ≠ [] → length q = length p →
  startsWith (lower (q ++ r)) (lower p) = true →
  detectRoute lower (before ++ p :: after) text = (true, trim r).
Proof.
  intros Htrim Hbefore Hp Hlen Hq. unfold detectRoute. cbv zeta.
  rewrite Htrim.
  assert (falsy (q ++ r) = false) as ->.
  { destruct q; [| done]. by destruct p. }
  by rewrite (match_prefix_hit before after p q r).
Qed.

Lemma detectRoute_miss (prefixes : list str) (text : str) :
  Forall (λ p, prefix_hits lower (trim text) p = false) prefixes →
  detectRoute lower prefixes text = (false, trim text).
Proof.
  intros Hall. unfold detectRoute. cbv zeta.
  destruct (falsy (trim text)); [done |].
  by rewrite match_prefix_none.
Qed.

End PrefixRoutes.

(** X7. What a prefix route hands on is trimmed: the text returned by
    [detectCodeRoute] and [detectSearchRoute] never starts or ends with
    white space, whether a prefix matched or not, and whatever the
    lowercasing of the runtime does. *)
Theorem detectRoute_text_trimmed (lower : str → str) (cfg : config)
    (text : str) :
  trim (detectCodeRoute lower cfg text).2 = (detectCodeRoute lower cfg text).2 ∧
  trim (detectSearchRoute lower cfg text).2
  = (detectSearchRoute lower cfg text).2.
Proof.
  assert (∀ ps, trim (detectRoute lower ps text).2
                = (detectRoute lower ps text).2) as H.
  { intros ps. unfold detectRoute. cbv zeta.
    destruct (falsy (trim text)); [apply trim_idemp |].
    destruct (match_prefix lower ps (trim text)) as [r |] eqn:Hm; cbn [snd].
    - by apply match_prefix_trimmed in Hm.
    - apply trim_idemp. }
  split; apply H.
Qed.

(** X8. Prefix routes compare in lower case and take the first match,
    and they cut off as many characters as the prefix has: when the
    trimmed text is [q ++ r] with [q] as long as a configured non-empty
    prefix [p], the lowercased text starts with the lowercased [p] and
    no earlier prefix of the list hits, the route matches and returns
    [r] trimmed.  This holds for every lowercasing function, so for the
    one of the runtime. *)
Theorem detectRoute_prefix_hit (lower : str → str)
    (before after : list str) (p q r text : str) :
  trim text = q ++ r →
  Forall (λ p', prefix_hits lower (q ++ r) p' = false) before →
  p ≠ [] → length q = length p →
  startsWith (lower (q ++ r)) (lower p) = true →
  detectRoute lower (before ++ p :: after) text = (true, trim r).
Proof.
  intros Htrim Hbefore Hp Hlen Hq. unfold detectRoute. cbv zeta.
  rewrite Htrim.
  assert (falsy (q ++ r) = false) as ->.
  { destruct q; [| done]. by destruct p. }
  by rewrite (match_prefix_hit lower before after p q r).
Qed.

Lemma detectRoute_prefix_hit_witness :
  detectCodeRoute toLowerCase_latin1 default_config (lit "  Coding: fix bug ")
  = (true, lit "fix bug").
Proof.
  apply (detectRoute_prefix_hit toLowerCase_latin1
           [] [lit "@code"; lit "@coding"; lit "/code"]
           (lit "coding:") (lit "Coding:")
           (lit " fix bug") (lit "  Coding: fix bug "));
    [reflexivity | constructor | done | reflexivity | reflexivity].
Defined.

(** ** Group gate: when a message is admitted *)

(** X9. The group gate admits a message exactly when its text is not
    blank and either the bot is mentioned or, outside the mention-only
    mode, the lowercased trimmed text starts with the lowercased form of
    one of the configured non-empty code, search or link prefixes, or
    the text starts with a wake word.  Lowercasing is the runtime's,
    whatever it does. *)
Theorem group_gate_characterised (lower : str → str) (cfg : config)
    (text : str) (mentions : list mention) :
  shouldRespondInGroup lower cfg text mentions = true ↔
  trim text ≠ [] ∧
  (isMentioningBot lower cfg mentions = true ∨
   (FEISHU_GROUP_MENTION_ONLY cfg = false ∧
    (Exists (λ p, p ≠ [] ∧
                  startsWith (lower (trim text)) (lower p) = true)
       (FEISHU_CODE_PREFIXES cfg ++ FEISHU_SEARCH_PREFIXES cfg
        ++ FEISHU_LINK_PREFIXES cfg)
     ∨ matches_wake_word (trim text) = true))).
Proof.
  assert (∀ ps t,
            Exists (λ p, p ≠ [] ∧ startsWith (lower t) (lower p) = true) ps
            ↔ Exists (λ p, prefix_hits lower t p = true) ps) as Hhit.
  { intros ps t. rewrite !Exists_exists.
    split; intros (p & Hin & Hp); exists p; (split; [done |]);
      revert Hp; unfold prefix_hits; destruct p; cbn [falsy negb andb];
      naive_solver. }
  rewrite Hhit.
  unfold shouldRespondInGroup. cbv zeta.
  pose proof (trim_idemp text) as Hidem.
  set (t := trim text) in *.
  destruct (falsy t) eqn:Hf.
  { split; [done |]. intros [Hne _]. by destruct t. }
  assert (t ≠ []) as Hne by (by destruct t).
  unfold detectCodeRoute, detectSearchRoute.
  rewrite !detectRoute_matched, detectLinkRoute_matched by done.
  rewrite !Exists_app, <- !match_prefix_is_Some, !is_Some_alt.
  destruct (FEISHU_GROUP_MENTION_ONLY cfg),
    (isMentioningBot lower cfg mentions),
    (match_prefix lower (FEISHU_CODE_PREFIXES cfg) t),
    (match_prefix lower (FEISHU_SEARCH_PREFIXES cfg) t),
    (match_prefix lower (FEISHU_LINK_PREFIXES cfg) t),
    (matches_wake_word t); naive_solver.
Qed.

(** ** Routing *)

(** X10. Session keys keep conversations apart: two keys are equal only
    for the same chat and the same kind of route, so a code session
    never shares its key with a conversation session, nor one chat with
    another. *)
Theorem session_keys_distinct (rt : routing) (code1 code2 : bool)
    (chat1 chat2 : str) :
  session_key rt code1 chat1 = session_key rt code2 chat2 →
  code1 = code2 ∧ chat1 = chat2.
Proof.
  unfold session_key. cbv zeta. intros H.
  assert (code1 = code2) as <-.
  { destruct code1, code2; [done | | | done];
      destruct (falsy (FEISHU_SESSION_VERSION rt));
      apply (f_equal head) in H; cbv in H; discriminate H. }
  split; [done |].
  destruct code1; destruct (falsy (FEISHU_SESSION_VERSION rt)).
  - by apply app_inv_head, app_inv_head, app_inv_head in H.
  - rewrite <- !app_assoc in H.
    apply app_inv_head, app_inv_head, app_inv_head in H.
    by apply app_inv_tail in H.
  - by apply app_inv_head in H.
  - rewrite <- !app_assoc in H. apply app_inv_head in H.
    by apply app_inv_tail in H.
Qed.

Lemma session_keys_distinct_witness :
  true = true ∧ lit "oc_1" = lit "oc_1".
Proof.
  apply (session_keys_distinct default_routing true true
           (lit "oc_1") (lit "oc_1")).
  reflexivity.
Defined.

(** X11. The code route has priority over the search route.  When
    the link branch does not answer and the lowercased trimmed text
    starts with the lowercased form of a configured code prefix (the
    first one that hits), the handler asks for a task if nothing follows
    the prefix, and otherwise schedules [processMessage] with the
    trimmed rest, the code agent and the code session key; no search
    directive is added, whatever the task says. *)
Theorem code_route_priority (lower : str → str)
    (parseLinksToMarkdown : list str → str) (cfg : config) (rt : routing)
    (group : bool) (before after : list str) (p q r chatId text : str) :
  link_markdown lower parseLinksToMarkdown cfg rt group text = [] →
  FEISHU_CODE_PREFIXES cfg = before ++ p :: after →
  trim text = q ++ r →
  Forall (λ p', prefix_hits lower (q ++ r) p' = false) before →
  p ≠ [] → length q = length p →
  startsWith (lower (q ++ r)) (lower p) = true →
  route_message lower parseLinksToMarkdown cfg rt group chatId text
  = if falsy (trim r) then AskForTask
    else Process (trim r) (CLAWDBOT_CODE_AGENT_ID rt)
                 (session_key rt true chatId).
Proof.
  intros Hlink Hcfg Htrim Hbefore Hp Hlen Hq. unfold route_message.
  cbv zeta. rewrite Hlink. cbn [falsy negb].
  unfold detectCodeRoute. rewrite Hcfg.
  rewrite (detectRoute_hit lower before after p q r text) by done.
  cbn [fst snd negb andb]. by destruct (falsy (trim r)).
Qed.

Lemma code_route_priority_witness :
  route_message toLowerCase_latin1 (λ _, lit "# page")
    default_config default_routing false (lit "oc_1")
    (lit "coding: search the logs for errors")
  = Process (lit "search the logs for errors") (lit "coding")
            (lit "agent:coding:feishu:oc_1").
Proof.
  apply (code_route_priority toLowerCase_latin1 (λ _, lit "# page")
           default_config default_routing false []
           [lit "@code"; lit "@coding"; lit "/code"]
           (lit "coding:") (lit "coding:")
           (lit " search the logs for errors"));
    [vm_compute; reflexivity | reflexivity | reflexivity | constructor
    | done | reflexivity | reflexivity].
Defined.

(** X12. When the link branch does not answer, a text that matches no
    code prefix and starts with a search prefix makes the handler
    schedule [processMessage] with the search directive, a newline and
    the trimmed query, the default agent and the conversation session
    key. *)
Theorem search_route_adds_directive (lower : str → str)
    (parseLinksToMarkdown : list str → str) (cfg : config) (rt : routing)
    (group : bool) (before after : list str) (p q r chatId text : str) :
  link_markdown lower parseLinksToMarkdown cfg rt group text = [] →
  Forall (λ p', prefix_hits lower (q ++ r) p' = false)
         (FEISHU_CODE_PREFIXES cfg) →
  FEISHU_SEARCH_PREFIXES cfg = before ++ p :: after →
  trim text = q ++ r →
  Forall (λ p', prefix_hits lower (q ++ r) p' = false) before →
  p ≠ [] → length q = length p →
  startsWith (lower (q ++ r)) (lower p) = true →
  route_message lower parseLinksToMarkdown cfg rt group chatId text
  = Process (FEISHU_EXA_DIRECTIVE rt ++ nl ++ trim r)
            (CLAWDBOT_AGENT_ID rt) (session_key rt false chatId).
Proof.
  intros Hlink Hcode Hcfg Htrim Hbefore Hp Hlen Hq. unfold route_message.
  cbv zeta. rewrite Hlink. cbn [falsy negb].
  unfold detectCodeRoute, detectSearchRoute.
  rewrite (detectRoute_miss lower _ text) by (by rewrite Htrim).
  cbn [fst snd negb andb]. rewrite Htrim.
  assert (falsy (q ++ r) = false) as ->.
  { destruct q; [| done]. by destruct p. }
  rewrite Hcfg.
  rewrite (detectRoute_hit lower before after p q r (q ++ r));
    [done | | done | done | done | done].
  rewrite <- Htrim. apply trim_idemp.
Qed.

Lemma search_route_adds_directive_witness :
  route_message toLowerCase_latin1 (λ _, lit "# page")
    default_config default_routing false (lit "oc_1")
    (lit "search: rocq 9 release notes")
  = Process (FEISHU_EXA_DIRECTIVE default_routing ++ nl
             ++ lit "rocq 9 release notes")
            (lit "main") (lit "feishu:oc_1").
Proof.
  apply (search_route_adds_directive toLowerCase_latin1 (λ _, lit "# page")
           default_config default_routing false []
           [lit "@search"; lit "研究:"; lit "@research"]
           (lit "search:") (lit "search:") (lit " rocq 9 release notes"));
    [vm_compute; reflexivity | vm_compute; repeat constructor | reflexivity
    | reflexivity | constructor | done | reflexivity | reflexivity].
Defined.

(** X13. When the link branch does not answer, a text that matches
    neither a code nor a search prefix makes the handler schedule
    [processMessage] with the trimmed text, the default agent and the
    conversation session key; the search directive is put in front
    exactly when forcing is on and the text holds one of the search
    keywords. *)
Theorem conversation_route (lower : str → str)
    (parseLinksToMarkdown : list str → str) (cfg : config) (rt : routing)
    (group : bool) (chatId text : str) :
  link_markdown lower parseLinksToMarkdown cfg rt group text = [] →
  trim text ≠ [] →
  Forall (λ p, prefix_hits lower (trim text) p = false)
         (FEISHU_CODE_PREFIXES cfg ++ FEISHU_SEARCH_PREFIXES cfg) →
  route_message lower parseLinksToMarkdown cfg rt group chatId text
  = Process (if FEISHU_FORCE_EXA_ON_SEARCH rt && isSearchIntent (trim text)
             then FEISHU_EXA_DIRECTIVE rt ++ nl ++ trim text
             else trim text)
            (CLAWDBOT_AGENT_ID rt) (session_key rt false chatId).
Proof.
  intros Hlink Hne [Hcode Hsearch]%Forall_app. unfold route_message.
  cbv zeta. rewrite Hlink. cbn [falsy negb].
  unfold detectCodeRoute, detectSearchRoute.
  rewrite (detectRoute_miss lower _ text) by done. cbn [fst snd negb andb].
  assert (falsy (trim text) = false) as -> by (by destruct (trim text)).
  rewrite (detectRoute_miss lower _ (trim text)) by (by rewrite trim_idemp).
  cbn [fst snd orb]. done.
Qed.

Lemma conversation_route_witness :
  route_message toLowerCase_latin1 (λ _, lit "# page")
    default_config default_routing false (lit "oc_1")
    (lit " please lookup the sources ")
  = Process (FEISHU_EXA_DIRECTIVE default_routing ++ nl
             ++ lit "please lookup the sources")
            (lit "main") (lit "feishu:oc_1").
Proof.
  rewrite conversation_route.
  - vm_compute. reflexivity.
  - vm_compute. reflexivity.
  - vm_compute. congruence.
  - vm_compute. repeat constructor.
Defined.

(** ** Gateway protocol client: further properties *)

Module GatewayMore.
Import Gateway GatewayFacts GatewayRun GatewayFrames.

Lemma close_and_settle_keeps r st o :
  outcome st = Some o → outcome (close_and_settle r st) = Some o.
Proof. intros H. unfold close_and_settle; cbn [outcome]. by rewrite H. Qed.

Lemma on_lifecycle_keeps_outcome p st o :
  outcome st = Some o → outcome (on_lifecycle p st) = Some o.
Proof.
  intros Ho. unfold on_lifecycle.
  destruct (is_str (phase_of p) (lit "end"));
    destruct (is_str (phase_of p) (lit "error"));
    repeat apply close_and_settle_keeps; done.
Qed.

Lemma handle_keeps_outcome inv st i o :
  outcome st = Some o → outcome (handle inv st i) = Some o.
Proof.
  intros Ho. destruct i as [[m |] | e]; cbn [handle on_message on_error];
    [| done | by apply close_and_settle_keeps].
  repeat (case_match; try done;
          try (by apply close_and_settle_keeps);
          try (by apply on_lifecycle_keeps_outcome)).
Qed.

Lemma fold_handle_keeps_outcome inv more : ∀ st o,
  outcome st = Some o → outcome (fold_left (handle inv) more st) = Some o.
Proof.
  induction more as [|i more IH]; intros st o Ho; [done |].
  cbn [fold_left]. apply IH. by apply handle_keeps_outcome.
Qed.

Lemma run_app inv ins more :
  run inv (ins ++ more) = fold_left (handle inv) more (run inv ins).
Proof. unfold run. by rewrite fold_left_app. Qed.

Lemma handshake_state inv rid :
  rid ≠ [] →
  run inv (handshake rid)
  = {| runId := Some rid; buf := []; outcome := None; closes := 0;
       sent := [ReqConnect; agent_request inv]; deltas := [] |}.
Proof.
  intros Hne. unfold run, handshake.
  cbn [fold_left handle on_message connect_challenge res_connect_ok
    res_agent_ok m_type m_event m_id m_ok m_payload p_runId].
  eval_is_str. cbn [andb negb]. destruct rid; [done |]. reflexivity.
Qed.

Lemma foreign_event_ignored inv st p rid :
  runId st = Some rid → rid ≠ [] → p_runId p ≠ Some rid →
  handle inv st (Message (Some (agent_event p))) = st.
Proof.
  intros Hrid Hne Hp. cbn [handle]. unfold on_message, agent_event.
  cbn [m_type m_event m_id m_payload]. eval_is_str. cbn [andb].
  assert (other_run st p = true) as ->; [| done].
  unfold other_run. rewrite Hrid.
  destruct rid; [done |]. cbn [falsy negb andb].
  destruct (p_runId p) as [r' |]; [| done].
  unfold JS.eqb. rewrite bool_decide_eq_false_2; [done |].
  intros ->. done.
Qed.

Lemma snapshot_step inv st rid t :
  runId st = Some rid → rid ≠ [] →
  handle inv st (snapshot_input rid t)
  = {| runId := runId st; buf := t; outcome := outcome st;
       closes := closes st; sent := sent st;
       deltas := if has_onDelta inv then deltas st ++ [t] else deltas st |}.
Proof.
  intros Hrid Hne. unfold snapshot_input, handle, on_message, agent_event.
  cbn [m_type m_event m_id m_payload]. eval_is_str. cbn [andb].
  unfold other_run. rewrite Hrid.
  cbn [assistant_snapshot p_runId p_stream].
  unfold JS.eqb. rewrite bool_decide_eq_true_2 by done.
  destruct rid; [done |]. cbn [falsy negb andb]. eval_is_str.
  unfold on_assistant. cbn [p_data d_text]. by rewrite Hrid.
Qed.

End GatewayMore.

(** X14. The promise of an invocation settles at most once: whatever
    the socket delivers after the promise has been resolved or rejected,
    its outcome stays the same. *)
Theorem promise_settles_once (inv : Gateway.invocation)
    (ins more : list Gateway.input) (o : Gateway.settled) :
  Gateway.outcome (Gateway.run inv ins) = Some o →
  Gateway.outcome (Gateway.run inv (ins ++ more)) = Some o.
Proof.
  intros Ho. rewrite GatewayMore.run_app.
  by apply GatewayMore.fold_handle_keeps_outcome.
Qed.

Lemma promise_settles_once_witness :
  let inv := {| Gateway.text := lit "hi"; Gateway.sessionKey := lit "s";
                Gateway.agentId := []; Gateway.has_onDelta := false |} in
  Gateway.outcome
    (Gateway.run inv
       ([Gateway.SocketError (lit "ECONNREFUSED")] ++
        [Gateway.Message (Some (Gateway.agent_event
           (Gateway.lifecycle_end None)))]))
  = Some (Gateway.Rejected (lit "ECONNREFUSED")).
Proof.
  intros inv. apply promise_settles_once. reflexivity.
Defined.

(** X15. The socket is closed exactly when the promise is settled: after
    any inputs, the promise is pending if and only if [ws.close()] has
    not been called. *)
Theorem closed_iff_settled (inv : Gateway.invocation)
    (ins : list Gateway.input) :
  Gateway.outcome (Gateway.run inv ins) = None ↔
  Gateway.closes (Gateway.run inv ins) = 0%nat.
Proof. apply GatewayFacts.run_inv. Qed.

(** X16. Failures of the handshake.  After the challenge, a refused
    connect rejects the promise with the error message of the response
    (or [connect failed]), closes the socket, and the agent request is
    never sent; after an accepted connect, a refused agent request
    rejects with its error message (or [agent error]) and closes the
    socket. *)
Theorem handshake_failures (inv : Gateway.invocation) (e : option str) :
  let st1 := Gateway.run inv
               [Gateway.Message (Some Gateway.connect_challenge);
                Gateway.Message (Some (GatewayFrames.res_connect_fail e))] in
  let st2 := Gateway.run inv
               [Gateway.Message (Some Gateway.connect_challenge);
                Gateway.Message (Some Gateway.res_connect_ok);
                Gateway.Message (Some (GatewayFrames.res_agent_fail e))] in
  Gateway.outcome st1
  = Some (Gateway.Rejected (Gateway.or_default e (lit "connect failed"))) ∧
  Gateway.closes st1 = 1%nat ∧ Gateway.sent st1 = [Gateway.ReqConnect] ∧
  Gateway.outcome st2
  = Some (Gateway.Rejected (Gateway.or_default e (lit "agent error"))) ∧
  Gateway.closes st2 = 1%nat ∧
  Gateway.sent st2 = [Gateway.ReqConnect; GatewayFrames.agent_request inv].
Proof.
  cbv zeta. unfold Gateway.run.
  cbn [fold_left Gateway.handle Gateway.on_message Gateway.connect_challenge
    Gateway.res_connect_ok GatewayFrames.res_connect_fail
    GatewayFrames.res_agent_fail Gateway.m_type Gateway.m_event Gateway.m_id
    Gateway.m_ok Gateway.m_error_message Gateway.m_payload].
  GatewayFacts.eval_is_str. cbn [andb negb]. repeat split.
Qed.

(** X17. Events of another run are ignored: once the run id is known,
    an agent event that carries another run id (or none) changes
    nothing, wherever it arrives in the stream. *)
Theorem foreign_run_events_ignored (inv : Gateway.invocation)
    (ins more : list Gateway.input) (p : Gateway.payload) (rid : str) :
  Gateway.runId (Gateway.run inv ins) = Some rid → rid ≠ [] →
  Gateway.p_runId p ≠ Some rid →
  Gateway.run inv
    (ins ++ Gateway.Message (Some (Gateway.agent_event p)) :: more)
  = Gateway.run inv (ins ++ more).
Proof.
  intros Hrid Hne Hp. rewrite !GatewayMore.run_app. cbn [fold_left].
  by rewrite (GatewayMore.foreign_event_ignored inv _ p rid).
Qed.

Lemma foreign_run_events_ignored_witness :
  let inv := {| Gateway.text := lit "hi"; Gateway.sessionKey := lit "s";
                Gateway.agentId := []; Gateway.has_onDelta := true |} in
  Gateway.run inv
    (GatewayFrames.handshake (lit "r1") ++
     Gateway.Message (Some (Gateway.agent_event
       (Gateway.lifecycle_end (Some (lit "r2")))))
     :: [Gateway.delta_input (lit "r1") (lit "ok")])
  = Gateway.run inv
      (GatewayFrames.handshake (lit "r1")
       ++ [Gateway.delta_input (lit "r1") (lit "ok")]).
Proof.
  intros inv. apply (foreign_run_events_ignored inv _ _ _ (lit "r1")).
  - reflexivity.
  - done.
  - vm_compute. congruence.
Defined.

(** X18. A snapshot replaces the buffer and deltas extend it: after the
    handshake, whatever deltas came first, a full-text snapshot [t]
    followed by the deltas [ds] and the lifecycle end resolves the
    promise with [t ++ concat ds], trimmed. *)
Theorem snapshot_replaces_buffer (inv : Gateway.invocation)
    (rid t : str) (ds0 ds : list str) :
  rid ≠ [] →
  Gateway.outcome
    (Gateway.run inv
       (GatewayFrames.handshake rid
        ++ List.map (Gateway.delta_input rid) ds0
        ++ GatewayFrames.snapshot_input rid t
           :: List.map (Gateway.delta_input rid) ds
        ++ [Gateway.Message (Some (Gateway.agent_event
              (Gateway.lifecycle_end (Some rid))))]))
  = Some (Gateway.Resolved (trim (t ++ concat ds))).
Proof.
  intros Hne. rewrite GatewayMore.run_app, GatewayMore.handshake_state by done.
  rewrite fold_left_app.
  match goal with
  | |- context [fold_left _ (List.map _ ds0) ?s] => set (st0 := s)
  end.
  destruct (GatewayRun.deltas_accumulate inv rid ds0 st0 Hne eq_refl)
    as (R1 & _ & O1 & C1 & _ & _).
  set (st1 := fold_left _ (List.map _ ds0) st0) in *.
  cbn [fold_left].
  rewrite (GatewayMore.snapshot_step inv st1 rid t R1 Hne).
  rewrite fold_left_app.
  match goal with
  | |- context [fold_left _ (List.map _ ds) ?s] => set (st2 := s)
  end.
  destruct (GatewayRun.deltas_accumulate inv rid ds st2 Hne R1)
    as (R3 & B3 & O3 & C3 & _ & _).
  set (st3 := fold_left _ (List.map _ ds) st2) in *.
  cbn [fold_left Gateway.handle].
  rewrite (GatewayFacts.on_message_lifecycle inv st3 _
             (Gateway.lifecycle_end (Some rid))); try reflexivity.
  2:{ unfold Gateway.other_run. rewrite R3.
      cbn [Gateway.lifecycle_end Gateway.p_runId].
      unfold JS.eqb. rewrite bool_decide_eq_true_2 by done.
      by destruct rid. }
  unfold Gateway.on_lifecycle.
  cbn [Gateway.phase_of Gateway.lifecycle_end Gateway.p_data Gateway.d_phase].
  GatewayFacts.eval_is_str. cbv iota.
  unfold Gateway.close_and_settle. cbn [Gateway.outcome].
  rewrite O3, B3. subst st2. cbn [Gateway.outcome Gateway.buf].
  by rewrite O1.
Qed.

Lemma snapshot_replaces_buffer_witness :
  let inv := {| Gateway.text := lit "hi"; Gateway.sessionKey := lit "s";
                Gateway.agentId := []; Gateway.has_onDelta := true |} in
  Gateway.outcome
    (Gateway.run inv
       (GatewayFrames.handshake (lit "r1")
        ++ List.map (Gateway.delta_input (lit "r1")) [lit "dra"; lit "ft"]
        ++ GatewayFrames.snapshot_input (lit "r1") (lit "Final")
           :: List.map (Gateway.delta_input (lit "r1")) [lit " text "]
        ++ [Gateway.Message (Some (Gateway.agent_event
              (Gateway.lifecycle_end (Some (lit "r1")))))]))
  = Some (Gateway.Resolved (lit "Final text")).
Proof.
  intros inv.
  apply (snapshot_replaces_buffer inv (lit "r1") (lit "Final")
           [lit "dra"; lit "ft"] [lit " text "]).
  done.
Defined.

(** Witness of the happy path for two deltas. *)
Lemma happy_path_witness :
  let inv := {| Gateway.text := lit "hi"; Gateway.sessionKey := lit "s";
                Gateway.agentId := []; Gateway.has_onDelta := true |} in
  Gateway.outcome
    (Gateway.run inv
       ([Gateway.Message (Some Gateway.connect_challenge);
         Gateway.Message (Some Gateway.res_connect_ok);
         Gateway.Message (Some (Gateway.res_agent_ok (lit "r1")))]
        ++ List.map (Gateway.delta_input (lit "r1")) [lit "Hel"; lit "lo "]
        ++ [Gateway.Message (Some (Gateway.agent_event
              (Gateway.lifecycle_end (Some (lit "r1")))))]))
  = Some (Gateway.Resolved (lit "Hello")).
Proof.
  intros inv.
  pose proof (GatewayRun.happy_path inv (lit "r1") [lit "Hel"; lit "lo "])
    as H.
  cbv zeta in H. destruct H as [H _]; [done |]. exact H.
Defined.

(** ** Card elements: shape of the output *)

Section CardShape.

Lemma count_tables_app (a b : list element) :
  count_tables (a ++ b) = (count_tables a + count_tables b)%nat.
Proof. unfold count_tables. by rewrite List.filter_app, length_app. Qed.

Lemma flush_tableCount st : tableCount (flush st) = tableCount st.
Proof. done. Qed.

Lemma flush_count_tables st :
  count_tables (elements (flush st)) = count_tables (elements st).
Proof.
  unfold flush. cbn [elements]. destruct (falsy _); [done |].
  rewrite count_tables_app. cbn. lia.
Qed.

Lemma flush_elements_ok st :
  Forall element_ok (elements st) → Forall element_ok (elements (flush st)).
Proof.
  intros H. unfold flush. cbn [elements].
  destruct (trim (join nl (buffer st))) eqn:Hc; [done |].
  cbn [falsy]. apply Forall_app. split; [done |].
  by repeat constructor.
Qed.

Lemma buildTableElement_Some headers rows e :
  buildTableElement headers rows = Some e →
  e = Table headers rows ∧ headers ≠ [] ∧ rows ≠ [].
Proof.
  unfold buildTableElement. destruct headers, rows; intros H; try done.
  by inversion H.
Qed.

(** The counter of the loop is the number of table elements pushed,
    and it stays within the cap. *)
Lemma card_loop_tables (fuel : nat) : ∀ (lines : list str) (i : nat)
    (st : card_state),
  count_tables (elements st) = tableCount st →
  (tableCount st ≤ TABLE_CAP)%nat →
  count_tables (elements (card_loop fuel lines i st))
  = tableCount (card_loop fuel lines i st) ∧
  (tableCount (card_loop fuel lines i st) ≤ TABLE_CAP)%nat.
Proof.
  induction fuel as [|f IH]; intros lines i st Hc Hle; [done |].
  cbn [card_loop]. destruct (lines !! i); [| done]. cbv zeta.
  repeat case_match; try (apply IH; cbn [elements tableCount push_line];
                          try rewrite flush_count_tables; done).
  apply IH; cbn [elements tableCount].
  - match goal with H : buildTableElement _ _ = Some _ |- _ =>
      apply buildTableElement_Some in H as (-> & _ & _) end.
    rewrite count_tables_app, flush_count_tables, flush_tableCount.
    cbn. lia.
  - rewrite flush_tableCount.
    match goal with H : (_ <? _)%nat = true |- _ =>
      apply Nat.ltb_lt in H end.
    lia.
Qed.

Lemma card_loop_elements_ok (fuel : nat) : ∀ (lines : list str) (i : nat)
    (st : card_state),
  Forall element_ok (elements st) →
  Forall element_ok (elements (card_loop fuel lines i st)).
Proof.
  induction fuel as [|f IH]; intros lines i st Hok; [done |].
  cbn [card_loop]. destruct (lines !! i); [| done]. cbv zeta.
  repeat case_match; try (apply IH; cbn [elements push_line];
                          try apply flush_elements_ok; done).
  apply IH; cbn [elements]. apply Forall_app. split.
  - by apply flush_elements_ok.
  - match goal with H : buildTableElement _ _ = Some _ |- _ =>
      apply buildTableElement_Some in H as (-> & ? & ?) end.
    by repeat constructor.
Qed.

Lemma or_space_nonempty (a : str) : or_space a ≠ [].
Proof. unfold or_space. by destruct a. Qed.

Lemma buildCardElements_tables (b : bool) (text : str) :
  (count_tables (buildCardElements b text) ≤ TABLE_CAP)%nat.
Proof.
  unfold buildCardElements.
  destruct (falsy text); [cbn; lia |].
  destruct (negb b); [cbn; lia |]. cbv zeta.
  match goal with |- context [card_loop ?f ?l ?i ?s] =>
    destruct (card_loop_tables f l i s) as [Hc Hle]; [done | cbn; lia |];
    set (st := card_loop f l i s) in * end.
  pose proof (flush_count_tables st) as Hf.
  destruct (elements (flush st)) eqn:He; [cbn; lia |].
  rewrite Hf, Hc. done.
Qed.

Lemma buildCardElements_ok (b : bool) (text : str) :
  Forall element_ok (buildCardElements b text).
Proof.
  unfold buildCardElements.
  destruct (falsy text); [constructor |].
  destruct (negb b).
  { repeat constructor. apply or_space_nonempty. }
  cbv zeta.
  match goal with |- context [card_loop ?f ?l ?i ?s] =>
    pose proof (card_loop_elements_ok f l i s) as Hok;
    set (st := card_loop f l i s) in * end.
  pose proof (flush_elements_ok st (Hok ltac:(constructor))) as Hf.
  destruct (elements (flush st)) eqn:He; [| done].
  repeat constructor. apply or_space_nonempty.
Qed.

Lemma buildCardElements_nonempty (b : bool) (text : str) :
  text ≠ [] → buildCardElements b text ≠ [].
Proof.
  intros Hne. unfold buildCardElements.
  destruct text; [done |]. cbn [falsy].
  destruct (negb b); [done |]. cbv zeta.
  by case_match.
Qed.

End CardShape.

(** X20. A card never holds more than five table elements, whatever the
    reply: the table counter of [buildCardElements] is the number of
    table elements it has pushed, and a table is pushed only while the
    counter is below the cap.  The same holds for the body of the card
    that [buildMarkdownCard] builds. *)
Theorem card_table_cap (table_enabled : bool) (text : str) :
  (count_tables (buildCardElements table_enabled text) ≤ TABLE_CAP)%nat ∧
  (count_tables (body_elements (buildMarkdownCard table_enabled text))
   ≤ TABLE_CAP)%nat.
Proof.
  split; [apply buildCardElements_tables |].
  unfold buildMarkdownCard. destruct (extractHeaderAndBody text) as [title body].
  cbv zeta. cbn [body_elements].
  pose proof (buildCardElements_tables table_enabled body) as H.
  destruct (buildCardElements table_enabled body); [cbn; lia | done].
Qed.

(** X21. The body of a card is never empty and holds nothing that
    cannot be rendered: every markdown element has content (a single
    space when nothing else is left) and every table has columns and
    rows.  [buildCardElements] gives no element only for the empty
    text. *)
Theorem card_body_renderable (table_enabled : bool) (text : str) :
  body_elements (buildMarkdownCard table_enabled text) ≠ [] ∧
  Forall element_ok (body_elements (buildMarkdownCard table_enabled text)) ∧
  Forall element_ok (buildCardElements table_enabled text) ∧
  (buildCardElements table_enabled text = [] ↔ text = []).
Proof.
  assert (body_elements (buildMarkdownCard table_enabled text) ≠ [] ∧
          Forall element_ok
            (body_elements (buildMarkdownCard table_enabled text)))
    as [H1 H2].
  { unfold buildMarkdownCard.
    destruct (extractHeaderAndBody text) as [title body].
    cbv zeta. cbn [body_elements].
    pose proof (buildCardElements_ok table_enabled body) as H.
    destruct (buildCardElements table_enabled body).
    - split; [done |]. repeat constructor. apply or_space_nonempty.
    - done. }
  repeat split; try done.
  - apply buildCardElements_ok.
  - intros H. destruct text; [done |].
    by apply buildCardElements_nonempty in H.
  - by intros ->.
Qed.

(** ** Card elements: text without tables to convert *)

Section CardPlain.

Lemma drop_while_keeps {A} (p : A → bool) (l : list A) (x : A) :
  x ∈ l → p x = false → x ∈ drop_while p l.
Proof.
  intros Hin Hp. induction l as [|y l IH]; [done |].
  cbn. destruct (p y) eqn:Hy; [| done].
  apply elem_of_cons in Hin as [-> | Hin]; [congruence | by apply IH].
Qed.

Lemma elem_of_rev {A} (l : list A) (x : A) : x ∈ rev l ↔ x ∈ l.
Proof. rewrite !list_elem_of_In. symmetry. apply in_rev. Qed.

(** Trimming keeps every character that is not white space. *)
Lemma trim_keeps (s : str) (x : char) :
  x ∈ s → is_space x = false → x ∈ trim s.
Proof.
  intros Hin Hx. unfold trim, trimEnd, trimStart.
  apply elem_of_rev. apply drop_while_keeps; [| done].
  apply elem_of_rev. by apply drop_while_keeps.
Qed.

Lemma card_loop_kept (seg : list str) : ∀ (pre post : list str) (f : nat)
    (st : card_state),
  rows_fenced (inCodeFence st) seg →
  ∃ b : bool,
    card_loop (length seg + f) (pre ++ seg ++ post) (length pre) st
    = card_loop f (pre ++ seg ++ post) (length pre + length seg)
        {| elements := elements st; buffer := buffer st ++ seg;
           tableCount := tableCount st; inCodeFence := b |}.
Proof.
  induction seg as [|l seg IH]; intros pre post f st Hk.
  - exists (inCodeFence st). cbn [length Nat.add].
    rewrite Nat.add_0_r, app_nil_r. by destruct st.
  - cbn [length Nat.add card_loop].
    change ((l :: seg) ++ post) with (l :: seg ++ post).
    rewrite list_lookup_middle by done.
    cbn [rows_fenced] in Hk.
    assert (pre ++ l :: seg ++ post = (pre ++ [l]) ++ seg ++ post) as Hl
      by (by rewrite <- app_assoc).
    assert (S (length pre) = length (pre ++ [l])) as Hn
      by (rewrite length_app; cbn; lia).
    assert (length pre + S (length seg) = length (pre ++ [l]) + length seg)%nat
      as Hm by lia.
    assert (∀ b0 : list str, (b0 ++ [l]) ++ seg = b0 ++ l :: seg) as Hb
      by (intros; by rewrite <- app_assoc).
    assert (∀ st1 : card_state,
              rows_fenced (inCodeFence st1) seg →
              elements st1 = elements st →
              buffer st1 = buffer st ++ [l] →
              tableCount st1 = tableCount st →
              ∃ b : bool,
                card_loop (length seg + f) (pre ++ l :: seg ++ post)
                  (S (length pre)) st1
                = card_loop f (pre ++ l :: seg ++ post)
                    (length pre + S (length seg))
                    {| elements := elements st;
                       buffer := buffer st ++ l :: seg;
                       tableCount := tableCount st; inCodeFence := b |})
      as Hnext.
    { intros st1 Hk1 He Hbuf Ht. rewrite Hl, Hn, Hm.
      destruct (IH (pre ++ [l]) post f st1 Hk1) as [b Hb'].
      exists b. rewrite Hb', He, Hbuf, Ht. by rewrite Hb. }
    destruct (startsWith (trim l) (lit "```")) eqn:Hf.
    + by apply Hnext.
    + destruct Hk as [Hin Hk].
      destruct (inCodeFence st) eqn:Hi.
      * apply Hnext; try done. cbn [push_line inCodeFence]. by rewrite Hi.
      * destruct Hin as [Hin | Hrow]; [done |]. rewrite Hrow.
        cbn [andb]. apply Hnext; try done.
        cbn [push_line inCodeFence]. by rewrite Hi.
Qed.

End CardPlain.

(** X22. Tables inside code fences are left alone.  When every table
    row of a reply lies inside a fenced code block (in particular when
    the reply has no table row at all) and the reply is not blank, the
    body built for it is one markdown element that holds the reply as it
    is, trimmed at both ends. *)
Theorem fenced_tables_untouched (text : str) :
  rows_fenced false (split 10 text) →
  trim text ≠ [] →
  buildCardElements true text = [Markdown (trim text)].
Proof.
  intros Hk Hne. unfold buildCardElements.
  destruct text as [|c text']; [done |]. cbn [falsy negb]. cbv zeta.
  set (text := c :: text') in *. set (lines := split 10 text) in *.
  destruct (card_loop_kept lines [] [] 0
              {| elements := []; buffer := []; tableCount := 0;
                 inCodeFence := false |} Hk) as [b Hb].
  cbn [app length Nat.add elements buffer tableCount] in Hb.
  rewrite Nat.add_0_r, app_nil_r in Hb. rewrite Hb.
  cbn [card_loop flush elements buffer].
  unfold lines. rewrite join_split.
  destruct (trim text) eqn:Ht; [done |]. done.
Qed.

Lemma fenced_tables_untouched_witness :
  buildCardElements true
    (text_of_lines ["```"; "| a | b |"; "| --- | --- |"; "| 1 | 2 |"; "```"])
  = [Markdown
       (text_of_lines ["```"; "| a | b |"; "| --- | --- |"; "| 1 | 2 |"; "```"])].
Proof.
  rewrite fenced_tables_untouched.
  - vm_compute. reflexivity.
  - vm_compute. tauto.
  - vm_compute. congruence.
Defined.

(** ** Table flattening: what passes unchanged and what comes out *)

Section CharsKept.

Variable P : char → Prop.

Lemma Forall_drop_while {A} (Q : A → Prop) (p : A → bool) (l : list A) :
  Forall Q l → Forall Q (drop_while p l).
Proof.
  induction 1 as [|x l Hx Hl IH]; [constructor |].
  cbn. destruct (p x); [done | by constructor].
Qed.

Lemma Forall_trim (s : str) : Forall P s → Forall P (trim s).
Proof.
  intros H. unfold trim, trimEnd, trimStart.
  apply Forall_rev, Forall_drop_while, Forall_rev.
  by apply Forall_drop_while.
Qed.

Lemma Forall_split (sep : char) (s : str) :
  Forall P s → Forall (Forall P) (split sep s).
Proof.
  induction 1 as [|c s Hc Hs IH]; [by repeat constructor |].
  cbn. destruct (c =? sep)%N; [by repeat constructor |].
  destruct (split sep s) as [|l ls]; [by repeat constructor |].
  inversion IH; subst. by repeat constructor.
Qed.

Lemma Forall_join (sep : str) (ls : list str) :
  Forall P sep → Forall (Forall P) ls → Forall P (join sep ls).
Proof.
  intros Hsep. induction 1 as [|l ls Hl Hls IH]; [constructor |].
  cbn. destruct ls; [done |].
  apply Forall_app. split; [done |]. apply Forall_app. by split.
Qed.

End CharsKept.

Section TableFlattening.

Lemma split_single (sep : char) (l : str) :
  Forall (λ c, c ≠ sep) l → split sep l = [l].
Proof.
  induction 1 as [|c l Hc Hl IH]; [done |].
  cbn. rewrite IH. by destruct (N.eqb_spec c sep).
Qed.

Lemma split_app_sep (sep : char) (l r : str) :
  Forall (λ c, c ≠ sep) l → split sep (l ++ sep :: r) = l :: split sep r.
Proof.
  induction 1 as [|c l Hc Hl IH].
  - cbn. by rewrite N.eqb_refl.
  - cbn [app split]. rewrite IH. by destruct (N.eqb_spec c sep).
Qed.

(** Splitting at the newlines undoes joining lines that hold none. *)
Lemma split_join (ls : list str) :
  ls ≠ [] → Forall (Forall (λ c, c ≠ 10%N)) ls → split 10 (join nl ls) = ls.
Proof.
  intros Hne Hall. induction Hall as [|l ls Hl Hls IH]; [done |].
  destruct ls as [|l2 rest]; [by apply split_single |].
  change (join nl (l :: l2 :: rest)) with (l ++ 10%N :: join nl (l2 :: rest)).
  rewrite split_app_sep by done. f_equal. by apply IH.
Qed.

(** Lines that are no table lines pass unchanged. *)
Lemma convert_lines_plain (lines : list str) : ∀ headers,
  Forall (λ l, piped (trim l) = false) lines →
  convert_lines headers lines = lines.
Proof.
  induction lines as [|l lines IH]; intros headers Hall; [done |].
  inversion Hall as [|? ? Hl Hrest]; subst.
  cbn [convert_lines]. cbv zeta. rewrite Hl. f_equal. by apply IH.
Qed.

Lemma head_trim (x : char) (s : str) :
  is_space x = false → head (trim (x :: s)) = Some x.
Proof.
  intros Hx. unfold trim, trimStart. cbn [drop_while]. rewrite Hx.
  destruct (trimEnd_prefix (x :: s)) as [tl Htl].
  assert (x ∈ trimEnd (x :: s)) as Hin.
  { unfold trimEnd. apply elem_of_rev. apply drop_while_keeps; [| done].
    apply elem_of_rev. left. }
  destruct (trimEnd (x :: s)) as [|y u]; [by apply elem_of_nil in Hin |].
  cbn in Htl. by inversion Htl.
Qed.

Lemma bullet_not_piped (rest : str) :
  piped (trim (lit "• " ++ rest)) = false.
Proof.
  change (lit "• ") with [8226%N; 32%N]. cbn [app].
  pose proof (head_trim 8226 (32%N :: rest) eq_refl) as Hh.
  destruct (trim (8226%N :: 32%N :: rest)) as [|y t]; [done |].
  cbn in Hh. by inversion Hh.
Qed.

Lemma cells_no_newline (line : str) :
  Forall (λ c, c ≠ 10%N) line →
  Forall (Forall (λ c, c ≠ 10%N))
    (List.map trim
       (List.filter (λ c, negb (falsy (trim c))) (split pipe (trim line)))).
Proof.
  intros Hl. apply List.Forall_forall. intros c Hc.
  apply in_map_iff in Hc as (c0 & <- & Hc0).
  apply filter_In in Hc0 as [Hc0 _].
  apply Forall_trim.
  pose proof (Forall_split _ pipe _ (Forall_trim _ _ Hl)) as Hs.
  by apply (proj1 (List.Forall_forall _ _) Hs).
Qed.

Lemma bullet_parts_no_newline (headers cells : list str) :
  Forall (Forall (λ c, c ≠ 10%N)) headers →
  Forall (Forall (λ c, c ≠ 10%N)) cells →
  Forall (Forall (λ c, c ≠ 10%N)) (bullet_parts headers cells).
Proof.
  intros Hh Hc. unfold bullet_parts. apply List.Forall_forall. intros x Hx.
  apply in_concat in Hx as (y & Hy & Hx).
  apply list_elem_of_In, elem_of_lookup_imap in Hy as (i & cell & -> & Hi).
  pose proof (Forall_lookup_1 _ _ _ _ Hc Hi) as Hcell.
  destruct (headers !! i) as [key|] eqn:Hk.
  - pose proof (Forall_lookup_1 _ _ _ _ Hh Hk) as Hkey.
    destruct (negb (falsy key) && negb (falsy cell)).
    + destruct Hx as [<- | []]. apply Forall_app. split; [done |].
      apply Forall_app. split; [| done].
      change (lit ": ") with [58%N; 32%N]. by repeat constructor.
    + destruct (negb (falsy cell)); [| done]. by destruct Hx as [<- | []].
  - destruct (negb (falsy cell)); [| done]. by destruct Hx as [<- | []].
Qed.

(** What [convertTablesToList] puts out: lines without a newline that
    are no table lines. *)
Lemma convert_lines_out (lines : list str) : ∀ headers,
  Forall (Forall (λ c, c ≠ 10%N)) lines →
  (∀ hs, headers = Some hs → Forall (Forall (λ c, c ≠ 10%N)) hs) →
  Forall (λ l, Forall (λ c, c ≠ 10%N) l ∧ piped (trim l) = false)
    (convert_lines headers lines).
Proof.
  induction lines as [|l lines IH]; intros headers Hall Hh; [constructor |].
  inversion Hall as [|? ? Hl Hrest]; subst.
  cbn [convert_lines]. cbv zeta.
  destruct (piped (trim l)) eqn:Hp.
  - pose proof (cells_no_newline l Hl) as Hcells.
    destruct (forallb dashes_or_colons _); [by apply IH |].
    destruct headers as [hs|].
    + pose proof (bullet_parts_no_newline hs _ (Hh hs eq_refl) Hcells) as Hparts.
      destruct (bullet_parts hs _) as [|p parts] eqn:Hb; [by apply IH |].
      constructor; [| by apply IH]. split; [| apply bullet_not_piped].
      apply Forall_app. split.
      * change (lit "• ") with [8226%N; 32%N]. by repeat constructor.
      * apply Forall_join; [| done].
        change (lit " | ") with [32%N; 124%N; 32%N]. by repeat constructor.
    + apply IH; [done |]. intros hs [= <-]. done.
  - constructor; [done |]. apply IH; [done |]. intros hs [=].
Qed.

Lemma convertTablesToList_out (text : str) :
  Forall (λ l, piped (trim l) = false) (split 10 (convertTablesToList text)).
Proof.
  unfold convertTablesToList. destruct (falsy text); [by repeat constructor |].
  pose proof (convert_lines_out (split 10 text) None (split_no_sep 10 text))
    as Hout.
  destruct (convert_lines None (split 10 text)) as [|o out] eqn:Ho.
  { by repeat constructor. }
  rewrite split_join; [| done |].
  - eapply Forall_impl; [apply Hout; intros hs [=] |]. by intros l [_ H].
  - eapply Forall_impl; [apply Hout; intros hs [=] |]. by intros l [H _].
Qed.

End TableFlattening.

(** X23. A text without table lines passes [convertTablesToList]
    unchanged: when no line of it, trimmed, both starts and ends with a
    pipe, the result is the text itself. *)
Theorem plain_text_not_converted (text : str) :
  Forall (λ l, piped (trim l) = false) (split 10 text) →
  convertTablesToList text = text.
Proof.
  intros Hall. unfold convertTablesToList.
  destruct text as [|c text']; [done |]. cbn [falsy].
  rewrite convert_lines_plain by done. apply join_split.
Qed.

Lemma plain_text_not_converted_witness :
  convertTablesToList (text_of_lines ["a | b"; ""; "|c"; " - d"])
  = text_of_lines ["a | b"; ""; "|c"; " - d"].
Proof.
  apply plain_text_not_converted. vm_compute. repeat constructor.
Defined.

(** X24. After [convertTablesToList] no table is left: no line of the
    result is a table row or a table separator, and converting the
    result again changes nothing. *)
Theorem conversion_leaves_no_table (text : str) :
  Forall (λ l, isTableRow l = false ∧ isTableSeparator l = false)
    (split 10 (convertTablesToList text)) ∧
  convertTablesToList (convertTablesToList text) = convertTablesToList text.
Proof.
  pose proof (convertTablesToList_out text) as Hout. split.
  - eapply Forall_impl; [exact Hout |]. intros l Hl. cbv beta in Hl.
    unfold isTableRow, isTableSeparator. cbv zeta. by rewrite Hl.
  - set (r := convertTablesToList text) in *.
    unfold convertTablesToList. destruct r as [|c r']; [done |].
    cbn [falsy]. rewrite convert_lines_plain by done. apply join_split.
Qed.

(** ** Column names of a table *)

Section NameFacts.

Lemma dec_inj (a b : N) : dec a = dec b → a = b.
Proof.
  unfold dec. intros H.
  assert (∀ s : string,
            string_of_list_ascii
              (List.map ascii_of_N
                 (List.map N_of_ascii (list_ascii_of_string s))) = s)
    as Hinv.
  { intros s. rewrite map_map, (map_ext _ id), map_id
      by (intros; apply ascii_N_embedding).
    apply string_of_list_ascii_of_string. }
  apply (inj pretty).
  rewrite <- (Hinv (pretty a)), <- (Hinv (pretty b)). by rewrite H.
Qed.

Lemma candidate_inj (base : str) (j k : N) :
  base ++ lit "_" ++ dec j = base ++ lit "_" ++ dec k → j = k.
Proof.
  intros H. apply app_inv_head in H. apply app_inv_head in H.
  by apply dec_inj.
Qed.

Lemma candidate_not_base (base : str) (k : N) :
  base ≠ base ++ lit "_" ++ dec k.
Proof.
  intros H. apply (f_equal (@length _)) in H.
  rewrite length_app in H. change (lit "_") with [95%N] in H.
  cbn [app length] in H. lia.
Qed.

Lemma fill_row_other (names : list str) : ∀ (idx : nat) (cells : list str)
    (row : gmap str str) (name : str),
  name ∉ names → fill_row idx names cells row !! name = row !! name.
Proof.
  induction names as [|n names IH]; intros idx cells row name Hn; [done |].
  cbn [fill_row]. rewrite IH by set_solver.
  apply lookup_insert_ne. set_solver.
Qed.

Lemma fill_row_lookup (names : list str) : ∀ (idx i : nat) (cells : list str)
    (row : gmap str str) (name : str),
  NoDup names → names !! i = Some name →
  fill_row idx names cells row !! name = Some (cell_at cells (idx + i)).
Proof.
  induction names as [|n names IH]; intros idx i cells row name Hnd Hi;
    [done |].
  inversion Hnd as [|? ? Hn Hnd']; subst. cbn [fill_row].
  destruct i as [|i].
  - cbn in Hi. inversion Hi; subst. rewrite fill_row_other by done.
    rewrite Nat.add_0_r. apply lookup_insert_eq.
  - cbn in Hi. rewrite (IH (S idx) i) by done. do 2 f_equal. lia.
Qed.

End NameFacts.

Section ColumnNameFacts.

Variable lower : str → str.

(** The loop ends on a name that [used] does not hold.  [rest] is the
    part of [used] that the candidates still to come can belong to; it
    loses a member at every iteration. *)
Lemma free_name_fresh (fuel : nat) : ∀ (base : str) (used rest : gset str)
    (candidate : str) (counter : N),
  (size rest ≤ fuel)%nat →
  (candidate ∈ used → candidate ∈ rest) →
  (∀ k, (counter ≤ k)%N →
        base ++ lit "_" ++ dec k ∈ used → base ++ lit "_" ++ dec k ∈ rest) →
  (∀ k, (counter ≤ k)%N → candidate ≠ base ++ lit "_" ++ dec k) →
  free_name fuel base used candidate counter ∉ used.
Proof.
  induction fuel as [|f IH]; intros base used rest cand counter Hsz Hc Hk Hne;
    cbn [free_name]; case_bool_decide as Hin; try done.
  - apply Hc in Hin. apply Nat.le_0_r, size_empty_iff in Hsz.
    set_solver.
  - apply Hc in Hin.
    apply (IH base used (rest ∖ {[cand]})).
    + rewrite size_difference by set_solver.
      rewrite size_singleton. lia.
    + intros Hu. apply elem_of_difference. split; [apply Hk; [lia | done] |].
      rewrite elem_of_singleton. intros Heq.
      by apply (Hne counter ltac:(lia)).
    + intros k Hle Hu. apply elem_of_difference.
      split; [apply Hk; [lia | done] |].
      rewrite elem_of_singleton. intros Heq.
      by apply (Hne k ltac:(lia)).
    + intros k Hle Heq. apply candidate_inj in Heq. lia.
Qed.

Lemma sanitizeColumnName_fresh (name : str) (index : nat) (used : gset str) :
  (fst (sanitizeColumnName lower name index used) ∉ used) ∧
  (snd (sanitizeColumnName lower name index used)
   = used ∪ {[fst (sanitizeColumnName lower name index used)]}).
Proof.
  unfold sanitizeColumnName. cbv zeta. cbn [fst snd]. split; [| done].
  apply (free_name_fresh _ _ _ used); try done.
  intros k _. apply candidate_not_base.
Qed.

Lemma column_names_from_spec (headers : list str) : ∀ (index : nat)
    (used : gset str),
  NoDup (column_names_from lower index used headers) ∧
  (∀ n, n ∈ column_names_from lower index used headers → n ∉ used) ∧
  length (column_names_from lower index used headers) = length headers.
Proof.
  induction headers as [|h hs IH]; intros index used.
  - cbn. split; [apply NoDup_nil_2 | split; [| done]]. intros n Hn.
    by apply elem_of_nil in Hn.
  - cbn [column_names_from].
    destruct (sanitizeColumnName_fresh h index used) as [Hfresh Hused].
    destruct (sanitizeColumnName lower h index used) as [name used'].
    cbn [fst snd] in Hfresh, Hused. subst used'.
    destruct (IH (S index) (used ∪ {[name]})) as (Hnd & Hout & Hlen).
    split; [| split].
    + apply NoDup_cons. split; [| done].
      intros Hin. apply Hout in Hin. set_solver.
    + intros n [-> | Hn]%elem_of_cons; [done |].
      apply Hout in Hn. set_solver.
    + cbn [length]. by rewrite Hlen.
Qed.

End ColumnNameFacts.

(** X25. The columns of a table get pairwise different names, one for
    every header cell, whatever the header cells are (empty, equal to
    one another, equal to a name generated for another column) and
    whatever lower-casing does to them: the loop of [sanitizeColumnName]
    always ends on a name that has not been used. *)
Theorem column_names_unique (lower : str → str) (headers : list str) :
  NoDup (column_names lower headers) ∧
  length (column_names lower headers) = length headers.
Proof.
  destruct (column_names_from_spec lower headers 0 ∅) as (H1 & _ & H2).
  by split.
Qed.

(** X26. No cell of a row is lost to a clash of column names: in the
    row object built for a table, the entry under the name of the
    column at index [idx] is the cell at index [idx] of the row (the
    empty string when the row is shorter). *)
Theorem row_cell_by_column (lower : str → str) (headers cells : list str)
    (idx : nat) (name : str) :
  column_names lower headers !! idx = Some name →
  row_object (column_names lower headers) cells !! name
  = Some (cell_at cells idx).
Proof.
  intros Hi. unfold row_object.
  destruct (column_names_from_spec lower headers 0 ∅) as (Hnd & _ & _).
  exact (fill_row_lookup (column_names lower headers) 0%nat idx cells ∅ name
           Hnd Hi).
Qed.

Lemma row_cell_by_column_witness :
  column_names toLowerCase_latin1
    [lit "Name"; lit "name"; lit "名称"; lit "name_2"]
  = [lit "name"; lit "name_2"; lit "col_3"; lit "name_2_2"] ∧
  row_object
    (column_names toLowerCase_latin1
       [lit "Name"; lit "name"; lit "名称"; lit "name_2"])
    [lit "a"; lit "b"; lit "c"] !! lit "name_2_2"
  = Some [].
Proof.
  split; [vm_compute; reflexivity |].
  refine (row_cell_by_column toLowerCase_latin1
            [lit "Name"; lit "name"; lit "名称"; lit "name_2"]
            [lit "a"; lit "b"; lit "c"] 3 (lit "name_2_2") _).
  vm_compute. reflexivity.
Defined.

(** ** Chunking: further properties *)

Lemma chunks_within_limit_without_fences_witness :
  Forall (λ c, len c ≤ 12) (splitMarkdownIntoChunks plain_notes 12).
Proof.
  apply chunks_within_limit_without_fences.
  vm_compute. repeat constructor; congruence.
Defined.

Section ChunkNonEmpty.

Variable maxChars : Z.

Implicit Types (st : chunk_state) (line : str).

Lemma pushChunk_nonempty closed st :
  Forall (λ c, c ≠ []) (chunks st) →
  Forall (λ c, c ≠ []) (chunks (pushChunk closed st)).
Proof.
  intros H. unfold pushChunk. cbn [chunks].
  destruct (trimEnd (join nl (buf st))) eqn:Ho; [done |].
  cbn [falsy]. apply Forall_app. split; [done |]. by repeat constructor.
Qed.

Lemma chunk_step_nonempty line next st :
  Forall (λ c, c ≠ []) (chunks st) →
  Forall (λ c, c ≠ []) (chunks (chunk_step maxChars line next st)).
Proof.
  intros H. unfold chunk_step.
  assert (Forall (λ c, c ≠ []) (chunks (track_fence line st))) as H1.
  { unfold track_fence. cbv zeta. by repeat case_match. }
  assert (Forall (λ c, c ≠ [])
            (chunks (make_room maxChars line (track_fence line st)))) as H2.
  { unfold make_room. cbv zeta. repeat case_match; try done.
    - cbn [chunks]. by apply pushChunk_nonempty.
    - by apply pushChunk_nonempty. }
  unfold paragraph_break. case_match; [| done].
  by apply pushChunk_nonempty.
Qed.

Lemma chunk_loop_nonempty (lines : list str) : ∀ st,
  Forall (λ c, c ≠ []) (chunks st) →
  Forall (λ c, c ≠ []) (chunks (chunk_loop maxChars lines st)).
Proof.
  induction lines as [|l lines IH]; intros st H; [done |].
  cbn [chunk_loop]. apply IH. by apply chunk_step_nonempty.
Qed.

Lemma chunk_run_nonempty (src : str) :
  Forall (λ c, c ≠ []) (chunks (chunk_run maxChars src)).
Proof.
  unfold chunk_run. cbv zeta.
  pose proof (chunk_loop_nonempty (split 10 src) chunk_init
                ltac:(constructor)) as H.
  case_match; [by apply pushChunk_nonempty | done].
Qed.

End ChunkNonEmpty.

(** X28. The splitter gives no chunk only for an empty reply, and for a
    positive limit it never gives an empty chunk: what is pushed has
    been checked to be non-empty, and the fallback takes the first
    [maxChars] characters of a non-empty text. *)
Theorem chunks_never_empty (text : str) (maxChars : Z) :
  0 < maxChars →
  (splitMarkdownIntoChunks text maxChars = [] ↔ normalize_newlines text = []) ∧
  Forall (λ c, c ≠ []) (splitMarkdownIntoChunks text maxChars).
Proof.
  intros Hpos. unfold splitMarkdownIntoChunks. cbv zeta.
  destruct (normalize_newlines text) as [|c src'] eqn:Hs; [done |].
  cbn [falsy].
  destruct (len (c :: src') <=? maxChars); [by repeat constructor |].
  pose proof (chunk_run_nonempty maxChars (c :: src')) as H.
  destruct (chunks (chunk_run maxChars (c :: src'))) as [|c1 cs]; [| done].
  split; [done |]. repeat constructor.
  unfold slice_to. destruct (maxChars <? 0) eqn:Hneg;
    [apply Z.ltb_lt in Hneg; lia |].
  destruct (Z.to_nat maxChars) eqn:Hn; [lia |]. done.
Qed.

Lemma chunks_never_empty_witness :
  Forall (λ c, c ≠ []) (splitMarkdownIntoChunks build_notes 16).
Proof. apply (chunks_never_empty build_notes 16). lia. Defined.

Section ChunkClean.

Variable maxChars : Z.

Implicit Types (st : chunk_state) (line : str).

Lemma join_snoc (sep : str) (pre : list str) (l : str) :
  ∃ a, join sep (pre ++ [l]) = a ++ l.
Proof.
  induction pre as [|x pre [a IH]]; [by exists [] |].
  exists (x ++ sep ++ a). cbn [app join].
  destruct (pre ++ [l]) eqn:Hp; [by destruct pre |].
  rewrite IH. by rewrite <- !app_assoc.
Qed.

Lemma trimEnd_clean_end (a l : str) :
  l ≠ [] → trimEnd l = l → trimEnd (a ++ l) = a ++ l.
Proof.
  intros Hne Ht. unfold trimEnd in *.
  apply (f_equal (@rev _)) in Ht. rewrite rev_involutive in Ht.
  rewrite rev_app_distr.
  destruct (rev l) as [|x r] eqn:Hr.
  { apply (f_equal (@rev _)) in Hr. rewrite rev_involutive in Hr. done. }
  cbn [drop_while app] in *.
  destruct (is_space x).
  - pose proof (length_drop_while is_space r) as Hlen.
    rewrite Ht in Hlen. cbn in Hlen. lia.
  - cbn [rev]. rewrite rev_app_distr, rev_involutive.
    change (x :: r) with ([x] ++ r) in Hr.
    apply (f_equal (@rev _)) in Hr.
    rewrite rev_involutive, rev_app_distr in Hr. cbn in Hr.
    rewrite Hr. by rewrite <- app_assoc.
Qed.

(** A buffer of clean lines is pushed as it is. *)
Lemma rendered_clean (b : list str) :
  b ≠ [] → Forall clean_line b →
  trimEnd (join nl b) = join nl b ∧ join nl b ≠ [].
Proof.
  intros Hne Hall.
  destruct (exists_last Hne) as (pre & l & ->).
  apply Forall_app in Hall as [_ Hl]. inversion Hl as [|? ? (H1 & H2 & _) _]; subst.
  destruct (join_snoc nl pre l) as [a ->].
  split; [by apply trimEnd_clean_end |].
  destruct l; [done |]. by destruct a.
Qed.

Lemma pushChunk_clean closed st (bufs : list (list str)) :
  buf st ≠ [] → Forall clean_line (buf st) →
  chunks st = List.map (join nl) bufs →
  chunks (pushChunk closed st) = List.map (join nl) (bufs ++ [buf st]).
Proof.
  intros Hne Hall Hch. unfold pushChunk. cbn [chunks].
  destruct (rendered_clean (buf st) Hne Hall) as [-> Hj].
  destruct (join nl (buf st)) eqn:Hb; [done |]. cbn [falsy].
  by rewrite Hch, map_app, <- Hb.
Qed.

Lemma chunk_step_clean line next st (bufs : list (list str)) :
  clean_line line →
  inFence st = false → Forall clean_line (buf st) →
  chunks st = List.map (join nl) bufs →
  Forall (λ b, b ≠ []) bufs →
  ∃ bufs',
    chunks (chunk_step maxChars line next st) = List.map (join nl) bufs' ∧
    Forall (λ b, b ≠ []) bufs' ∧
    concat bufs' ++ buf (chunk_step maxChars line next st)
    = concat bufs ++ buf st ++ [line] ∧
    inFence (chunk_step maxChars line next st) = false ∧
    Forall clean_line (buf (chunk_step maxChars line next st)).
Proof.
  intros Hl Hin Hbuf Hch Hne. unfold chunk_step.
  destruct Hl as (Hl1 & Hl2 & Hl3).
  assert (track_fence line st = st) as -> by (unfold track_fence; cbv zeta; by rewrite Hl3).
  set (st1 := make_room maxChars line st).
  assert (∃ bufs1,
            chunks st1 = List.map (join nl) bufs1 ∧
            Forall (λ b, b ≠ []) bufs1 ∧
            concat bufs1 ++ buf st1 = concat bufs ++ buf st ∧
            inFence st1 = false ∧ Forall clean_line (buf st1))
    as (bufs1 & Hch1 & Hne1 & Hcov1 & Hin1 & Hbuf1).
  { unfold st1, make_room. cbv zeta. rewrite Hin.
    destruct (_ && _) eqn:Hc; [| by exists bufs].
    apply andb_true_iff in Hc as [_ Hc]. apply Nat.ltb_lt in Hc.
    assert (buf st ≠ []) as Hb by (destruct (buf st); [cbn in Hc; lia | done]).
    exists (bufs ++ [buf st]). split; [by apply pushChunk_clean |].
    split; [apply Forall_app; split; [done | by repeat constructor] |].
    split; [| done]. cbn [pushChunk buf].
    rewrite concat_app. cbn [concat]. by rewrite !app_nil_r. }
  set (st2 := append_line line st1).
  assert (buf st2 = buf st1 ++ [line]) as Hb2 by done.
  assert (Forall clean_line (buf st2)) as Hbuf2.
  { rewrite Hb2. apply Forall_app. split; [done |]. by repeat constructor. }
  assert (concat bufs1 ++ buf st2 = concat bufs ++ buf st ++ [line]) as Hcov2.
  { rewrite Hb2. by rewrite !app_assoc, Hcov1. }
  unfold paragraph_break. destruct (_ && _ && _).
  - exists (bufs1 ++ [buf st2]). split.
    { apply pushChunk_clean; [| done | done]. rewrite Hb2. by destruct (buf st1). }
    split.
    { apply Forall_app. split; [done |]. repeat constructor.
      rewrite Hb2. by destruct (buf st1). }
    split; [| done]. cbn [pushChunk buf].
    rewrite concat_app. cbn [concat]. rewrite !app_nil_r. exact Hcov2.
  - by exists bufs1.
Qed.

Lemma chunk_loop_clean (lines : list str) : ∀ st (bufs : list (list str)),
  Forall clean_line lines →
  inFence st = false → Forall clean_line (buf st) →
  chunks st = List.map (join nl) bufs →
  Forall (λ b, b ≠ []) bufs →
  ∃ bufs',
    chunks (chunk_loop maxChars lines st) = List.map (join nl) bufs' ∧
    Forall (λ b, b ≠ []) bufs' ∧
    concat bufs' ++ buf (chunk_loop maxChars lines st)
    = concat bufs ++ buf st ++ lines ∧
    Forall clean_line (buf (chunk_loop maxChars lines st)).
Proof.
  induction lines as [|l lines IH]; intros st bufs Hall Hin Hbuf Hch Hne.
  - exists bufs. by rewrite app_nil_r.
  - inversion Hall as [|? ? Hl Hrest]; subst. cbn [chunk_loop].
    destruct (chunk_step_clean l (head lines) st bufs Hl Hin Hbuf Hch Hne)
      as (bufs1 & Hch1 & Hne1 & Hcov1 & Hin1 & Hbuf1).
    destruct (IH _ bufs1 Hrest Hin1 Hbuf1 Hch1 Hne1)
      as (bufs2 & Hch2 & Hne2 & Hcov2 & Hbuf2).
    exists bufs2. repeat split; try done.
    rewrite Hcov2, app_assoc, Hcov1. by rewrite <- !app_assoc.
Qed.

Lemma join_app (sep : str) (a b : list str) :
  a ≠ [] → b ≠ [] → join sep (a ++ b) = join sep a ++ sep ++ join sep b.
Proof.
  intros Ha Hb. induction a as [|x a IH]; [done |].
  destruct a as [|y a].
  - cbn [app join]. by destruct b.
  - change (join sep ((x :: y :: a) ++ b))
      with (x ++ sep ++ join sep ((y :: a) ++ b)).
    rewrite IH by done. cbn [join]. by rewrite <- !app_assoc.
Qed.

Lemma join_concat (bufs : list (list str)) :
  Forall (λ b, b ≠ []) bufs →
  join nl (concat bufs) = join nl (List.map (join nl) bufs).
Proof.
  induction 1 as [|b bufs Hb Hbufs IH]; [done |].
  cbn [concat List.map]. destruct bufs as [|b2 bufs].
  - cbn. by rewrite app_nil_r.
  - inversion Hbufs as [|? ? Hb2 _]; subst.
    rewrite join_app; [| done | cbn [concat]; by destruct b2].
    rewrite IH. done.
Qed.

Lemma chunk_run_clean (src : str) :
  Forall clean_line (split 10 src) →
  chunks (chunk_run maxChars src) ≠ [] ∧
  join nl (chunks (chunk_run maxChars src)) = src.
Proof.
  intros Hall. unfold chunk_run. cbv zeta.
  destruct (chunk_loop_clean (split 10 src) chunk_init [] Hall)
    as (bufs & Hch & Hne & Hcov & Hbuf); try done.
  cbn [concat app chunk_init buf] in Hcov.
  set (st := chunk_loop maxChars (split 10 src) chunk_init) in *.
  assert (∃ bufs', chunks (if (0 <? length (buf st))%nat
                           then pushChunk false st else st)
                   = List.map (join nl) bufs' ∧
                   Forall (λ b, b ≠ []) bufs' ∧
                   concat bufs' = split 10 src)
    as (bufs' & Hch' & Hne' & Hcov').
  { destruct (buf st) as [|l b] eqn:Hb.
    - exists bufs. cbn. by rewrite app_nil_r in Hcov.
    - cbn [length Nat.ltb Nat.leb]. exists (bufs ++ [buf st]).
      split; [apply pushChunk_clean; rewrite ?Hb; done |].
      split; [apply Forall_app; split; [done |]; rewrite Hb;
              by repeat constructor |].
      rewrite concat_app. cbn [concat]. by rewrite app_nil_r, Hb. }
  rewrite Hch'. split.
  - destruct bufs'; [| done]. cbn in Hcov'.
    by pose proof (split_not_nil 10 src).
  - rewrite <- join_concat by done. rewrite Hcov'. apply join_split.
Qed.

End ChunkClean.

(** X29. For a reply without fences, blank lines or white space at a
    line end the chunks are an exact split: joined by newlines they
    give the reply back (with its line ends normalised), whatever the
    limit. *)
Theorem clean_text_roundtrip (text : str) (maxChars : Z) :
  Forall clean_line (split 10 (normalize_newlines text)) →
  join nl (splitMarkdownIntoChunks text maxChars) = normalize_newlines text.
Proof.
  intros Hall. unfold splitMarkdownIntoChunks. cbv zeta.
  destruct (normalize_newlines text) as [|c src'] eqn:Hs; [done |].
  cbn [falsy]. destruct (len (c :: src') <=? maxChars); [done |].
  destruct (chunk_run_clean maxChars (c :: src') Hall) as [Hne Hj].
  by destruct (chunks (chunk_run maxChars (c :: src'))).
Qed.

Lemma clean_text_roundtrip_witness :
  join nl (splitMarkdownIntoChunks plain_notes 12) = plain_notes ∧
  (1 < length (splitMarkdownIntoChunks plain_notes 12))%nat.
Proof.
  split; [| vm_compute; lia].
  apply (clean_text_roundtrip plain_notes 12).
  vm_compute. repeat constructor; congruence.
Defined.

(** ** Reply format *)

Section ReplyFormat.

Lemma includes_absent (s p : str) (c : char) :
  Forall (λ x, x ≠ c) s → includes s (c :: p) = false.
Proof.
  induction 1 as [|x s Hx Hs IH]; [done |].
  cbn [includes]. rewrite IH, orb_false_r.
  unfold startsWith. cbn [strip_prefix].
  by destruct (N.eqb_spec c x) as [-> | _].
Qed.

Lemma inline_code_absent (s : str) :
  Forall (λ x, x ≠ 96%N) s → inline_code s = false.
Proof.
  induction 1 as [|x s Hx Hs IH]; [done |].
  cbn [inline_code]. rewrite IH, orb_false_r.
  by destruct (N.eqb_spec x 96).
Qed.

Lemma md_link_absent (s : str) :
  Forall (λ x, x ≠ 91%N) s → md_link s = false.
Proof.
  induction 1 as [|x s Hx Hs IH]; [done |].
  cbn [md_link]. rewrite IH, orb_false_r.
  by destruct (N.eqb_spec x 91).
Qed.

Lemma at_line_start_absent (test : str → bool) (s : str) : ∀ start,
  (∀ t, t = [] ∨ (∃ x r, t = x :: r ∧ x ∈ s) → test t = false) →
  at_line_start test start s = false.
Proof.
  induction s as [|x s IH]; intros start Ht.
  - cbn. rewrite Ht by (by left). by destruct start.
  - cbn [at_line_start]. rewrite IH.
    + rewrite Ht; [by destruct start |]. right. exists x, s. split; [done | left].
    + intros t [-> | (y & r & -> & Hy)]; apply Ht; [by left |].
      right. exists y, r. split; [done | by right].
Qed.

Lemma trigger_absent (c x : char) :
  mem_char x markdown_triggers = false →
  c ∈ [96%N; 42%N; 95%N; 91%N; 35%N; 45%N] → x ≠ c.
Proof.
  intros Hm Hc ->. revert Hm.
  repeat (apply elem_of_cons in Hc as [-> | Hc]; [by vm_compute |]).
  by apply elem_of_nil in Hc.
Qed.

End ReplyFormat.

(** X30. With no format forced, a reply that holds none of the
    characters a Markdown pattern starts with (backtick, asterisk,
    underscore, opening bracket, hash, hyphen) is sent as a plain text
    message that carries the reply unchanged. *)
Theorem plain_reply_sent_as_text (rc : reply_config) (text : str) :
  FORCE_TEXT_REPLY rc = false → FORCE_CARD_REPLY rc = false →
  FORCE_POST_REPLY rc = false →
  Forall (λ c, mem_char c markdown_triggers = false) text →
  needsMarkdownCard text = false ∧ buildMessage rc text = TextMessage text.
Proof.
  intros Ht Hc Hp Hall.
  assert (∀ c, c ∈ [96%N; 42%N; 95%N; 91%N; 35%N; 45%N] →
               Forall (λ x, x ≠ c) text) as Hno.
  { intros c Hc'. eapply Forall_impl; [exact Hall |].
    intros x Hx. by apply (trigger_absent c x). }
  assert (needsMarkdownCard text = false) as Hn.
  { unfold needsMarkdownCard.
    change (lit "```") with [96%N; 96%N; 96%N].
    change (lit "**") with [42%N; 42%N]. change (lit "__") with [95%N; 95%N].
    rewrite !includes_absent by (apply Hno; set_solver).
    rewrite inline_code_absent by (apply Hno; set_solver).
    rewrite md_link_absent by (apply Hno; set_solver).
    rewrite !at_line_start_absent; [done | |].
    - intros t [-> | (x & r & -> & Hx)]; [done |].
      unfold list_mark. destruct r; [done |].
      assert (mem_char x (lit "-*") = false) as ->; [| done].
      pose proof (proj1 (Forall_forall _ _) (Hno 45%N ltac:(set_solver)) x Hx).
      pose proof (proj1 (Forall_forall _ _) (Hno 42%N ltac:(set_solver)) x Hx).
      change (lit "-*") with [45%N; 42%N]. cbn.
      destruct (N.eqb_spec x 45); [done |].
      by destruct (N.eqb_spec x 42).
    - intros t [-> | (x & r & -> & Hx)]; [done |].
      unfold heading_mark. cbn [take_while].
      pose proof (proj1 (Forall_forall _ _) (Hno 35%N ltac:(set_solver)) x Hx).
      destruct (N.eqb_spec 35 x) as [Heq | _]; [by subst | done]. }
  split; [done |]. unfold buildMessage. by rewrite Ht, Hc, Hp, Hn.
Qed.

Lemma plain_reply_sent_as_text_witness :
  buildMessage
    {| FORCE_TEXT_REPLY := false; FORCE_CARD_REPLY := false;
       FORCE_POST_REPLY := false; FEISHU_TABLE_ENABLED := true |}
    (lit "3 + 4 = 7, see (a).")
  = TextMessage (lit "3 + 4 = 7, see (a).").
Proof.
  apply plain_reply_sent_as_text; try reflexivity.
  vm_compute. repeat constructor.
Defined.
